(** * Graph ADT homework: a shallow embedding of [graphs/graph.py] and
    [graphs/weighted_graph.py], and the properties of its algorithms.

    Python objects are modelled as follows.
    - A [dict] is an association list in insertion order with unique keys:
      iteration order is observable in the source ([get_neighbors],
      [get_smallest_vetext], [list(d.keys())[0]]).
    - A [set] whose only uses are [add], [remove] and [in] is a list.
    - A [deque] used with [append]/[popleft] is a list popped at its head.
    - Raised exceptions are the [Raise] outcome of a small error monad; a loop
      or a recursion that would not come back is [OutOfFuel].  Interpreter
      resource limits (recursion depth, memory) are not modelled.
    - Vertex ids are strings; edge weights are integers; [float('inf')] is
      the extra point [Inf] of [num]. *)

From Stdlib Require Import String List ZArith Lia Bool Arith Permutation Sorted.
Import ListNotations.

Definition vid := string.

(** ** Python values and outcomes *)
Module Py.

Inductive exn : Type :=
| KeyError | IndexError | ValueError | NameError | AttributeError.

Inductive result (A : Type) : Type :=
| Ok (a : A)
| Raise (e : exn)
| OutOfFuel.
Arguments Ok {A} a.
Arguments Raise {A} e.
Arguments OutOfFuel {A}.

Definition bind {A B} (r : result A) (k : A -> result B) : result B :=
  match r with
  | Ok a => k a
  | Raise e => Raise e
  | OutOfFuel => OutOfFuel
  end.

(** [x in l] on a list or a set of ids. *)
Definition py_in (x : vid) (l : list vid) : bool := existsb (String.eqb x) l.

(** [l.pop()]: the last element and the list without it. *)
Definition list_pop (l : list vid) : option (vid * list vid) :=
  match rev l with
  | [] => None
  | x :: r => Some (x, rev r)
  end.

(** [l.remove(x)] without its failure case: drops the first occurrence. *)
Fixpoint list_remove (x : vid) (l : list vid) : list vid :=
  match l with
  | [] => []
  | y :: l' => if String.eqb x y then l' else y :: list_remove x l'
  end.

(** Dictionaries keyed by vertex ids. *)
Definition dict (V : Type) : Type := list (vid * V).

Definition dict_keys {V} (d : dict V) : list vid := map fst d.
Definition dict_values {V} (d : dict V) : list V := map snd d.

Fixpoint dict_get {V} (d : dict V) (k : vid) : option V :=
  match d with
  | [] => None
  | (k', v) :: d' => if String.eqb k k' then Some v else dict_get d' k
  end.

Definition dict_has {V} (d : dict V) (k : vid) : bool :=
  match dict_get d k with Some _ => true | None => false end.

(** [d[k] = v]: an existing key keeps its place, a new one goes last. *)
Fixpoint dict_set {V} (d : dict V) (k : vid) (v : V) : dict V :=
  match d with
  | [] => [(k, v)]
  | (k', v') :: d' =>
      if String.eqb k k' then (k', v) :: d' else (k', v') :: dict_set d' k v
  end.

(** [del d[k]] for a key that is present. *)
Fixpoint dict_del {V} (d : dict V) (k : vid) : dict V :=
  match d with
  | [] => []
  | (k', v') :: d' =>
      if String.eqb k k' then d' else (k', v') :: dict_del d' k
  end.

(** [d[k]] as an expression: a missing key raises [KeyError]. *)
Definition dict_at {V} (d : dict V) (k : vid) : result V :=
  match dict_get d k with
  | Some v => Ok v
  | None => Raise KeyError
  end.

(** Numbers with [float('inf')]. *)
Inductive num : Type :=
| Fin (z : Z)
| Inf.

Definition num_ltb (a b : num) : bool :=
  match a, b with
  | Fin x, Fin y => (x <? y)%Z
  | Fin _, Inf => true
  | Inf, _ => false
  end.

Definition num_add (a b : num) : num :=
  match a, b with
  | Fin x, Fin y => Fin (x + y)
  | _, _ => Inf
  end.

End Py.
Import Py.

Declare Scope py_scope.
Delimit Scope py_scope with py.
Notation "x <- c ;; k" := (bind c (fun x => k))
  (at level 61, c at next level, right associativity) : py_scope.
Notation "' p <- c ;; k" := (bind c (fun x => let 'p := x in k))
  (at level 61, p pattern, c at next level, right associativity) : py_scope.
Local Open Scope py_scope.

(** ** [graphs/graph.py]: class [Graph] *)
Module Graph.

Record t : Type := mk {
  vertex_dict : dict (list vid);   (* id -> list of neighbor ids *)
  is_directed : bool
}.

(** [Graph(is_directed)] *)
Definition init (directed : bool) : t := mk [] directed.

Definition add_vertex (g : t) (vertex_id : vid) : t :=
  mk (dict_set (vertex_dict g) vertex_id []) (is_directed g).

Definition add_edge (g : t) (start_id end_id : vid) : result t :=
  l <- dict_at (vertex_dict g) start_id ;;
  Ok (mk (dict_set (vertex_dict g) start_id (l ++ [end_id])) (is_directed g)).

Definition contains_vertex (g : t) (vertex_id : vid) : bool :=
  dict_has (vertex_dict g) vertex_id.

Definition contains_edge (g : t) (start_id end_id : vid) : result bool :=
  l <- dict_at (vertex_dict g) start_id ;;
  Ok (py_in end_id l).

Definition get_vertices (g : t) : list vid := dict_keys (vertex_dict g).

(** The [for vertex in self.vertex_dict] loop of [get_neighbors]. *)
Fixpoint reverse_neighbors (vd : dict (list vid)) (ks : list vid)
    (start_id : vid) (neighbors : list vid) : result (list vid) :=
  match ks with
  | [] => Ok neighbors
  | vertex :: ks' =>
      l <- dict_at vd vertex ;;
      reverse_neighbors vd ks' start_id
        (if py_in start_id l then neighbors ++ [vertex] else neighbors)
  end.

Definition get_neighbors (g : t) (start_id : vid) : result (list vid) :=
  if is_directed g then dict_at (vertex_dict g) start_id
  else
    neighbors <- reverse_neighbors (vertex_dict g) (dict_keys (vertex_dict g))
                   start_id [] ;;
    l <- dict_at (vertex_dict g) start_id ;;
    Ok (neighbors ++ l).

(** Every id the graph mentions.  A traversal takes a vertex from its queue
    at most once per id it has marked, and marks ids of this list only, so
    one more round than the list is long is never asked for. *)
Definition mentioned (g : t) : list vid :=
  dict_keys (vertex_dict g) ++ concat (dict_values (vertex_dict g)).

Definition fuel_of (g : t) : nat := S (length (mentioned g)).

(** *** [bfs_traversal] *)

(** The [for neighbor_id in ...] loop: unseen neighbours are marked and
    enqueued. *)
Fixpoint bfs_scan (ns seen queue : list vid) : list vid * list vid :=
  match ns with
  | [] => (seen, queue)
  | neighbor_id :: ns' =>
      if py_in neighbor_id seen then bfs_scan ns' seen queue
      else bfs_scan ns' (seen ++ [neighbor_id]) (queue ++ [neighbor_id])
  end.

(** The [while queue] loop.  [out] is the sequence of ids printed by
    [Processing vertex ...], the observable effect of the traversal. *)
Fixpoint bfs_loop (fuel : nat) (g : t) (seen queue out : list vid)
    : list vid * result unit :=
  match queue with
  | [] => (out, Ok tt)
  | current_vertex_id :: queue' =>
      match fuel with
      | O => (out, OutOfFuel)
      | S fuel' =>
          let out' := out ++ [current_vertex_id] in
          match get_neighbors g current_vertex_id with
          | Ok ns =>
              let '(seen', queue'') := bfs_scan ns seen queue' in
              bfs_loop fuel' g seen' queue'' out'
          | Raise e => (out', Raise e)
          | OutOfFuel => (out', OutOfFuel)
          end
      end
  end.

Definition bfs_traversal (g : t) (start_id : vid) : list vid * result unit :=
  if negb (dict_has (vertex_dict g) start_id) then ([], Raise KeyError)
  else bfs_loop (fuel_of g) g [start_id] [start_id] [].

(** *** [find_shortest_path] *)

Fixpoint sp_scan (ns : list vid) (vertex : vid)
    (path_dict : dict (list vid)) (queue : list vid)
    : result (dict (list vid) * list vid) :=
  match ns with
  | [] => Ok (path_dict, queue)
  | neighor_id :: ns' =>
      if dict_has path_dict neighor_id then sp_scan ns' vertex path_dict queue
      else
        p <- dict_at path_dict vertex ;;
        sp_scan ns' vertex (dict_set path_dict neighor_id (p ++ [neighor_id]))
          (queue ++ [neighor_id])
  end.

Fixpoint sp_loop (fuel : nat) (g : t) (target_id : vid)
    (path_dict : dict (list vid)) (queue : list vid)
    : result (dict (list vid)) :=
  match queue with
  | [] => Ok path_dict
  | vertex :: queue' =>
      if String.eqb vertex target_id then Ok path_dict
      else
        match fuel with
        | O => OutOfFuel
        | S fuel' =>
            ns <- get_neighbors g vertex ;;
            '(path_dict', queue'') <- sp_scan ns vertex path_dict queue' ;;
            sp_loop fuel' g target_id path_dict' queue''
        end
  end.

Definition find_shortest_path (g : t) (start_id target_id : vid)
    : result (list vid) :=
  if negb (dict_has (vertex_dict g) start_id) then Raise KeyError
  else
    path_dict <- sp_loop (fuel_of g) g target_id
                   [(start_id, [start_id])] [start_id] ;;
    dict_at path_dict target_id.

(** *** [is_bipartite] *)

(** The [for neighbor] loop; [inl b] is the early [return b]. *)
Fixpoint bip_scan (ns : list vid) (vertex : vid)
    (vertex_colors : dict bool) (queue : list vid)
    : result (bool + dict bool * list vid) :=
  match ns with
  | [] => Ok (inr (vertex_colors, queue))
  | neighbor :: ns' =>
      if negb (dict_has vertex_colors neighbor) then
        cv <- dict_at vertex_colors vertex ;;
        bip_scan ns' vertex (dict_set vertex_colors neighbor (negb cv))
          (queue ++ [neighbor])
      else
        cn <- dict_at vertex_colors neighbor ;;
        cv <- dict_at vertex_colors vertex ;;
        if Bool.eqb cn cv then Ok (inl false)
        else bip_scan ns' vertex vertex_colors queue
  end.

Fixpoint bip_loop (fuel : nat) (g : t) (vertex_colors : dict bool)
    (queue : list vid) : result bool :=
  match queue with
  | [] => Ok true
  | vertex :: queue' =>
      match fuel with
      | O => OutOfFuel
      | S fuel' =>
          ns <- get_neighbors g vertex ;;
          r <- bip_scan ns vertex vertex_colors queue' ;;
          match r with
          | inl b => Ok b
          | inr (vertex_colors', queue'') =>
              bip_loop fuel' g vertex_colors' queue''
          end
      end
  end.

(** [list(self.vertex_dict.keys())[0]] raises [IndexError] on an empty
    dictionary. *)
Definition is_bipartite (g : t) : result bool :=
  match dict_keys (vertex_dict g) with
  | [] => Raise IndexError
  | start_id :: _ => bip_loop (fuel_of g) g [(start_id, true)] [start_id]
  end.

(** *** [find_connected_components] *)

(** [not_visited.remove(neighbor_id)] raises [ValueError] when the id is
    not in the list. *)
Fixpoint fcc_scan (ns seen not_visited queue : list vid)
    : result (list vid * list vid * list vid) :=
  match ns with
  | [] => Ok (seen, not_visited, queue)
  | neighbor_id :: ns' =>
      if py_in neighbor_id seen then fcc_scan ns' seen not_visited queue
      else if py_in neighbor_id not_visited then
        fcc_scan ns' (seen ++ [neighbor_id])
          (list_remove neighbor_id not_visited) (queue ++ [neighbor_id])
      else Raise ValueError
  end.

Fixpoint fcc_bfs (fuel : nat) (g : t) (seen not_visited queue : list vid)
    : result (list vid * list vid) :=
  match queue with
  | [] => Ok (seen, not_visited)
  | current_vertex_id :: queue' =>
      match fuel with
      | O => OutOfFuel
      | S fuel' =>
          ns <- get_neighbors g current_vertex_id ;;
          '(seen', not_visited', queue'') <-
            fcc_scan ns seen not_visited queue' ;;
          fcc_bfs fuel' g seen' not_visited' queue''
      end
  end.

(** The outer [while not_visited] loop.  A component is [list(seen)]: the
    order inside it is left open by Python; here it is discovery order. *)
Fixpoint fcc_loop (fuel : nat) (g : t) (not_visited : list vid)
    (components : list (list vid)) : result (list (list vid)) :=
  match list_pop not_visited with
  | None => Ok components
  | Some (start_id, not_visited') =>
      match fuel with
      | O => OutOfFuel
      | S fuel' =>
          '(seen, not_visited'') <-
            fcc_bfs (S (length not_visited')) g [start_id] not_visited'
              [start_id] ;;
          fcc_loop fuel' g not_visited'' (components ++ [seen])
      end
  end.

Definition find_connected_components (g : t) : result (list (list vid)) :=
  fcc_loop (length (dict_keys (vertex_dict g))) g
    (dict_keys (vertex_dict g)) [].

(** *** [contains_cycle] *)

Definition set_add (x : vid) (s : list vid) : list vid :=
  if py_in x s then s else s ++ [x].

(** [s.remove(x)] on a set raises [KeyError] when [x] is absent. *)
Definition set_remove (x : vid) (s : list vid) : result (list vid) :=
  if py_in x s then Ok (list_remove x s) else Raise KeyError.

(** The nested [dfs_traversal_recursive] of [contains_cycle].  The state is
    the pair of the enclosing [not_visited] list and [current_path] set,
    both mutated by the recursion.  A [return True] inside the loop leaves
    [start_vertex] on [current_path]. *)
Fixpoint cyc_dfs (fuel : nat) (g : t) (start_vertex : vid)
    (st : list vid * list vid) : result (bool * (list vid * list vid)) :=
  match fuel with
  | O => OutOfFuel
  | S fuel' =>
      ns <- get_neighbors g start_vertex ;;
      (fix scan (ns : list vid) (contains_cycle : bool)
           (st : list vid * list vid) {struct ns} :=
         let '(not_visited, current_path) := st in
         match ns with
         | [] =>
             current_path' <- set_remove start_vertex current_path ;;
             Ok (contains_cycle, (not_visited, current_path'))
         | neighbor :: ns' =>
             if py_in neighbor not_visited then
               '(b, st') <- cyc_dfs fuel' g neighbor
                              (list_remove neighbor not_visited,
                               set_add neighbor current_path) ;;
               scan ns' b st'
             else if py_in neighbor current_path then Ok (true, st)
             else scan ns' contains_cycle st
         end) ns false st
  end.

(** The [while not_visited] loop returns from its first iteration; with no
    vertex at all the function falls off its end and returns [None]. *)
Definition contains_cycle (g : t) : result (option bool) :=
  match list_pop (dict_keys (vertex_dict g)) with
  | None => Ok None
  | Some (start_id, not_visited) =>
      '(b, _) <- cyc_dfs (S (length not_visited)) g start_id
                   (not_visited, set_add start_id []) ;;
      Ok (Some b)
  end.

(** *** [topological_sort] *)

(** What [topological_sort] hands back through [return]. *)
Inductive returned : Type :=
| RetValueError (msg : string)      (* a [ValueError] object, as a value *)
| RetList (l : list vid).

Fixpoint ts_dfs (fuel : nat) (g : t) (start_vertex : vid)
    (st : list vid * list vid) : result (list vid * list vid) :=
  match fuel with
  | O => OutOfFuel
  | S fuel' =>
      ns <- get_neighbors g start_vertex ;;
      '(not_visited, stack) <-
        (fix scan (ns : list vid) (st : list vid * list vid) {struct ns} :=
           match ns with
           | [] => Ok st
           | neighbor :: ns' =>
               let '(not_visited, stack) := st in
               if py_in neighbor not_visited then
                 st' <- ts_dfs fuel' g neighbor
                          (list_remove neighbor not_visited, stack) ;;
                 scan ns' st'
               else scan ns' st
           end) ns st ;;
      Ok (not_visited, stack ++ [start_vertex])
  end.

Fixpoint ts_loop (fuel : nat) (g : t) (not_visited stack : list vid)
    : result (list vid) :=
  match list_pop not_visited with
  | None => Ok stack
  | Some (start_id, not_visited') =>
      match fuel with
      | O => OutOfFuel
      | S fuel' =>
          '(not_visited'', stack') <-
            ts_dfs (S (length not_visited')) g start_id
              (not_visited', stack) ;;
          ts_loop fuel' g not_visited'' stack'
      end
  end.

(** [if self.contains_cycle(): return ValueError(...)]: [None] and [False]
    are both falsy. *)
Definition topological_sort (g : t) : result returned :=
  c <- contains_cycle g ;;
  match c with
  | Some true =>
      Ok (RetValueError "Graph contains cycle and cannot be sorted.")
  | _ =>
      stack <- ts_loop (length (dict_keys (vertex_dict g))) g
                 (dict_keys (vertex_dict g)) [] ;;
      Ok (RetList (rev stack))
  end.

End Graph.

(** ** [graphs/weighted_graph.py]: classes [WeightedVertex], [WeightedGraph] *)
Module WeightedGraph.

(** A neighbour entry [id -> (obj, weight)] keeps the neighbour object by
    reference; the object is the one the graph stores under that id, so the
    entry is modelled as [id -> weight]. *)
Record WeightedVertex : Type := mkV {
  id : vid;
  neighbors_dict : dict Z
}.

(** [WeightedVertex(vertex_id)] *)
Definition new_vertex (vertex_id : vid) : WeightedVertex := mkV vertex_id [].

Definition add_neighbor (self : WeightedVertex) (vertex_obj_id : vid)
    (weight : Z) : WeightedVertex :=
  if dict_has (neighbors_dict self) vertex_obj_id then self
  else mkV (id self) (dict_set (neighbors_dict self) vertex_obj_id weight).

(** [list(self.neighbors_dict.values())] as pairs (neighbour id, weight). *)
Definition get_neighbors_with_weights (self : WeightedVertex)
    : list (vid * Z) := neighbors_dict self.

Record t : Type := mk {
  vertex_dict : dict WeightedVertex;   (* id -> obj *)
  is_directed : bool
}.

Definition init (directed : bool) : t := mk [] directed.

Definition add_vertex (g : t) (vertex_id : vid) : bool * t :=
  if dict_has (vertex_dict g) vertex_id then (false, g)
  else (true, mk (dict_set (vertex_dict g) vertex_id (new_vertex vertex_id))
                 (is_directed g)).

Definition get_vertex (g : t) (vertex_id : vid) : option WeightedVertex :=
  if negb (dict_has (vertex_dict g) vertex_id) then None
  else dict_get (vertex_dict g) vertex_id.

(** A method call on the vertex object stored under [key]: the object is
    updated in place, so later reads through the graph see the change. *)
Definition call_on (g : t) (key : vid)
    (method : WeightedVertex -> WeightedVertex) : t :=
  match dict_get (vertex_dict g) key with
  | Some obj => mk (dict_set (vertex_dict g) key (method obj)) (is_directed g)
  | None => g
  end.

(** [add_edge] returns [False] (here [Some false]) when an endpoint is
    missing and [None] otherwise.  With [vertex_id1 = vertex_id2] both
    names denote one object, which the second call finds already updated. *)
Definition add_edge (g : t) (vertex_id1 vertex_id2 : vid) (weight : Z)
    : option bool * t :=
  if negb (dict_has (vertex_dict g) vertex_id1)
     || negb (dict_has (vertex_dict g) vertex_id2)
  then (Some false, g)
  else
    match get_vertex g vertex_id1, get_vertex g vertex_id2 with
    | Some vertex_obj1, Some vertex_obj2 =>
        let g1 :=
          call_on g vertex_id1 (fun o => add_neighbor o (id vertex_obj2) weight)
        in
        if negb (is_directed g) then
          (None,
           call_on g1 vertex_id2
             (fun o => add_neighbor o (id vertex_obj1) weight))
        else (None, g1)
    | _, _ => (Some false, g)
    end.

Definition get_vertices (g : t) : list WeightedVertex :=
  dict_values (vertex_dict g).

(** *** Union-find over a [parent_map] *)

Fixpoint find (fuel : nat) (parent_map : dict vid) (vertex_id : vid)
    : result vid :=
  match fuel with
  | O => OutOfFuel
  | S fuel' =>
      p <- dict_at parent_map vertex_id ;;
      if String.eqb p vertex_id then Ok vertex_id
      else find fuel' parent_map p
  end.

(** A chain of parents without a repeat is no longer than the map. *)
Definition find_fuel (parent_map : dict vid) : nat := S (length parent_map).

Definition union (parent_map : dict vid) (vertex_id1 vertex_id2 : vid)
    : result (dict vid) :=
  vertex1_root <- find (find_fuel parent_map) parent_map vertex_id1 ;;
  vertex2_root <- find (find_fuel parent_map) parent_map vertex_id2 ;;
  Ok (dict_set parent_map vertex1_root vertex2_root).

(** *** [minimum_spanning_tree_kruskal] *)

Definition edge : Type := vid * vid * Z.
Definition edge_weight (e : edge) : Z := snd e.

Definition all_edges (g : t) : list edge :=
  flat_map
    (fun vertex =>
       map (fun '(neighbor_id, neighbor_weight) =>
              (id vertex, neighbor_id, neighbor_weight))
           (get_neighbors_with_weights vertex))
    (get_vertices g).

(** [edges.sort(key=lambda edge: edge[2])]: Python's sort is stable, and a
    stable sort is determined by its input; this is insertion sort. *)
Fixpoint insert_edge (e : edge) (l : list edge) : list edge :=
  match l with
  | [] => [e]
  | e' :: l' =>
      if (edge_weight e <=? edge_weight e')%Z then e :: l
      else e' :: insert_edge e l'
  end.

Definition sort_edges (l : list edge) : list edge :=
  fold_right insert_edge [] l.

(** [{vertext.id: vertext.id for vertext in self.get_vertices()}] *)
Definition initial_parent_map (g : t) : dict vid :=
  fold_left (fun d vertext => dict_set d (id vertext) (id vertext))
    (get_vertices g) [].

(** The [while len(spanning_tree) < len(self.vertex_dict)-1] loop;
    [edges.pop(0)] on an empty list raises [IndexError]. *)
Fixpoint kruskal_loop (g : t) (edges : list edge) (parent_map : dict vid)
    (spanning_tree : list edge) : result (list edge) :=
  if (Z.of_nat (length spanning_tree)
      <? Z.of_nat (length (vertex_dict g)) - 1)%Z
  then
    match edges with
    | [] => Raise IndexError
    | smallest_edge :: edges' =>
        let '(e0, e1, _) := smallest_edge in
        vertex1_root <- find (find_fuel parent_map) parent_map e0 ;;
        vertex2_root <- find (find_fuel parent_map) parent_map e1 ;;
        if negb (String.eqb vertex1_root vertex2_root) then
          parent_map' <- union parent_map e0 e1 ;;
          kruskal_loop g edges' parent_map' (spanning_tree ++ [smallest_edge])
        else kruskal_loop g edges' parent_map spanning_tree
    end
  else Ok spanning_tree.

Definition minimum_spanning_tree_kruskal (g : t) : result (list edge) :=
  kruskal_loop g (sort_edges (all_edges g)) (initial_parent_map g) [].

(** *** [get_smallest_vetext] *)

Fixpoint smallest_scan (ks : list vid) (vertex_to : dict num)
    (smallest_vertex_id : vid) : result vid :=
  match ks with
  | [] => Ok smallest_vertex_id
  | vertex_id :: ks' =>
      a <- dict_at vertex_to vertex_id ;;
      b <- dict_at vertex_to smallest_vertex_id ;;
      smallest_scan ks' vertex_to
        (if num_ltb a b then vertex_id else smallest_vertex_id)
  end.

Definition get_smallest_vetext (vertex_to : dict num) : result vid :=
  match dict_keys vertex_to with
  | [] => Raise IndexError
  | first :: _ => smallest_scan (dict_keys vertex_to) vertex_to first
  end.

(** *** [minimum_spanning_tree_prim] *)

Fixpoint prim_relax (nbrs : list (vid * Z)) (vertex_to_weight : dict num)
    : dict num :=
  match nbrs with
  | [] => vertex_to_weight
  | (neighbor_id, neighbor_weight) :: nbrs' =>
      prim_relax nbrs'
        (match dict_get vertex_to_weight neighbor_id with
         | Some old =>
             if num_ltb (Fin neighbor_weight) old
             then dict_set vertex_to_weight neighbor_id (Fin neighbor_weight)
             else vertex_to_weight
         | None => vertex_to_weight
         end)
  end.

Fixpoint prim_loop (fuel : nat) (g : t) (vertex_to_weight : dict num)
    (total_mst_weight : num) : result num :=
  match vertex_to_weight with
  | [] => Ok total_mst_weight
  | _ :: _ =>
      match fuel with
      | O => OutOfFuel
      | S fuel' =>
          smallest_vertex_id <- get_smallest_vetext vertex_to_weight ;;
          w <- dict_at vertex_to_weight smallest_vertex_id ;;
          smallest_vertex <- dict_at (vertex_dict g) smallest_vertex_id ;;
          prim_loop fuel' g
            (prim_relax (get_neighbors_with_weights smallest_vertex)
               (dict_del vertex_to_weight smallest_vertex_id))
            (num_add total_mst_weight w)
      end
  end.

Definition minimum_spanning_tree_prim (g : t) : result num :=
  let vertex_to_weight :=
    fold_left (fun d vertex => dict_set d (id vertex) Inf) (get_vertices g) []
  in
  match get_vertices g with
  | [] => Raise IndexError
  | first :: _ =>
      prim_loop (length vertex_to_weight) g
        (dict_set vertex_to_weight (id first) (Fin 0)) (Fin 0)
  end.

(** *** [find_shortest_path] *)

Fixpoint dijkstra_relax (nbrs : list (vid * Z)) (smallest_vertex_id : vid)
    (vertex_to_distance : dict num) : result (dict num) :=
  match nbrs with
  | [] => Ok vertex_to_distance
  | (neighbor_id, neighbor_weight) :: nbrs' =>
      match dict_get vertex_to_distance neighbor_id with
      | Some old =>
          if num_ltb (Fin neighbor_weight) old then
            d <- dict_at vertex_to_distance smallest_vertex_id ;;
            dijkstra_relax nbrs' smallest_vertex_id
              (dict_set vertex_to_distance neighbor_id
                 (num_add (Fin neighbor_weight) d))
          else dijkstra_relax nbrs' smallest_vertex_id vertex_to_distance
      | None => dijkstra_relax nbrs' smallest_vertex_id vertex_to_distance
      end
  end.

(** Falling off the [while] loop returns [None]. *)
Fixpoint dijkstra_loop (fuel : nat) (g : t) (target_id : vid)
    (vertex_to_distance : dict num) : result (option num) :=
  match vertex_to_distance with
  | [] => Ok None
  | _ :: _ =>
      match fuel with
      | O => OutOfFuel
      | S fuel' =>
          smallest_vertex_id <- get_smallest_vetext vertex_to_distance ;;
          if String.eqb smallest_vertex_id target_id then
            d <- dict_at vertex_to_distance target_id ;;
            Ok (Some d)
          else
            smallest_vertex <- dict_at (vertex_dict g) smallest_vertex_id ;;
            vertex_to_distance' <-
              dijkstra_relax (get_neighbors_with_weights smallest_vertex)
                smallest_vertex_id vertex_to_distance ;;
            dijkstra_loop fuel' g target_id
              (dict_del vertex_to_distance' smallest_vertex_id)
      end
  end.

Definition find_shortest_path (g : t) (start_id target_id : vid)
    : result (option num) :=
  let vertex_to_distance :=
    fold_left (fun d vertex_id => dict_set d vertex_id Inf)
      (dict_keys (vertex_dict g)) []
  in
  let vertex_to_distance := dict_set vertex_to_distance start_id (Fin 0) in
  dijkstra_loop (length vertex_to_distance) g target_id vertex_to_distance.

(** *** [floyd_warshall] *)

(** A dict comprehension [{key: value for x in items}]; for each item the
    key expression is evaluated before the value expression (the order of
    Python 3.8 and later). *)
Fixpoint dict_comprehension {V} (items : list vid) (key : vid -> result vid)
    (value : vid -> result V) (acc : dict V) : result (dict V) :=
  match items with
  | [] => Ok acc
  | x :: items' =>
      k <- key x ;;
      v <- value x ;;
      dict_comprehension items' key value (dict_set acc k v)
  end.

(** The table is built by
    [{vertex.id: {vertext.id: INF for vertex in D} for vertext in D}]
    with [D = self.vertex_dict], whose iteration yields the ids (strings).
    - The outer comprehension binds [vertext] only.  Its key expression
      reads the name [vertex], which only the inner comprehension binds, in
      a scope of its own; neither the method nor the module binds it, so
      the read raises [NameError].
    - The key expression of the inner comprehension reads the attribute
      [id] of the string [vertext], which raises [AttributeError]. *)
Definition fw_outer_key (vertext : vid) : result vid := Raise NameError.

Definition fw_inner_key (vertext vertex : vid) : result vid :=
  Raise AttributeError.

Definition fw_init (g : t) : result (dict (dict num)) :=
  dict_comprehension (dict_keys (vertex_dict g)) fw_outer_key
    (fun vertext =>
       dict_comprehension (dict_keys (vertex_dict g)) (fw_inner_key vertext)
         (fun _ => Ok Inf) [])
    [].

(** [min(a, b)] is [a] unless [b < a]. *)
Definition num_min (a b : num) : num := if num_ltb b a then b else a.

(** [dist[i][j] = min(dist[i][j], dist[i][k] + dist[k][j])] *)
Definition fw_step (dist : dict (dict num)) (k i j : vid)
    : result (dict (dict num)) :=
  di <- dict_at dist i ;;
  dij <- dict_at di j ;;
  dik <- dict_at di k ;;
  dk <- dict_at dist k ;;
  dkj <- dict_at dk j ;;
  Ok (dict_set dist i (dict_set di j (num_min dij (num_add dik dkj)))).

Fixpoint fw_for (ks : list vid)
    (body : vid -> dict (dict num) -> result (dict (dict num)))
    (dist : dict (dict num)) : result (dict (dict num)) :=
  match ks with
  | [] => Ok dist
  | x :: ks' => dist' <- body x dist ;; fw_for ks' body dist'
  end.

Definition floyd_warshall (g : t) : result (dict (dict num)) :=
  dist <- fw_init g ;;
  let ks := dict_keys dist in
  fw_for ks
    (fun k => fw_for ks (fun i => fw_for ks (fun j d => fw_step d k i j)))
    dist.

End WeightedGraph.

(** ** Building graphs the way a caller does *)

Definition build_graph (directed : bool) (vertices : list vid)
    (edges : list (vid * vid)) : result Graph.t :=
  fold_left
    (fun r '(a, b) => g <- r ;; Graph.add_edge g a b)
    edges
    (Ok (fold_left Graph.add_vertex vertices (Graph.init directed))).

Definition build_weighted (directed : bool) (vertices : list vid)
    (edges : list (vid * vid * Z)) : WeightedGraph.t :=
  fold_left
    (fun g '(a, b, w) => snd (WeightedGraph.add_edge g a b w))
    edges
    (fold_left (fun g v => snd (WeightedGraph.add_vertex g v)) vertices
       (WeightedGraph.init directed)).

(** Graphs reachable from the constructor of an undirected weighted graph
    through the two insertion operations. *)
Inductive built_undirected : WeightedGraph.t -> Prop :=
| built_init : built_undirected (WeightedGraph.init false)
| built_add_vertex g v :
    built_undirected g ->
    built_undirected (snd (WeightedGraph.add_vertex g v))
| built_add_edge g u v w :
    built_undirected g ->
    built_undirected (snd (WeightedGraph.add_edge g u v w)).

(** The weight under which [v] is recorded in the neighbour map of [u]. *)
Definition neighbor_weight (g : WeightedGraph.t) (u v : vid) : option Z :=
  match dict_get (WeightedGraph.vertex_dict g) u with
  | Some o => dict_get (WeightedGraph.neighbors_dict o) v
  | None => None
  end.

Definition symmetric (g : WeightedGraph.t) : Prop :=
  forall u v, neighbor_weight g u v = neighbor_weight g v u.

(** Every vertex object sits under its own id. *)
Definition self_keyed (g : WeightedGraph.t) : Prop :=
  forall k o, dict_get (WeightedGraph.vertex_dict g) k = Some o ->
              WeightedGraph.id o = k.

(** The vertices whose stored list mentions [start_id], in key order. *)
Definition pointing_at (vd : dict (list vid)) (start_id : vid) : list vid :=
  filter
    (fun v => match dict_get vd v with
              | Some l => py_in start_id l
              | None => false
              end)
    (dict_keys vd).

(** ** Sample graphs *)
Local Open Scope string_scope.
Local Open Scope list_scope.

Definition wg_single : WeightedGraph.t := build_weighted true ["A"] [].

Definition wg_triangle : WeightedGraph.t :=
  build_weighted true ["A"; "B"; "C"]
    [("A", "B", 1%Z); ("B", "C", 2%Z); ("A", "C", 5%Z)].

Definition wg_detour : WeightedGraph.t :=
  build_weighted true ["A"; "B"; "C"]
    [("A", "B", 3%Z); ("A", "C", 4%Z); ("B", "C", 2%Z)].

Definition wg_pair : WeightedGraph.t :=
  build_weighted false ["A"; "B"] [("A", "B", 7%Z)].

(** The directed triangle A -> B -> C -> A. *)
Definition g_cycle3 : Graph.t :=
  Graph.mk [("A", ["B"]); ("B", ["C"]); ("C", ["A"])] true.

(** A two-cycle A <-> B and a vertex C apart from it. *)
Definition g_hidden_cycle : Graph.t :=
  Graph.mk [("A", ["B"]); ("B", ["A"]); ("C", [])] true.

(** Outcomes whose only exception is [KeyError]. *)
Definition only_key_error {A} (r : result A) : Prop :=
  forall e, r = Raise e -> e = KeyError.

(** ** Vocabulary for the traversals of [Graph] *)

(** Every stored neighbour id is itself a vertex of the graph. *)
Definition closed (g : Graph.t) : Prop :=
  forall k l x,
    dict_get (Graph.vertex_dict g) k = Some l -> In x l ->
    In x (dict_keys (Graph.vertex_dict g)).

(** [v] is a neighbour of [u], as [get_neighbors] reports it. *)
Definition adjacent (g : Graph.t) (u v : vid) : Prop :=
  exists ns, Graph.get_neighbors g u = Ok ns /\ In v ns.

Inductive reachable (g : Graph.t) (s : vid) : vid -> Prop :=
| reach_refl : reachable g s s
| reach_step u v : reachable g s u -> adjacent g u v -> reachable g s v.

(** A vertex A with an edge to an id that was never added, and one to B. *)
Definition g_dangling : Graph.t :=
  Graph.mk [("A", ["Z"; "B"]); ("B", [])] true.

(** [closed], decided. *)
Definition closedb (g : Graph.t) : bool :=
  forallb
    (fun kl => forallb (fun x => py_in x (dict_keys (Graph.vertex_dict g)))
                 (snd kl))
    (Graph.vertex_dict g).

(** The undirected line A - B - C - D, stored as A->B, B->C, C->D. *)
Definition g_line (directed : bool) : Graph.t :=
  Graph.mk [("A", ["B"]); ("B", ["C"]); ("C", ["D"]); ("D", [])] directed.

(** Consecutive vertices of [p] are neighbours. *)
Fixpoint chain (g : Graph.t) (p : list vid) : Prop :=
  match p with
  | x :: ((y :: _) as p') => adjacent g x y /\ chain g p'
  | _ => True
  end.

(** [p] is the vertex sequence of a path from [s] to [t]. *)
Definition path_between (g : Graph.t) (s t : vid) (p : list vid) : Prop :=
  hd_error p = Some s /\ last p s = t /\ chain g p.

(** The same, grown at the far end, the way the search extends a path. *)
Inductive walk (g : Graph.t) (s : vid) : vid -> list vid -> Prop :=
| walk_start : walk g s s [s]
| walk_snoc u v p : walk g s u p -> adjacent g u v -> walk g s v (p ++ [v]).

(** Length of the path recorded for [x], if any. *)
Definition plen (pd : dict (list vid)) (x : vid) : nat :=
  match dict_get pd x with Some p => length p | None => 0 end.

(** The state of the search of [find_shortest_path] between two rounds of
    its loop; [out] lists the vertices already taken from the queue. *)
Record sp_inv (g : Graph.t) (s : vid) (pd : dict (list vid))
    (queue out : list vid) : Prop := {
  sp_keys : dict_keys pd = out ++ queue;
  sp_nodup : NoDup (dict_keys pd);
  sp_known : incl (dict_keys pd) (dict_keys (Graph.vertex_dict g));
  sp_start : In s (dict_keys pd);
  sp_walk : forall v p, dict_get pd v = Some p -> walk g s v p;
  sp_layers :
    exists A B d,
      queue = A ++ B
      /\ (forall x, In x A -> plen pd x = d)
      /\ (forall x, In x B -> plen pd x = S d);
  sp_done : forall u v, In u out -> adjacent g u v -> In v (dict_keys pd);
  sp_best :
    forall v p q, dict_get pd v = Some p -> walk g s v q ->
                  length p <= length q
}.

(** The directed graph with the single edge A -> B. *)
Definition g_arrow : Graph.t := Graph.mk [("A", ["B"]); ("B", [])] true.

(** No vertex lies in two of the lists. *)
Definition pairwise_disjoint (cs : list (list vid)) : Prop :=
  ForallOrdPairs (fun c1 c2 => forall v, In v c1 -> ~ In v c2) cs.

(** ** Vocabulary for spanning trees of a weighted graph *)

(** [a] and [b] are the endpoints of an edge record of [T], either way. *)
Definition link (T : list WeightedGraph.edge) (a b : vid) : Prop :=
  exists w, In (a, b, w) T \/ In (b, a, w) T.

Inductive conn (T : list WeightedGraph.edge) (x : vid) : vid -> Prop :=
| conn_refl : conn T x x
| conn_step y z : conn T x y -> link T y z -> conn T x z.

(** Consecutive vertices of [p] are linked in [T]. *)
Fixpoint chainT (T : list WeightedGraph.edge) (p : list vid) : Prop :=
  match p with
  | x :: ((y :: _) as p') => link T x y /\ chainT T p'
  | _ => True
  end.

Definition total_weight (T : list WeightedGraph.edge) : Z :=
  fold_right (fun e acc => (WeightedGraph.edge_weight e + acc)%Z) 0%Z T.

(** [T] is a spanning tree of the graph with vertices [V] and edge records
    [E]: it connects all of [V] with one edge less than there are
    vertices. *)
Definition spanning (V : list vid) (E T : list WeightedGraph.edge) : Prop :=
  incl T E
  /\ S (length T) = length V
  /\ forall x y, In x V -> In y V -> conn T x y.

(** The edges chosen so far can be completed to a spanning tree that is
    no heavier than any given one. *)
Definition mst_inv (V : list vid) (E A : list WeightedGraph.edge) : Prop :=
  forall T, spanning V E T ->
    exists R, spanning V E (A ++ R)
              /\ (total_weight (A ++ R) <= total_weight T)%Z.

(** ** Vocabulary for the union-find structure of Kruskal's algorithm *)

(** [r] is where the parent pointers lead from [x]. *)
Inductive root_of (pm : dict vid) : vid -> vid -> Prop :=
| root_self x : dict_get pm x = Some x -> root_of pm x x
| root_up x p r :
    dict_get pm x = Some p -> p <> x -> root_of pm p r -> root_of pm x r.

Definition nroots (pm : dict vid) : nat :=
  length (filter (fun kp => String.eqb (snd kp) (fst kp)) pm).

(** The parent map [pm] represents the components of the chosen edges [A]
    over the vertices [V]. *)
Record uf_inv (V : list vid) (pm : dict vid)
    (A : list WeightedGraph.edge) : Prop := {
  uf_keys : dict_keys pm = V;
  uf_rank :
    exists h : vid -> nat,
      forall x p, dict_get pm x = Some p ->
        In p V /\ h x <= length A
        /\ (p = x /\ h x = 0 \/ p <> x /\ h p < h x);
  uf_sound : forall x y r, root_of pm x r -> root_of pm y r -> conn A x y;
  uf_complete :
    forall x y, conn A x y ->
                x = y \/ exists r, root_of pm x r /\ root_of pm y r;
  uf_count : nroots pm + length A = length V
}.

(** A weighted graph as the insertion operations leave it. *)
Record wg_wf (g : WeightedGraph.t) : Prop := {
  wf_keys : NoDup (dict_keys (WeightedGraph.vertex_dict g));
  wf_self : self_keyed g;
  wf_nbr_keys :
    forall k o, dict_get (WeightedGraph.vertex_dict g) k = Some o ->
                NoDup (dict_keys (WeightedGraph.neighbors_dict o));
  wf_known :
    forall k o n, dict_get (WeightedGraph.vertex_dict g) k = Some o ->
                  In n (dict_keys (WeightedGraph.neighbors_dict o)) ->
                  In n (dict_keys (WeightedGraph.vertex_dict g));
  wf_sym : symmetric g
}.

(** Any two vertices are joined by edges of the graph. *)
Definition joined (g : WeightedGraph.t) : Prop :=
  forall x y,
    In x (dict_keys (WeightedGraph.vertex_dict g)) ->
    In y (dict_keys (WeightedGraph.vertex_dict g)) ->
    conn (WeightedGraph.all_edges g) x y.

(** A connected graph has a vertex, and any two of its vertices are joined
    (a graph without vertices has no spanning tree to speak of). *)
Definition connected (g : WeightedGraph.t) : Prop :=
  WeightedGraph.vertex_dict g <> [] /\ joined g.

(** The square A - B - C - D - A of the specification. *)
Definition wg_square : WeightedGraph.t :=
  build_weighted false ["A"; "B"; "C"; "D"]
    [("A", "B", 1%Z); ("B", "C", 2%Z); ("C", "D", 3%Z); ("A", "D", 4%Z)].

(** Edge records in ascending order of weight. *)
Definition by_weight (l : list WeightedGraph.edge) : Prop :=
  StronglySorted
    (fun a b => (WeightedGraph.edge_weight a <= WeightedGraph.edge_weight b)%Z)
    l.

(** The state of the loop of [minimum_spanning_tree_kruskal]; [processed]
    lists the edges already taken from [remaining]. *)
Record kruskal_inv (V : list vid) (E processed remaining : list WeightedGraph.edge)
    (pm : dict vid) (A : list WeightedGraph.edge) : Prop := {
  kr_uf : uf_inv V pm A;
  kr_all : forall f, In f E -> In f processed \/ In f remaining;
  kr_rem : incl remaining E;
  kr_sorted : by_weight remaining;
  kr_done : forall a b w, In (a, b, w) processed -> conn A a b;
  kr_mst : mst_inv V E A
}.

(** ** Vocabulary for Prim's algorithm *)

(** The key recorded for [k]. *)
Definition wt (d : dict num) (k : vid) : num :=
  match dict_get d k with Some n => n | None => Inf end.

Definition num_le (a b : num) : Prop := num_ltb b a = false.

(** The state of the loop of [minimum_spanning_tree_prim] after its first
    round: [visited] lists the vertices taken out of [vtw] so far, from
    [start] on, and [A] the edges by which they were reached. *)
Record prim_inv (V : list vid) (E : list WeightedGraph.edge) (start : vid)
    (visited : list vid) (vtw : dict num) (total : num)
    (A : list WeightedGraph.edge) : Prop := {
  pi_split : Permutation (visited ++ dict_keys vtw) V;
  pi_start : In start visited;
  pi_fin :
    forall v w, dict_get vtw v = Some (Fin w) ->
                exists u, In u visited /\ In (u, v, w) E;
  pi_min :
    forall u v w, In u visited -> In v (dict_keys vtw) -> In (u, v, w) E ->
                  exists w', dict_get vtw v = Some (Fin w') /\ (w' <= w)%Z;
  pi_tree : forall a b w, In (a, b, w) A -> In a visited /\ In b visited;
  pi_conn : forall x, In x visited -> conn A start x;
  pi_size : S (length A) = length visited;
  pi_total : total = Fin (total_weight A);
  pi_sub : incl A E;
  pi_mst : mst_inv V E A
}.

(** The part of well-formedness that concerns keys. *)
Definition keys_ok (g : WeightedGraph.t) : Prop :=
  NoDup (dict_keys (WeightedGraph.vertex_dict g))
  /\ (forall k o, dict_get (WeightedGraph.vertex_dict g) k = Some o ->
                  NoDup (dict_keys (WeightedGraph.neighbors_dict o)))
  /\ (forall k o n, dict_get (WeightedGraph.vertex_dict g) k = Some o ->
                    In n (dict_keys (WeightedGraph.neighbors_dict o)) ->
                    In n (dict_keys (WeightedGraph.vertex_dict g))).

(** [self_keyed], decided. *)
Definition self_keyedb (g : WeightedGraph.t) : bool :=
  forallb (fun ko => String.eqb (WeightedGraph.id (snd ko)) (fst ko))
    (WeightedGraph.vertex_dict g).

(** ** Vocabulary for [is_bipartite] *)

(** [c] gives the two ends of every edge different colours. *)
Definition proper (g : Graph.t) (c : vid -> bool) : Prop :=
  forall u v, adjacent g u v -> c u <> c v.

(** The colour recorded for [v], [true] when there is none. *)
Definition color_of (vertex_colors : dict bool) (v : vid) : bool :=
  match dict_get vertex_colors v with Some b => b | None => true end.

(** The state of [is_bipartite] between two rounds of its loop: the colours
    given so far are forced on every proper colouring, up to the colour of
    the start, and the vertices taken from the queue have been compared
    with all their neighbours. *)
Record bip_inv (g : Graph.t) (s : vid) (vertex_colors : dict bool)
    (queue out : list vid) : Prop := {
  bip_keys : dict_keys vertex_colors = out ++ queue;
  bip_nodup : NoDup (dict_keys vertex_colors);
  bip_known : incl (dict_keys vertex_colors) (dict_keys (Graph.vertex_dict g));
  bip_start : In s (dict_keys vertex_colors);
  bip_forced :
    forall c, proper g c ->
    forall v b, dict_get vertex_colors v = Some b ->
                c v = Bool.eqb b (c s);
  bip_checked :
    forall u v, In u out -> adjacent g u v ->
    In v (dict_keys vertex_colors)
    /\ color_of vertex_colors u <> color_of vertex_colors v
}.

(** ** Vocabulary for the weighted [find_shortest_path] *)

(** A walk along stored edges from [s], with the sum of its weights; a new
    edge is added in front of the sum, as the relaxation does. *)
Inductive wwalk (g : WeightedGraph.t) (s : vid) : vid -> Z -> Prop :=
| wwalk_start : wwalk g s s 0%Z
| wwalk_edge u o v x d :
    wwalk g s u d ->
    dict_get (WeightedGraph.vertex_dict g) u = Some o ->
    In (v, x) (WeightedGraph.get_neighbors_with_weights o) ->
    wwalk g s v (x + d)%Z.

(** [x] has a distance on record that is not infinite. *)
Definition finite_at (vertex_to_distance : dict num) (x : vid) : Prop :=
  exists z, dict_get vertex_to_distance x = Some (Fin z).

(** The state of the weighted [find_shortest_path] between two rounds of
    its loop; [done] lists the vertices removed with a finite distance. *)
Record dij_inv (g : WeightedGraph.t) (s : vid) (vertex_to_distance : dict num)
    (done : list vid) : Prop := {
  dij_nodup : NoDup (dict_keys vertex_to_distance);
  dij_known :
    incl (dict_keys vertex_to_distance)
      (dict_keys (WeightedGraph.vertex_dict g));
  dij_sound :
    forall x d, dict_get vertex_to_distance x = Some (Fin d) -> wwalk g s x d;
  dij_start : In s done \/ finite_at vertex_to_distance s;
  dij_closed :
    forall u o v x,
      In u done ->
      dict_get (WeightedGraph.vertex_dict g) u = Some o ->
      In (v, x) (WeightedGraph.get_neighbors_with_weights o) ->
      In v (dict_keys (WeightedGraph.vertex_dict g)) ->
      In v done \/ finite_at vertex_to_distance v;
  dij_apart : forall u, In u done -> ~ In u (dict_keys vertex_to_distance);
  dij_phase :
    (forall x, In x (dict_keys (WeightedGraph.vertex_dict g)) ->
               In x (dict_keys vertex_to_distance) \/ In x done)
    \/ (forall x, ~ finite_at vertex_to_distance x)
}.

(** ** Vocabulary for [contains_cycle] and [topological_sort] *)

(** No edge leads back to where a walk to its source can start. *)
Definition acyclic (g : Graph.t) : Prop :=
  forall u v, adjacent g u v -> ~ reachable g v u.

(** In [stack] every neighbour of a vertex stands before the vertex. *)
Definition ordered (g : Graph.t) (stack : list vid) : Prop :=
  forall l1 u l2, stack = l1 ++ u :: l2 ->
  forall w, adjacent g u w -> In w l1.

(** The [for neighbor] loop of the recursive helper of [contains_cycle],
    with the recursive call as a parameter. *)
Definition cyc_scan
    (rec : vid -> list vid * list vid -> result (bool * (list vid * list vid)))
    (start_vertex : vid)
    : list vid -> bool -> list vid * list vid ->
      result (bool * (list vid * list vid)) :=
  fix scan (ns : list vid) (contains_cycle : bool)
      (st : list vid * list vid) {struct ns} :=
    let '(not_visited, current_path) := st in
    match ns with
    | [] =>
        current_path' <- Graph.set_remove start_vertex current_path ;;
        Ok (contains_cycle, (not_visited, current_path'))
    | neighbor :: ns' =>
        if py_in neighbor not_visited then
          '(b, st') <- rec neighbor
                         (list_remove neighbor not_visited,
                          Graph.set_add neighbor current_path) ;;
          scan ns' b st'
        else if py_in neighbor current_path then Ok (true, st)
        else scan ns' contains_cycle st
    end.

(** The same for the helper of [topological_sort]. *)
Definition ts_scan
    (rec : vid -> list vid * list vid -> result (list vid * list vid))
    : list vid -> list vid * list vid -> result (list vid * list vid) :=
  fix scan (ns : list vid) (st : list vid * list vid) {struct ns} :=
    match ns with
    | [] => Ok st
    | neighbor :: ns' =>
        let '(not_visited, stack) := st in
        if py_in neighbor not_visited then
          st' <- rec neighbor (list_remove neighbor not_visited, stack) ;;
          scan ns' st'
        else scan ns' st
    end.

(** * Properties *)

(** ** Dictionaries *)

Lemma dict_get_set_same {V} (d : dict V) k v :
  dict_get (dict_set d k v) k = Some v.
Proof.
  induction d as [|[k' v'] d IH]; simpl.
  - now rewrite String.eqb_refl.
  - destruct (String.eqb k k') eqn:E; simpl; rewrite E; auto.
Qed.

Lemma dict_get_set_other {V} (d : dict V) k k' v :
  k' <> k -> dict_get (dict_set d k v) k' = dict_get d k'.
Proof.
  intros Hne. induction d as [|[k0 v0] d IH]; simpl.
  - destruct (String.eqb_spec k' k); congruence.
  - destruct (String.eqb_spec k k0) as [->|]; simpl.
    + destruct (String.eqb_spec k' k0); congruence.
    + destruct (String.eqb_spec k' k0); auto.
Qed.

Lemma dict_get_set {V} (d : dict V) k k' v :
  dict_get (dict_set d k v) k' =
  if String.eqb k' k then Some v else dict_get d k'.
Proof.
  destruct (String.eqb_spec k' k) as [->|Hne].
  - apply dict_get_set_same.
  - now apply dict_get_set_other.
Qed.

Lemma dict_keys_set_present {V} (d : dict V) k v v0 :
  dict_get d k = Some v0 -> dict_keys (dict_set d k v) = dict_keys d.
Proof.
  induction d as [|[k' v'] d IH]; simpl; [discriminate|].
  destruct (String.eqb_spec k k') as [->|]; simpl; intros H; auto.
  f_equal. now apply IH.
Qed.

Lemma dict_get_in_keys {V} (d : dict V) k :
  In k (dict_keys d) <-> dict_get d k <> None.
Proof.
  induction d as [|[k' v'] d IH]; simpl.
  - tauto.
  - destruct (String.eqb_spec k k') as [->|Hne].
    + split; [discriminate|auto].
    + rewrite <- IH. split; [intros [?|?]; [congruence|auto]|auto].
Qed.

Lemma py_in_spec x l : py_in x l = true <-> In x l.
Proof.
  unfold py_in. rewrite existsb_exists. split.
  - intros (y & Hy & E). apply String.eqb_eq in E. now subst.
  - intros H. exists x. split; auto. apply String.eqb_refl.
Qed.

Lemma py_in_false x l : py_in x l = false <-> ~ In x l.
Proof.
  rewrite <- py_in_spec. destruct (py_in x l); split; congruence.
Qed.

(** ** Evaluations on the weighted graph *)

(** C1: on every graph with at least one vertex [floyd_warshall] raises
    while it builds its table and returns no mapping at all (the table of
    infinities the method sets out to build is never produced); only on the
    graph without vertices does it return, with the empty mapping. *)
Theorem floyd_warshall_raises :
  forall g,
    WeightedGraph.floyd_warshall g =
    match WeightedGraph.vertex_dict g with
    | [] => Ok []
    | _ :: _ => Raise NameError
    end
  /\ WeightedGraph.floyd_warshall wg_single = Raise NameError.
Proof.
  intros g. split; [|reflexivity].
  unfold WeightedGraph.floyd_warshall, WeightedGraph.fw_init.
  destruct (WeightedGraph.vertex_dict g) as [|[k v] d]; reflexivity.
Qed.

(** C2: on the graph of the specification, [find_shortest_path] returns 3;
    but the guard of the relaxation compares the bare edge weight with the
    recorded distance, so on A-3->B, A-4->C, B-2->C the recorded distance 4
    of C is overwritten by 2 + 3 and the call returns 5, although the edge
    A->C alone is a path of weight 4. *)
Theorem dijkstra_guard_ignores_distance :
  WeightedGraph.find_shortest_path wg_triangle "A" "C" = Ok (Some (Fin 3))
  /\ WeightedGraph.find_shortest_path wg_detour "A" "C" = Ok (Some (Fin 5))
  /\ neighbor_weight wg_detour "A" "C" = Some 4%Z.
Proof. repeat split; vm_compute; reflexivity. Qed.

(** ** The empty unweighted graph *)

(** C10: on a graph without vertices [is_bipartite] raises [IndexError],
    whatever the direction flag, and so returns no boolean. *)
Theorem is_bipartite_empty_raises :
  forall directed,
    Graph.is_bipartite (Graph.init directed) = Raise IndexError
    /\ forall b, Graph.is_bipartite (Graph.init directed) <> Ok b.
Proof.
  intros directed. split; [reflexivity|]. intros b. discriminate.
Qed.

(** ** [get_neighbors] *)

Lemma reverse_neighbors_filter vd start_id ks acc :
  incl ks (dict_keys vd) ->
  Graph.reverse_neighbors vd ks start_id acc =
  Ok (acc ++ filter
        (fun v => match dict_get vd v with
                  | Some l => py_in start_id l
                  | None => false
                  end) ks).
Proof.
  revert acc. induction ks as [|k ks IH]; intros acc Hincl; simpl.
  - now rewrite app_nil_r.
  - assert (Hk : In k (dict_keys vd)) by (apply Hincl; now left).
    apply dict_get_in_keys in Hk. unfold dict_at.
    destruct (dict_get vd k) as [l|] eqn:E; [|congruence]. simpl.
    rewrite IH by (intros x Hx; apply Hincl; now right).
    destruct (py_in start_id l); [now rewrite <- app_assoc | reflexivity].
Qed.

Lemma get_neighbors_present g start_id l :
  dict_get (Graph.vertex_dict g) start_id = Some l ->
  Graph.get_neighbors g start_id =
  Ok (if Graph.is_directed g then l
      else pointing_at (Graph.vertex_dict g) start_id ++ l).
Proof.
  intros Hl. unfold Graph.get_neighbors, dict_at.
  destruct (Graph.is_directed g).
  - now rewrite Hl.
  - rewrite reverse_neighbors_filter by apply incl_refl.
    simpl. now rewrite Hl.
Qed.

(** C8: for a vertex present in the graph, a directed graph answers with
    the stored list itself, an undirected one with the vertices whose
    stored list mentions the vertex, in key order, followed by the stored
    list.  The operation reads the store only: its embedding has no store
    among its results. *)
Theorem get_neighbors_spec :
  forall g start_id l,
    dict_get (Graph.vertex_dict g) start_id = Some l ->
    Graph.get_neighbors g start_id =
    Ok (if Graph.is_directed g then l
        else pointing_at (Graph.vertex_dict g) start_id ++ l).
Proof. exact get_neighbors_present. Qed.

Lemma get_neighbors_spec_witness :
  exists g, Graph.is_directed g = false /\
    Graph.get_neighbors g "B" = Ok (["A"] ++ []).
Proof.
  exists (Graph.mk [("A", ["B"]); ("B", [])] false). split; [reflexivity|].
  exact (get_neighbors_spec (Graph.mk [("A", ["B"]); ("B", [])] false)
           "B" [] eq_refl).
Defined.

(** ** Symmetry of the neighbour maps of an undirected weighted graph *)

Section NeighborMaps.
Import WeightedGraph.

Lemma neighbor_weight_call_on g k o x w a b :
  dict_get (vertex_dict g) k = Some o ->
  neighbor_weight (call_on g k (fun o => add_neighbor o x w)) a b =
  if String.eqb a k && String.eqb b x
     && match neighbor_weight g k x with None => true | Some _ => false end
  then Some w else neighbor_weight g a b.
Proof.
  intros Hk. unfold neighbor_weight at 1 3, call_on. rewrite Hk. simpl.
  rewrite dict_get_set.
  destruct (String.eqb_spec a k) as [->|Hak]; simpl.
  - unfold neighbor_weight. rewrite Hk. unfold add_neighbor, dict_has.
    destruct (dict_get (neighbors_dict o) x) eqn:Ex; simpl.
    + now rewrite andb_false_r.
    + rewrite andb_true_r, dict_get_set.
      now destruct (String.eqb b x).
  - reflexivity.
Qed.

Lemma call_on_keeps_get g k f k' :
  (forall o, id (f o) = id o) ->
  match dict_get (vertex_dict (call_on g k f)) k',
        dict_get (vertex_dict g) k' with
  | Some o', Some o => id o' = id o
  | None, None => True
  | _, _ => False
  end.
Proof.
  intros Hf. unfold call_on.
  destruct (dict_get (vertex_dict g) k) as [o|] eqn:Hk; simpl.
  - rewrite dict_get_set. destruct (String.eqb_spec k' k) as [->|].
    + rewrite Hk. apply Hf.
    + now destruct (dict_get (vertex_dict g) k').
  - now destruct (dict_get (vertex_dict g) k').
Qed.

Lemma call_on_directed g k f : is_directed (call_on g k f) = is_directed g.
Proof.
  unfold call_on. now destruct (dict_get (vertex_dict g) k).
Qed.

Lemma call_on_self_keyed g k x w :
  self_keyed g -> self_keyed (call_on g k (fun o => add_neighbor o x w)).
Proof.
  intros Hs k' o' Ho'.
  pose proof (call_on_keeps_get g k (fun o => add_neighbor o x w) k') as H.
  rewrite Ho' in H.
  destruct (dict_get (vertex_dict g) k') as [o|] eqn:E.
  - rewrite H; [now apply Hs|].
    intros o0. unfold add_neighbor.
    now destruct (dict_has (neighbors_dict o0) x).
  - destruct H.
    intros o0. unfold add_neighbor.
    now destruct (dict_has (neighbors_dict o0) x).
Qed.

(** What a successful [add_edge] does to the recorded weights of an
    undirected graph. *)
Lemma neighbor_weight_add_edge g u v w a b :
  is_directed g = false -> self_keyed g ->
  fst (add_edge g u v w) = None ->
  neighbor_weight (snd (add_edge g u v w)) a b =
  if String.eqb a u && String.eqb b v
     && match neighbor_weight g u v with None => true | Some _ => false end
  then Some w
  else if String.eqb a v && String.eqb b u
          && match neighbor_weight g v u with None => true | Some _ => false end
          && negb (String.eqb u v)
  then Some w
  else neighbor_weight g a b.
Proof.
  intros Hd Hs. unfold add_edge, get_vertex, dict_has.
  destruct (dict_get (vertex_dict g) u) as [o1|] eqn:H1; simpl;
    [|discriminate].
  destruct (dict_get (vertex_dict g) v) as [o2|] eqn:H2; simpl;
    [|discriminate].
  rewrite Hd. simpl. intros _.
  rewrite (Hs _ _ H1), (Hs _ _ H2).
  pose proof (call_on_keeps_get g u (fun o => add_neighbor o v w) v) as Hv.
  rewrite H2 in Hv.
  destruct (dict_get (vertex_dict (call_on g u (fun o => add_neighbor o v w)))
              v) as [o2'|] eqn:H2'.
  2:{ exfalso. apply Hv. intros o0. unfold add_neighbor.
      now destruct (dict_has (neighbors_dict o0) v). }
  clear Hv.
  rewrite (neighbor_weight_call_on _ v o2' u w a b H2').
  rewrite !(neighbor_weight_call_on g u o1 v w _ _ H1).
  destruct (String.eqb u v) eqn:Euv.
  - apply String.eqb_eq in Euv. subst u.
    rewrite String.eqb_refl. simpl. rewrite andb_false_r.
    destruct (neighbor_weight g v v); simpl;
      destruct (String.eqb a v && String.eqb b v); reflexivity.
  - assert (Evu : String.eqb v u = false)
      by (rewrite String.eqb_sym; exact Euv).
    rewrite Evu. simpl. rewrite andb_true_r.
    destruct (neighbor_weight g u v) eqn:E2;
      destruct (neighbor_weight g v u) eqn:E3;
      destruct (String.eqb a u) eqn:Eau; destruct (String.eqb b v) eqn:Ebv;
      destruct (String.eqb a v) eqn:Eav; destruct (String.eqb b u) eqn:Ebu;
      simpl; try reflexivity;
      repeat match goal with
             | H : String.eqb _ _ = true |- _ => apply String.eqb_eq in H
             end; subst; try congruence;
      rewrite ?String.eqb_refl in *; try discriminate.
Qed.

Lemma neighbor_weight_add_vertex g x a b :
  neighbor_weight (snd (add_vertex g x)) a b = neighbor_weight g a b.
Proof.
  unfold add_vertex, dict_has.
  destruct (dict_get (vertex_dict g) x) as [o|] eqn:Hx; simpl; auto.
  unfold neighbor_weight. simpl. rewrite dict_get_set.
  destruct (String.eqb_spec a x) as [->|]; auto.
  now rewrite Hx.
Qed.

Lemma built_undirected_invariant g :
  built_undirected g -> is_directed g = false /\ self_keyed g.
Proof.
  induction 1 as [|g x Hb [Hd Hs]|g u v w Hb [Hd Hs]].
  - split; [reflexivity|]. intros k o Hk. discriminate.
  - unfold add_vertex, dict_has.
    destruct (dict_get (vertex_dict g) x) eqn:Hx; simpl; auto.
    split; auto. intros k o. simpl. rewrite dict_get_set.
    destruct (String.eqb_spec k x) as [->|].
    + intros [= <-]. reflexivity.
    + apply Hs.
  - unfold add_edge.
    destruct (negb (dict_has (vertex_dict g) u)
              || negb (dict_has (vertex_dict g) v)); simpl; auto.
    destruct (get_vertex g u) as [o1|]; simpl; auto.
    destruct (get_vertex g v) as [o2|]; simpl; auto.
    rewrite Hd. simpl. rewrite !call_on_directed.
    split; auto. now do 2 apply call_on_self_keyed.
Qed.

Lemma add_edge_failed_same g u v w :
  fst (add_edge g u v w) <> None -> snd (add_edge g u v w) = g.
Proof.
  unfold add_edge.
  destruct (negb (dict_has (vertex_dict g) u)
            || negb (dict_has (vertex_dict g) v)); simpl; auto.
  destruct (get_vertex g u) as [o1|]; simpl; auto.
  destruct (get_vertex g v) as [o2|]; simpl; auto.
  destruct (negb (is_directed g)); simpl; congruence.
Qed.

Lemma built_undirected_symmetric g : built_undirected g -> symmetric g.
Proof.
  induction 1 as [|g x Hb IH|g u v w Hb IH].
  - intros a b. reflexivity.
  - intros a b. now rewrite !neighbor_weight_add_vertex.
  - destruct (built_undirected_invariant g Hb) as [Hd Hs].
    destruct (fst (add_edge g u v w)) as [r|] eqn:Hr.
    + rewrite add_edge_failed_same by congruence. exact IH.
    + intros a b. rewrite !neighbor_weight_add_edge by assumption.
      rewrite (IH v u), (IH b a).
      destruct (neighbor_weight g u v) eqn:E2;
        destruct (String.eqb u v) eqn:Euv;
        destruct (String.eqb a u) eqn:Eau; destruct (String.eqb b v) eqn:Ebv;
        destruct (String.eqb a v) eqn:Eav; destruct (String.eqb b u) eqn:Ebu;
        simpl; try reflexivity;
        repeat match goal with
               | H : String.eqb _ _ = true |- _ => apply String.eqb_eq in H
               end; subst; try congruence;
        rewrite ?String.eqb_refl in *; try discriminate.
Qed.

End NeighborMaps.

(** C9: every undirected weighted graph built with [add_vertex] and
    [add_edge] has symmetric neighbour maps, and after an [add_edge] that
    found both endpoints each endpoint is recorded at the other under the
    same weight, which is the weight just given when the edge is new. *)
Theorem undirected_neighbor_maps_symmetric :
  forall g,
    built_undirected g ->
    symmetric g
    /\ forall u v w,
         fst (WeightedGraph.add_edge g u v w) = None ->
         exists w',
           neighbor_weight (snd (WeightedGraph.add_edge g u v w)) u v = Some w'
           /\ neighbor_weight (snd (WeightedGraph.add_edge g u v w)) v u
              = Some w'
           /\ (neighbor_weight g u v = None -> w' = w).
Proof.
  intros g Hb. split; [now apply built_undirected_symmetric|].
  intros u v w Hok.
  pose proof (built_undirected_symmetric _ (built_add_edge g u v w Hb)) as Hsym.
  destruct (built_undirected_invariant g Hb) as [Hd Hs].
  rewrite (Hsym v u).
  rewrite (neighbor_weight_add_edge g u v w u v Hd Hs Hok).
  rewrite !String.eqb_refl. simpl.
  destruct (neighbor_weight g u v) as [z|] eqn:E.
  - exists z.
    assert (Hz : (if String.eqb u v && String.eqb v u
                     && match neighbor_weight g v u with
                        | None => true | Some _ => false end
                     && negb (String.eqb u v)
                  then Some w else Some z) = Some z).
    { destruct (String.eqb u v); simpl; rewrite ?andb_false_r; reflexivity. }
    rewrite Hz. repeat split. discriminate.
  - exists w. auto.
Qed.

Lemma undirected_neighbor_maps_symmetric_witness :
  symmetric wg_pair
  /\ neighbor_weight wg_pair "A" "B" = Some 7%Z
  /\ neighbor_weight wg_pair "B" "A" = Some 7%Z.
Proof.
  split; [|split; reflexivity].
  refine (proj1 (undirected_neighbor_maps_symmetric wg_pair _)).
  unfold wg_pair, build_weighted. cbn [fold_left].
  apply built_add_edge, built_add_vertex, built_add_vertex, built_init.
Defined.

(** ** What [topological_sort] can raise *)

Lemma only_key_error_bind {A B} (r : result A) (k : A -> result B) :
  only_key_error r -> (forall a, only_key_error (k a)) ->
  only_key_error (bind r k).
Proof.
  intros Hr Hk e. destruct r as [a|e'|]; simpl.
  - apply Hk.
  - intros [= <-]. now apply Hr.
  - discriminate.
Qed.

Lemma only_key_error_ok {A} (a : A) : only_key_error (Ok a).
Proof. intros e. discriminate. Qed.

Lemma only_key_error_dict_at {V} (d : dict V) k : only_key_error (dict_at d k).
Proof.
  intros e. unfold dict_at. destruct (dict_get d k); [discriminate|].
  now intros [= <-].
Qed.

Lemma only_key_error_reverse_neighbors vd ks s acc :
  only_key_error (Graph.reverse_neighbors vd ks s acc).
Proof.
  revert acc. induction ks as [|k ks IH]; intros acc; simpl.
  - apply only_key_error_ok.
  - apply only_key_error_bind; [apply only_key_error_dict_at|].
    intros l. apply IH.
Qed.

Lemma only_key_error_get_neighbors g v :
  only_key_error (Graph.get_neighbors g v).
Proof.
  unfold Graph.get_neighbors. destruct (Graph.is_directed g).
  - apply only_key_error_dict_at.
  - apply only_key_error_bind; [apply only_key_error_reverse_neighbors|].
    intros ns. apply only_key_error_bind; [apply only_key_error_dict_at|].
    intros l. apply only_key_error_ok.
Qed.

Lemma only_key_error_set_remove x s : only_key_error (Graph.set_remove x s).
Proof.
  intros e. unfold Graph.set_remove. destruct (py_in x s); [discriminate|].
  now intros [= <-].
Qed.

Lemma only_key_error_cyc_dfs fuel g v st :
  only_key_error (Graph.cyc_dfs fuel g v st).
Proof.
  revert v st. induction fuel as [|fuel IH]; intros v st; simpl.
  - intros e. discriminate.
  - apply only_key_error_bind; [apply only_key_error_get_neighbors|].
    intros ns. generalize false. revert st.
    induction ns as [|n ns IHns]; intros [nv cp] b.
    + apply only_key_error_bind; [apply only_key_error_set_remove|].
      intros cp'. apply only_key_error_ok.
    + destruct (py_in n nv).
      * apply only_key_error_bind; [apply IH|].
        intros [b' st']. apply IHns.
      * destruct (py_in n cp); [apply only_key_error_ok | apply IHns].
Qed.

Lemma only_key_error_contains_cycle g :
  only_key_error (Graph.contains_cycle g).
Proof.
  unfold Graph.contains_cycle.
  destruct (list_pop (dict_keys (Graph.vertex_dict g))) as [[s nv]|].
  - apply only_key_error_bind; [apply only_key_error_cyc_dfs|].
    intros [b st]. apply only_key_error_ok.
  - apply only_key_error_ok.
Qed.

Lemma only_key_error_ts_dfs fuel g v st :
  only_key_error (Graph.ts_dfs fuel g v st).
Proof.
  revert v st. induction fuel as [|fuel IH]; intros v st; simpl.
  - intros e. discriminate.
  - apply only_key_error_bind; [apply only_key_error_get_neighbors|].
    intros ns. apply only_key_error_bind.
    + revert st. induction ns as [|n ns IHns]; intros [nv stack].
      * apply only_key_error_ok.
      * destruct (py_in n nv); [|apply IHns].
        apply only_key_error_bind; [apply IH|]. intros st'. apply IHns.
    + intros [nv stack]. apply only_key_error_ok.
Qed.

Lemma only_key_error_ts_loop fuel g nv stack :
  only_key_error (Graph.ts_loop fuel g nv stack).
Proof.
  revert nv stack.
  induction fuel as [|fuel IH]; intros nv stack; cbn [Graph.ts_loop];
    destruct (list_pop nv) as [[s nv']|]; try apply only_key_error_ok.
  - intros e. discriminate.
  - apply only_key_error_bind; [apply only_key_error_ts_dfs|].
    intros [nv'' stack']. apply IH.
Qed.

(** C7: on the directed triangle the cycle is found, and [topological_sort]
    hands the [ValueError] object back as an ordinary return value; on no
    graph at all does it raise [ValueError] (a failed lookup is the only
    exception it can raise).  Moreover [contains_cycle] only explores from
    the vertex added last: the cycle A <-> B beside a later vertex C goes
    unseen and an ordering is returned. *)
Theorem topological_sort_returns_error_object :
  (forall g, Graph.topological_sort g <> Raise ValueError)
  /\ build_graph true ["A"; "B"; "C"] [("A", "B"); ("B", "C"); ("C", "A")]
     = Ok g_cycle3
  /\ Graph.contains_cycle g_cycle3 = Ok (Some true)
  /\ Graph.topological_sort g_cycle3
     = Ok (Graph.RetValueError "Graph contains cycle and cannot be sorted.")
  /\ Graph.contains_cycle g_hidden_cycle = Ok (Some false)
  /\ Graph.topological_sort g_hidden_cycle = Ok (Graph.RetList ["B"; "A"; "C"]).
Proof.
  split; [|repeat split; vm_compute; reflexivity].
  intros g H.
  assert (Hk : only_key_error (Graph.topological_sort g)).
  { unfold Graph.topological_sort.
    apply only_key_error_bind; [apply only_key_error_contains_cycle|].
    intros [[|]|]; try apply only_key_error_ok;
      (apply only_key_error_bind; [apply only_key_error_ts_loop|];
       intros stack; apply only_key_error_ok). }
  specialize (Hk _ H). discriminate.
Qed.

(** ** Breadth-first traversal *)

Section Traversal.
Variable g : Graph.t.
Hypothesis g_closed : closed g.

Lemma pointing_at_incl s : incl (pointing_at (Graph.vertex_dict g) s) (dict_keys (Graph.vertex_dict g)).
Proof. intros x Hx. apply filter_In in Hx. tauto. Qed.

Lemma get_neighbors_closed u :
  In u (dict_keys (Graph.vertex_dict g)) -> exists ns, Graph.get_neighbors g u = Ok ns /\ incl ns (dict_keys (Graph.vertex_dict g)).
Proof.
  intros Hu. apply dict_get_in_keys in Hu.
  destruct (dict_get (Graph.vertex_dict g) u) as [l|] eqn:E; [|congruence].
  rewrite (get_neighbors_present g u l E).
  eexists. split; [reflexivity|].
  assert (Hl : incl l (dict_keys (Graph.vertex_dict g))) by (intros x Hx; eapply g_closed; eauto).
  destruct (Graph.is_directed g); auto.
  apply incl_app; auto. apply pointing_at_incl.
Qed.

Lemma adjacent_iff u ns v :
  Graph.get_neighbors g u = Ok ns -> (adjacent g u v <-> In v ns).
Proof.
  intros H. split.
  - intros (ns' & H' & Hin). congruence.
  - intros Hin. exists ns. auto.
Qed.

(** The scan appends the unseen neighbours, each once, to [seen] and to
    the queue alike. *)
Lemma bfs_scan_spec ns : forall seen queue,
  NoDup seen ->
  exists new,
    Graph.bfs_scan ns seen queue = (seen ++ new, queue ++ new)
    /\ NoDup (seen ++ new)
    /\ incl new ns
    /\ (forall n, In n ns -> In n (seen ++ new)).
Proof.
  induction ns as [|n ns IH]; intros seen queue Hnd; simpl.
  - exists []. rewrite !app_nil_r. repeat split; auto.
    + apply incl_refl.
    + intros n [].
  - destruct (py_in n seen) eqn:E.
    + destruct (IH seen queue Hnd) as (new & H1 & H2 & H3 & H4).
      exists new. repeat split; auto.
      * now apply incl_tl.
      * intros m [<-|Hm]; auto. apply in_or_app. left.
        now apply py_in_spec.
    + apply py_in_false in E.
      assert (Hnd' : NoDup (seen ++ [n])).
      { apply NoDup_app; auto.
        - constructor; [intros []|constructor].
        - intros x Hx [<-|[]]. contradiction. }
      destruct (IH (seen ++ [n]) (queue ++ [n]) Hnd')
        as (new & H1 & H2 & H3 & H4).
      exists (n :: new). rewrite H1.
      replace (seen ++ n :: new) with ((seen ++ [n]) ++ new)
        by now rewrite <- app_assoc.
      replace (queue ++ n :: new) with ((queue ++ [n]) ++ new)
        by now rewrite <- app_assoc.
      repeat split; auto.
      * intros x [<-|Hx]; [now left | right; auto].
      * intros m [<-|Hm]; auto.
        apply in_or_app. left. apply in_or_app. right. now left.
Qed.

Variable s : vid.

(** The loop, from any state the traversal can be in: [seen] is the output
    so far followed by the queue. *)
Lemma bfs_loop_spec : forall fuel seen queue out,
  seen = out ++ queue ->
  NoDup seen ->
  incl seen (dict_keys (Graph.vertex_dict g)) ->
  length queue + length (dict_keys (Graph.vertex_dict g)) <= fuel + length seen ->
  (forall u, In u out -> forall v, adjacent g u v -> In v seen) ->
  (forall u, In u seen -> reachable g s u) ->
  In s seen ->
  exists rest,
    Graph.bfs_loop fuel g seen queue out = (seen ++ rest, Ok tt)
    /\ NoDup (seen ++ rest)
    /\ (forall u, In u (seen ++ rest) <-> reachable g s u).
Proof.
  induction fuel as [|fuel IH];
    intros seen queue out Hsq Hnd Hincl Hfuel Hdone Hreach Hs.
  - destruct queue as [|cur queue].
    2:{ exfalso. pose proof (NoDup_incl_length Hnd Hincl). simpl in *. lia. }
    simpl. rewrite app_nil_r in Hsq. subst out. exists [].
    rewrite app_nil_r. repeat split; auto.
    induction 1 as [|u v Hu IHu Hadj]; eauto.
  - destruct queue as [|cur queue].
    + simpl. rewrite app_nil_r in Hsq. subst out. exists [].
      rewrite app_nil_r. repeat split; auto.
      induction 1 as [|u v Hu IHu Hadj]; eauto.
    + cbn [Graph.bfs_loop].
      assert (Hcur : In cur (dict_keys (Graph.vertex_dict g))).
      { apply Hincl. rewrite Hsq. apply in_or_app. right. now left. }
      destruct (get_neighbors_closed cur Hcur) as (ns & Hns & Hnsk).
      rewrite Hns.
      destruct (bfs_scan_spec ns seen queue Hnd) as (new & H1 & H2 & H3 & H4).
      rewrite H1.
      destruct (IH (seen ++ new) (queue ++ new) (out ++ [cur]))
        as (rest & R1 & R2 & R3).
      * rewrite Hsq, <- !app_assoc. reflexivity.
      * exact H2.
      * apply incl_app; auto. intros x Hx. apply Hnsk. auto.
      * rewrite !length_app. simpl in Hfuel. lia.
      * intros u Hu v Hadj. apply in_app_or in Hu.
        destruct Hu as [Hu|[<-|[]]].
        -- apply in_or_app. left. eapply Hdone; eauto.
        -- apply H4. now apply (adjacent_iff cur ns v Hns).
      * intros u Hu. apply in_app_or in Hu. destruct Hu as [Hu|Hu]; auto.
        apply reach_step with cur.
        -- apply Hreach. rewrite Hsq. apply in_or_app. right. now left.
        -- apply (adjacent_iff cur ns u Hns). auto.
      * apply in_or_app. now left.
      * exists (new ++ rest). rewrite app_assoc. auto.
Qed.

End Traversal.

Lemma dict_get_In {V} (d : dict V) k v : dict_get d k = Some v -> In (k, v) d.
Proof.
  induction d as [|[k' v'] d IH]; simpl; [discriminate|].
  destruct (String.eqb_spec k k') as [->|]; [intros [= ->]; now left|].
  intros H. right. auto.
Qed.

Lemma closedb_sound g : closedb g = true -> closed g.
Proof.
  unfold closedb, closed. rewrite forallb_forall. intros H k l x Hk Hx.
  specialize (H _ (dict_get_In _ _ _ Hk)). simpl in H.
  rewrite forallb_forall in H. apply py_in_spec. auto.
Qed.

(** C5, as the code has it: in a graph whose stored neighbour ids are all
    vertices, [bfs_traversal] from a vertex of the graph finishes normally,
    its visitation sequence starts with that vertex, holds every vertex
    reachable from it exactly once, and holds nothing else. *)
Theorem bfs_traversal_visits_reachable_once :
  forall g v,
    closed g ->
    In v (dict_keys (Graph.vertex_dict g)) ->
    exists out,
      Graph.bfs_traversal g v = (out, Ok tt)
      /\ hd_error out = Some v
      /\ (forall u, reachable g v u -> count_occ string_dec out u = 1)
      /\ (forall u, In u out -> reachable g v u).
Proof.
  intros g v Hc Hv. unfold Graph.bfs_traversal, dict_has.
  pose proof (proj1 (dict_get_in_keys _ _) Hv) as Hget.
  destruct (dict_get (Graph.vertex_dict g) v) eqn:E; [|congruence]. simpl.
  destruct (bfs_loop_spec g Hc v (Graph.fuel_of g) [v] [v] [])
    as (rest & R1 & R2 & R3).
  - reflexivity.
  - constructor; [intros []|constructor].
  - intros x [<-|[]]. exact Hv.
  - unfold Graph.fuel_of, Graph.mentioned. rewrite length_app. simpl. lia.
  - intros u [].
  - intros u [<-|[]]. constructor.
  - now left.
  - exists ([v] ++ rest). repeat split; auto.
    + intros u Hu. apply R3 in Hu.
      now apply (proj1 (NoDup_count_occ' string_dec _) R2).
    + intros u Hu. now apply R3.
Qed.

Lemma bfs_traversal_visits_reachable_once_witness :
  exists out,
    Graph.bfs_traversal (g_line false) "B" = (out, Ok tt)
    /\ hd_error out = Some "B"
    /\ (forall u, reachable (g_line false) "B" u ->
                  count_occ string_dec out u = 1)
    /\ (forall u, In u out -> reachable (g_line false) "B" u).
Proof.
  apply (bfs_traversal_visits_reachable_once (g_line false) "B").
  - apply closedb_sound. reflexivity.
  - simpl. auto.
Defined.

(** C5 as stated fails when an edge leads to an id that is not a vertex:
    from A the traversal prints A and Z, then the lookup of Z's neighbours
    raises, and B, a neighbour of A, is never visited. *)
Lemma bfs_traversal_dangling_counterexample :
  build_graph true ["A"; "B"] [("A", "Z"); ("A", "B")] = Ok g_dangling
  /\ In "A" (dict_keys (Graph.vertex_dict g_dangling))
  /\ reachable g_dangling "A" "B"
  /\ Graph.bfs_traversal g_dangling "A" = (["A"; "Z"], Raise KeyError)
  /\ count_occ string_dec (fst (Graph.bfs_traversal g_dangling "A")) "B" = 0.
Proof.
  split; [reflexivity|].
  split; [simpl; auto|]. split; [|split; reflexivity].
  apply reach_step with "A"; [constructor|].
  exists ["Z"; "B"]. split; [reflexivity|]. simpl. auto.
Qed.

(** ** Paths *)

Lemma chain_snoc g p u v :
  chain g p -> last p u = u -> p <> [] -> adjacent g u v ->
  chain g (p ++ [v]).
Proof.
  induction p as [|x p IH]; [congruence|].
  intros Hc Hl _ Hadj. destruct p as [|y p].
  - simpl in *. subst. auto.
  - change (adjacent g x y /\ chain g ((y :: p) ++ [v])).
    destruct Hc as [Hxy Hc]. split; auto. apply IH; auto. discriminate.
Qed.

Lemma last_nonempty_indep {A} (p : list A) d d' :
  p <> [] -> last p d = last p d'.
Proof.
  induction p as [|x p IH]; [congruence|]. intros _.
  destruct p as [|y p]; auto. apply IH. discriminate.
Qed.

Lemma walk_nonempty g s t p : walk g s t p -> p <> [].
Proof. destruct 1; [discriminate|]. now destruct p. Qed.

Lemma walk_path_between g s t p : walk g s t p -> path_between g s t p.
Proof.
  induction 1 as [|u v p Hw (Hh & Hl & Hc) Hadj].
  - repeat split.
  - pose proof (walk_nonempty _ _ _ _ Hw) as Hne. repeat split.
    + destruct p; [congruence|exact Hh].
    + apply last_last.
    + apply chain_snoc with u; auto.
      rewrite (last_nonempty_indep p u s Hne). exact Hl.
Qed.

Lemma chain_app_inv g p q : chain g (p ++ q) -> chain g p.
Proof.
  induction p as [|x p IH]; [simpl; auto|].
  destruct p as [|y p]; [simpl; auto|].
  change (adjacent g x y /\ chain g ((y :: p) ++ q) ->
          adjacent g x y /\ chain g (y :: p)).
  intros [H1 H2]. split; auto.
Qed.

Lemma chain_last_adjacent g p x v :
  chain g ((p ++ [x]) ++ [v]) -> adjacent g x v.
Proof.
  induction p as [|y p IH]; simpl.
  - tauto.
  - destruct (p ++ [x]) as [|z r] eqn:E.
    + now destruct p.
    + simpl. intros [_ H]. apply IH. exact H.
Qed.

Lemma path_between_walk g s t p : path_between g s t p -> walk g s t p.
Proof.
  revert t. induction p as [|v p IH] using rev_ind; intros t (Hh & Hl & Hc).
  - discriminate.
  - rewrite last_last in Hl. subst v.
    destruct p as [|x p] using rev_ind.
    + simpl in Hh. injection Hh as ->. constructor.
    + clear IHp. apply walk_snoc with x.
      * apply IH. repeat split.
        -- destruct (p ++ [x]) eqn:E; [now destruct p|]. exact Hh.
        -- apply last_last.
        -- eapply chain_app_inv; eauto.
      * eapply chain_last_adjacent; eauto.
Qed.

Lemma reachable_walk g s t : reachable g s t -> exists p, walk g s t p.
Proof.
  induction 1 as [|u v Hr [p Hp] Hadj].
  - exists [s]. constructor.
  - exists (p ++ [v]). econstructor; eauto.
Qed.

Lemma dict_set_fresh {V} (d : dict V) k v :
  ~ In k (dict_keys d) -> dict_set d k v = d ++ [(k, v)].
Proof.
  induction d as [|[k' v'] d IH]; simpl; auto.
  intros H. destruct (String.eqb_spec k k') as [->|]; [tauto|].
  f_equal. apply IH. tauto.
Qed.

Lemma dict_get_app {V} (d e : dict V) k :
  dict_get (d ++ e) k =
  match dict_get d k with Some v => Some v | None => dict_get e k end.
Proof.
  induction d as [|[k' v'] d IH]; simpl; auto.
  now destruct (String.eqb k k').
Qed.

Lemma dict_keys_app {V} (d e : dict V) :
  dict_keys (d ++ e) = dict_keys d ++ dict_keys e.
Proof. apply map_app. Qed.

Lemma dict_get_none {V} (d : dict V) k :
  ~ In k (dict_keys d) -> dict_get d k = None.
Proof.
  intros H. destruct (dict_get d k) eqn:E; auto.
  exfalso. apply H. apply dict_get_in_keys. congruence.
Qed.

(** ** Shortest paths by breadth-first search *)

Lemma dict_get_map_self {V} (f : vid -> V) (l : list vid) x :
  In x l -> dict_get (map (fun n => (n, f n)) l) x = Some (f x).
Proof.
  induction l as [|y l IH]; simpl; [tauto|].
  destruct (String.eqb_spec x y) as [->|]; auto.
  intros [?|?]; [congruence|auto].
Qed.

Lemma dict_keys_map_self {V} (f : vid -> V) (l : list vid) :
  dict_keys (map (fun n => (n, f n)) l) = l.
Proof.
  unfold dict_keys. rewrite map_map. simpl. apply map_id.
Qed.

Lemma dict_has_spec {V} (d : dict V) k :
  dict_has d k = true <-> In k (dict_keys d).
Proof.
  unfold dict_has. rewrite dict_get_in_keys.
  destruct (dict_get d k); split; congruence.
Qed.

Lemma NoDup_app_disjoint {A} (l m : list A) x :
  NoDup (l ++ m) -> In x l -> In x m -> False.
Proof.
  induction l as [|y l IH]; simpl; [tauto|].
  intros Hnd [->|Hl] Hm.
  - apply NoDup_cons_iff in Hnd as [Hn _]. apply Hn, in_or_app. now right.
  - apply NoDup_cons_iff in Hnd as [_ Hnd]. auto.
Qed.

Lemma sp_scan_spec cur pc ns : forall pd queue,
  dict_get pd cur = Some pc ->
  NoDup (dict_keys pd) ->
  exists new,
    Graph.sp_scan ns cur pd queue =
      Ok (pd ++ map (fun n => (n, pc ++ [n])) new, queue ++ new)
    /\ NoDup (dict_keys pd ++ new)
    /\ incl new ns
    /\ (forall n, In n ns -> In n (dict_keys pd ++ new)).
Proof.
  induction ns as [|n ns IH]; intros pd queue Hcur Hnd; simpl.
  - exists []. simpl. rewrite !app_nil_r. repeat split; auto.
    + apply incl_refl.
    + intros n [].
  - destruct (dict_has pd n) eqn:E.
    + apply dict_has_spec in E.
      destruct (IH pd queue Hcur Hnd) as (new & H1 & H2 & H3 & H4).
      exists new. repeat split; auto.
      * now apply incl_tl.
      * intros m [<-|Hm]; auto. apply in_or_app. now left.
    + assert (Hn : ~ In n (dict_keys pd)).
      { intros H. apply dict_has_spec in H. congruence. }
      unfold dict_at. rewrite Hcur. simpl.
      rewrite (dict_set_fresh pd n _ Hn).
      destruct (IH (pd ++ [(n, pc ++ [n])]) (queue ++ [n]))
        as (new & H1 & H2 & H3 & H4).
      * rewrite dict_get_app, Hcur. reflexivity.
      * rewrite dict_keys_app. simpl. apply NoDup_app; auto.
        -- constructor; [intros []|constructor].
        -- intros x Hx [<-|[]]. contradiction.
      * rewrite dict_keys_app in H2, H4. simpl in H2, H4.
        exists (n :: new). rewrite H1. simpl.
        rewrite <- !app_assoc. simpl.
        rewrite <- !app_assoc in H2. simpl in H2.
        repeat split; auto.
        -- intros x [<-|Hx]; [now left | right; auto].
        -- intros m [<-|Hm].
           ++ apply in_or_app. right. now left.
           ++ specialize (H4 m Hm). rewrite <- app_assoc in H4. exact H4.
Qed.

Section ShortestPath.
Variable g : Graph.t.
Hypothesis g_closed : closed g.
Variable s : vid.

Lemma queue_ge_head pd queue out cur rest x :
  sp_inv g s pd queue out -> queue = cur :: rest -> In x queue ->
  plen pd cur <= plen pd x.
Proof.
  intros I Hq Hx. destruct (sp_layers _ _ _ _ _ I) as (A & B & d & E & HA & HB).
  rewrite E in Hq, Hx. destruct A as [|a A]; simpl in Hq.
  - subst B. rewrite (HB cur), (HB x); auto. now left.
  - injection Hq as -> HAB. rewrite (HA cur) by now left.
    apply in_app_or in Hx.
    destruct Hx as [Hx|Hx]; [rewrite (HA x Hx) | rewrite (HB x Hx)]; lia.
Qed.

(** Whatever a walk no longer than the path of the head of the queue
    reaches has been discovered; with an empty queue, whatever any walk
    reaches. *)
Lemma discovered_within pd queue out u q :
  sp_inv g s pd queue out ->
  walk g s u q ->
  (forall cur rest, queue = cur :: rest -> length q <= plen pd cur) ->
  In u (dict_keys pd).
Proof.
  intros I Hw. induction Hw as [|u' u q' Hw IH Hadj]; intros Hb.
  - apply (sp_start _ _ _ _ _ I).
  - assert (Hu' : In u' (dict_keys pd)).
    { apply IH. intros cur rest E. specialize (Hb cur rest E).
      rewrite length_app in Hb. simpl in Hb. lia. }
    pose proof Hu' as Hget. apply dict_get_in_keys in Hget.
    destruct (dict_get pd u') as [p'|] eqn:Ep; [|congruence].
    pose proof (sp_best _ _ _ _ _ I u' p' q' Ep Hw) as Hle.
    rewrite (sp_keys _ _ _ _ _ I) in Hu'. apply in_app_or in Hu'.
    destruct Hu' as [Hout|Hq].
    + eapply (sp_done _ _ _ _ _ I); eauto.
    + exfalso. destruct queue as [|cur rest]; [destruct Hq|].
      pose proof (queue_ge_head _ _ _ cur rest u' I eq_refl Hq) as Hge.
      specialize (Hb cur rest eq_refl). rewrite length_app in Hb.
      simpl in Hb. unfold plen in Hge at 2. rewrite Ep in Hge. lia.
Qed.

Lemma plen_app_old pd ext x :
  In x (dict_keys pd) -> plen (pd ++ ext) x = plen pd x.
Proof.
  intros H. unfold plen. rewrite dict_get_app.
  apply dict_get_in_keys in H. now destruct (dict_get pd x).
Qed.

Lemma plen_app_new pd pc new x :
  ~ In x (dict_keys pd) -> In x new ->
  plen (pd ++ map (fun n => (n, pc ++ [n])) new) x = S (length pc).
Proof.
  intros H1 H2. unfold plen.
  rewrite dict_get_app, (dict_get_none pd x H1).
  rewrite (dict_get_map_self (fun n => pc ++ [n]) new x H2).
  rewrite length_app. simpl. lia.
Qed.

(** One round of the loop keeps the invariant. *)
Lemma sp_inv_step pd cur queue out ns pc new :
  sp_inv g s pd (cur :: queue) out ->
  Graph.get_neighbors g cur = Ok ns ->
  incl ns (dict_keys (Graph.vertex_dict g)) ->
  dict_get pd cur = Some pc ->
  NoDup (dict_keys pd ++ new) ->
  incl new ns ->
  (forall n, In n ns -> In n (dict_keys pd ++ new)) ->
  sp_inv g s (pd ++ map (fun n => (n, pc ++ [n])) new)
    (queue ++ new) (out ++ [cur]).
Proof.
  intros I Hns Hnsk Hcur Hnd Hnew Hall.
  assert (Hfresh : forall x, In x new -> ~ In x (dict_keys pd)).
  { intros x Hx Hk. eapply NoDup_app_disjoint; eauto. }
  assert (Hpc : plen pd cur = length pc) by (unfold plen; now rewrite Hcur).
  constructor.
  - rewrite dict_keys_app, dict_keys_map_self, (sp_keys _ _ _ _ _ I).
    rewrite <- !app_assoc. reflexivity.
  - now rewrite dict_keys_app, dict_keys_map_self.
  - rewrite dict_keys_app, dict_keys_map_self. apply incl_app.
    + apply (sp_known _ _ _ _ _ I).
    + intros x Hx. auto.
  - rewrite dict_keys_app. apply in_or_app. left. apply (sp_start _ _ _ _ _ I).
  - intros v p. rewrite dict_get_app.
    destruct (dict_get pd v) as [p0|] eqn:Ev.
    + intros [= <-]. eapply (sp_walk _ _ _ _ _ I); eauto.
    + intros Hv.
      assert (Hin : In v new).
      { assert (H : In v (dict_keys (map (fun n => (n, pc ++ [n])) new)))
          by (apply dict_get_in_keys; congruence).
        now rewrite dict_keys_map_self in H. }
      rewrite (dict_get_map_self (fun n => pc ++ [n]) new v Hin) in Hv.
      injection Hv as <-. apply walk_snoc with cur.
      * eapply (sp_walk _ _ _ _ _ I); eauto.
      * exists ns. auto.
  - destruct (sp_layers _ _ _ _ _ I) as (A & B & d & E & HA & HB).
    assert (Hq : forall x, In x (cur :: queue) -> In x (dict_keys pd)).
    { intros x Hx. rewrite (sp_keys _ _ _ _ _ I). apply in_or_app. now right. }
    destruct A as [|a A]; simpl in E.
    + (* the head was the first of its layer's successors *)
      exists queue, new, (S d). subst B.
      assert (Hd : length pc = S d)
        by (rewrite <- Hpc; apply HB; now left).
      repeat split; auto.
      * intros x Hx. rewrite plen_app_old by (apply Hq; now right).
        apply HB. now right.
      * intros x Hx. rewrite plen_app_new by auto. now rewrite Hd.
    + injection E as <- ->.
      assert (Hd : length pc = d) by (rewrite <- Hpc; apply HA; now left).
      exists A, (B ++ new), d. rewrite app_assoc. repeat split; auto.
      * intros x Hx. rewrite plen_app_old.
        -- apply HA. now right.
        -- apply Hq. right. apply in_or_app. now left.
      * intros x Hx. apply in_app_or in Hx. destruct Hx as [Hx|Hx].
        -- rewrite plen_app_old; [now apply HB|].
           apply Hq. right. apply in_or_app. now right.
        -- rewrite plen_app_new by auto. now rewrite Hd.
  - intros u v Hu Hadj. rewrite dict_keys_app, dict_keys_map_self.
    apply in_app_or in Hu. destruct Hu as [Hu|[<-|[]]].
    + apply in_or_app. left. eapply (sp_done _ _ _ _ _ I); eauto.
    + apply Hall. destruct Hadj as (ns' & Hns' & Hv). congruence.
  - intros v p q. rewrite dict_get_app.
    destruct (dict_get pd v) as [p0|] eqn:Ev.
    + intros [= <-]. eapply (sp_best _ _ _ _ _ I); eauto.
    + intros Hv Hw.
      assert (Hin : In v new).
      { assert (H : In v (dict_keys (map (fun n => (n, pc ++ [n])) new)))
          by (apply dict_get_in_keys; congruence).
        now rewrite dict_keys_map_self in H. }
      rewrite (dict_get_map_self (fun n => pc ++ [n]) new v Hin) in Hv.
      injection Hv as <-. rewrite length_app. simpl.
      destruct (Nat.le_gt_cases (length q) (length pc)) as [Hle|]; [|lia].
      exfalso. apply (Hfresh v Hin).
      apply (discovered_within pd (cur :: queue) out v q I Hw).
      intros cur' rest [= <- <-]. now rewrite Hpc.
Qed.

Lemma sp_found pd queue out target :
  sp_inv g s pd queue out ->
  In target (dict_keys pd) ->
  exists p,
    dict_get pd target = Some p
    /\ walk g s target p
    /\ forall q, walk g s target q -> length p <= length q.
Proof.
  intros I Hin. apply dict_get_in_keys in Hin.
  destruct (dict_get pd target) as [p|] eqn:E; [|congruence].
  exists p. repeat split.
  - eapply (sp_walk _ _ _ _ _ I); eauto.
  - intros q Hq. eapply (sp_best _ _ _ _ _ I); eauto.
Qed.

Lemma sp_loop_spec target : forall fuel pd queue out,
  sp_inv g s pd queue out ->
  length queue + length (dict_keys (Graph.vertex_dict g))
    <= fuel + length (dict_keys pd) ->
  reachable g s target ->
  exists pd' p,
    Graph.sp_loop fuel g target pd queue = Ok pd'
    /\ dict_get pd' target = Some p
    /\ walk g s target p
    /\ forall q, walk g s target q -> length p <= length q.
Proof.
  induction fuel as [|fuel IH]; intros pd queue out I Hfuel Hreach;
    destruct queue as [|cur queue].
  - destruct (reachable_walk _ _ _ Hreach) as [q Hq].
    destruct (sp_found pd [] out target I) as (p & Hp).
    + eapply discovered_within; eauto. intros cur rest [=].
    + exists pd, p. simpl. auto.
  - simpl. destruct (String.eqb_spec cur target) as [->|Hne].
    + destruct (sp_found pd (target :: queue) out target I) as (p & Hp).
      * rewrite (sp_keys _ _ _ _ _ I). apply in_or_app. right. now left.
      * exists pd, p. auto.
    + exfalso.
      pose proof (NoDup_incl_length (sp_nodup _ _ _ _ _ I)
                    (sp_known _ _ _ _ _ I)).
      simpl in Hfuel. lia.
  - destruct (reachable_walk _ _ _ Hreach) as [q Hq].
    destruct (sp_found pd [] out target I) as (p & Hp).
    + eapply discovered_within; eauto. intros cur rest [=].
    + exists pd, p. simpl. auto.
  - cbn [Graph.sp_loop]. destruct (String.eqb_spec cur target) as [->|Hne].
    + destruct (sp_found pd (target :: queue) out target I) as (p & Hp).
      * rewrite (sp_keys _ _ _ _ _ I). apply in_or_app. right. now left.
      * exists pd, p. auto.
    + assert (Hcur : In cur (dict_keys pd)).
      { rewrite (sp_keys _ _ _ _ _ I). apply in_or_app. right. now left. }
      destruct (get_neighbors_closed g g_closed cur
                  (sp_known _ _ _ _ _ I cur Hcur)) as (ns & Hns & Hnsk).
      rewrite Hns. simpl.
      pose proof Hcur as Hget. apply dict_get_in_keys in Hget.
      destruct (dict_get pd cur) as [pc|] eqn:Epc; [|congruence].
      destruct (sp_scan_spec cur pc ns pd queue Epc (sp_nodup _ _ _ _ _ I))
        as (new & H1 & H2 & H3 & H4).
      rewrite H1. simpl.
      apply (IH _ _ (out ++ [cur])); auto.
      * eapply sp_inv_step; eauto.
      * rewrite dict_keys_app, dict_keys_map_self, !length_app.
        simpl in Hfuel. lia.
Qed.

End ShortestPath.

(** C6, as the code has it: in a graph whose stored neighbour ids are all
    vertices, when the start is a vertex and the target can be reached from
    it, [find_shortest_path] returns a path from start to target that no
    path from start to target undercuts in length; on the line A-B-C-D,
    directed or not, the path from A to D is A, B, C, D. *)
Theorem find_shortest_path_is_shortest :
  (forall g start_id target_id,
     closed g ->
     In start_id (dict_keys (Graph.vertex_dict g)) ->
     reachable g start_id target_id ->
     exists p,
       Graph.find_shortest_path g start_id target_id = Ok p
       /\ path_between g start_id target_id p
       /\ forall q, path_between g start_id target_id q ->
                    length p <= length q)
  /\ (forall directed,
        Graph.find_shortest_path (g_line directed) "A" "D"
        = Ok ["A"; "B"; "C"; "D"]).
Proof.
  split; [|intros []; reflexivity].
  intros g s t Hc Hs Hr. unfold Graph.find_shortest_path.
  rewrite (proj2 (dict_has_spec _ _) Hs). cbn [negb].
  destruct (sp_loop_spec g Hc s t (Graph.fuel_of g) [(s, [s])] [s] [])
    as (pd' & p & H1 & H2 & H3 & H4); auto.
  - constructor.
    + reflexivity.
    + constructor; [intros []|constructor].
    + intros x [<-|[]]. exact Hs.
    + now left.
    + intros v p. simpl.
      destruct (String.eqb_spec v s) as [->|]; [|discriminate].
      intros [= <-]. constructor.
    + exists [s], [], 1. repeat split.
      * intros x [<-|[]]. unfold plen. simpl. now rewrite String.eqb_refl.
      * intros x [].
    + intros u v [].
    + intros v p q. simpl.
      destruct (String.eqb_spec v s) as [->|]; [|discriminate].
      intros [= <-] Hw. apply walk_nonempty in Hw. destruct q; simpl.
      * congruence.
      * lia.
  - unfold Graph.fuel_of, Graph.mentioned. rewrite length_app. simpl. lia.
  - rewrite H1. simpl. unfold dict_at. rewrite H2. exists p.
    repeat split; try apply (walk_path_between _ _ _ _ H3).
    intros q Hq. apply H4. now apply path_between_walk.
Qed.

Lemma find_shortest_path_is_shortest_witness :
  exists p,
    Graph.find_shortest_path (g_line false) "D" "A" = Ok p
    /\ path_between (g_line false) "D" "A" p
    /\ forall q, path_between (g_line false) "D" "A" q ->
                 length p <= length q.
Proof.
  apply (proj1 find_shortest_path_is_shortest (g_line false) "D" "A").
  - apply closedb_sound. reflexivity.
  - simpl. auto.
  - apply reach_step with "B"; [apply reach_step with "C";
      [apply reach_step with "D"; [constructor|]|]|];
      eexists; (split; [reflexivity|simpl; auto]).
Defined.

(** C6 as stated fails when an edge leads to an id that is not a vertex:
    B is a neighbour of the start A, yet the search raises at the
    lookup of the neighbours of Z, taken from the queue before B. *)
Lemma find_shortest_path_dangling_counterexample :
  build_graph true ["A"; "B"] [("A", "Z"); ("A", "B")] = Ok g_dangling
  /\ In "A" (dict_keys (Graph.vertex_dict g_dangling))
  /\ reachable g_dangling "A" "B"
  /\ Graph.find_shortest_path g_dangling "A" "B" = Raise KeyError.
Proof.
  split; [reflexivity|].
  split; [simpl; auto|]. split; [|reflexivity].
  apply reach_step with "A"; [constructor|].
  exists ["Z"; "B"]. split; [reflexivity|]. simpl. auto.
Qed.


(** ** Connected components *)

Lemma list_pop_spec l :
  match list_pop l with
  | None => l = []
  | Some (x, l') => l = l' ++ [x]
  end.
Proof.
  unfold list_pop. destruct (rev l) as [|x r] eqn:E.
  - apply (f_equal (@rev vid)) in E. now rewrite rev_involutive in E.
  - apply (f_equal (@rev vid)) in E. now rewrite rev_involutive in E.
Qed.

Lemma list_remove_perm x l :
  In x l -> Permutation (x :: list_remove x l) l.
Proof.
  induction l as [|y l IH]; simpl; [tauto|].
  destruct (String.eqb_spec x y) as [->|Hne]; [reflexivity|].
  intros [?|Hin]; [congruence|].
  rewrite perm_swap. now rewrite IH.
Qed.

Lemma list_remove_other x m l :
  In m l -> m <> x -> In m (list_remove x l).
Proof.
  induction l as [|y l IH]; simpl; [tauto|].
  destruct (String.eqb_spec x y) as [->|Hne].
  - intros [?|?] ?; [congruence|auto].
  - intros [->|?] ?; [now left | right; auto].
Qed.

(** In an undirected graph with known neighbour ids, being a neighbour
    goes both ways. *)
Lemma adjacent_sym g u v :
  Graph.is_directed g = false -> closed g ->
  adjacent g u v -> adjacent g v u.
Proof.
  intros Hd Hc (ns & Hns & Hv).
  unfold Graph.get_neighbors in Hns. rewrite Hd in Hns.
  rewrite reverse_neighbors_filter in Hns by apply incl_refl.
  simpl in Hns. unfold dict_at in Hns.
  destruct (dict_get (Graph.vertex_dict g) u) as [lu|] eqn:Eu;
    [|discriminate].
  injection Hns as <-. simpl in Hv.
  assert (Hvk : In v (dict_keys (Graph.vertex_dict g))).
  { apply in_app_or in Hv. destruct Hv as [Hv|Hv].
    - apply filter_In in Hv. tauto.
    - eapply Hc; eauto. }
  pose proof Hvk as Hget. apply dict_get_in_keys in Hget.
  destruct (dict_get (Graph.vertex_dict g) v) as [lv|] eqn:Ev; [|congruence].
  exists (pointing_at (Graph.vertex_dict g) v ++ lv). split.
  - rewrite (get_neighbors_present g v lv Ev). now rewrite Hd.
  - apply in_or_app. apply in_app_or in Hv. destruct Hv as [Hv|Hv].
    + right. apply filter_In in Hv. destruct Hv as [_ Hv].
      rewrite Ev in Hv. now apply py_in_spec.
    + left. apply filter_In. split.
      * apply dict_get_in_keys. congruence.
      * rewrite Eu. now apply py_in_spec.
Qed.

Lemma fcc_scan_spec ns : forall seen nv queue,
  NoDup (seen ++ nv) ->
  (forall n, In n ns -> In n seen \/ In n nv) ->
  exists new nv',
    Graph.fcc_scan ns seen nv queue = Ok (seen ++ new, nv', queue ++ new)
    /\ Permutation (new ++ nv') nv
    /\ (forall n, In n ns -> In n (seen ++ new)).
Proof.
  induction ns as [|n ns IH]; intros seen nv queue Hnd Hns; simpl.
  - exists [], nv. rewrite !app_nil_r. repeat split; auto. intros n [].
  - destruct (py_in n seen) eqn:Es.
    + apply py_in_spec in Es.
      destruct (IH seen nv queue Hnd) as (new & nv' & H1 & H2 & H3).
      { intros m Hm. apply Hns. now right. }
      exists new, nv'. repeat split; auto.
      intros m [<-|Hm]; auto. apply in_or_app. now left.
    + apply py_in_false in Es.
      assert (Hn : In n nv) by (destruct (Hns n); [now left|tauto|auto]).
      rewrite (proj2 (py_in_spec n nv) Hn).
      pose proof (list_remove_perm n nv Hn) as Hp.
      destruct (IH (seen ++ [n]) (list_remove n nv) (queue ++ [n]))
        as (new & nv' & H1 & H2 & H3).
      * rewrite <- app_assoc. simpl.
        eapply Permutation_NoDup; [|exact Hnd].
        apply Permutation_app_head. now symmetry.
      * intros m Hm. destruct (String.eqb_spec m n) as [->|Hne].
        -- left. apply in_or_app. right. now left.
        -- destruct (Hns m) as [H|H]; [now right| |].
           ++ left. apply in_or_app. now left.
           ++ right. now apply list_remove_other.
      * exists (n :: new), nv'. rewrite H1, <- !app_assoc. simpl.
        repeat split.
        -- rewrite <- Hp. now constructor.
        -- intros m [<-|Hm].
           ++ apply in_or_app. right. now left.
           ++ specialize (H3 m Hm). now rewrite <- app_assoc in H3.
Qed.

Section Components.
Variable g : Graph.t.
Hypothesis g_undirected : Graph.is_directed g = false.
Hypothesis g_closed : closed g.

Section OneComponent.
(** [U] holds the vertices not yet in a component when a search starts,
    [done] those of the components found so far. *)
Variables U done : list vid.
Hypothesis U_nodup : NoDup U.
Hypothesis U_known : incl U (dict_keys (Graph.vertex_dict g)).
Hypothesis K_split :
  forall n, In n (dict_keys (Graph.vertex_dict g)) -> In n U \/ In n done.
Hypothesis U_fresh : forall x, In x U -> ~ In x done.
Hypothesis done_closed :
  forall u v, In u done -> adjacent g u v -> In v done.

Lemma fcc_bfs_spec : forall fuel seen nv queue out,
  seen = out ++ queue ->
  Permutation (seen ++ nv) U ->
  (forall u v, In u out -> adjacent g u v -> In v seen) ->
  length queue + length nv <= fuel ->
  exists rest nv',
    Graph.fcc_bfs fuel g seen nv queue = Ok (seen ++ rest, nv')
    /\ Permutation ((seen ++ rest) ++ nv') U
    /\ (forall u v, In u (seen ++ rest) -> adjacent g u v ->
                    In v (seen ++ rest)).
Proof.
  induction fuel as [|fuel IH]; intros seen nv queue out Hsq Hperm Hout Hfuel;
    destruct queue as [|cur queue]; try (simpl in Hfuel; lia).
  - exists [], nv. rewrite app_nil_r in *. subst out. simpl. auto.
  - exists [], nv. rewrite app_nil_r in *. subst out. simpl. auto.
  - cbn [Graph.fcc_bfs].
    assert (Hcs : In cur seen).
    { rewrite Hsq. apply in_or_app. right. now left. }
    assert (HcU : In cur U).
    { eapply Permutation_in; [exact Hperm|]. apply in_or_app. now left. }
    destruct (get_neighbors_closed g g_closed cur (U_known cur HcU))
      as (ns & Hns & Hnsk).
    rewrite Hns. simpl.
    assert (Hnd : NoDup (seen ++ nv)).
    { eapply Permutation_NoDup; [symmetry; exact Hperm|exact U_nodup]. }
    destruct (fcc_scan_spec ns seen nv queue Hnd)
      as (new & nv' & H1 & H2 & H3).
    { intros n Hn. destruct (K_split n (Hnsk n Hn)) as [HU|Hd].
      - apply in_app_or. eapply Permutation_in; [symmetry; exact Hperm|auto].
      - exfalso. apply (U_fresh cur HcU).
        apply (done_closed n cur Hd).
        apply adjacent_sym; auto. exists ns. auto. }
    rewrite H1. simpl.
    destruct (IH (seen ++ new) nv' (queue ++ new) (out ++ [cur]))
      as (rest & nv'' & R1 & R2 & R3).
    + rewrite Hsq, <- !app_assoc. reflexivity.
    + rewrite <- app_assoc, H2. exact Hperm.
    + intros u v Hu Hadj. apply in_app_or in Hu.
      destruct Hu as [Hu|[<-|[]]].
      * apply in_or_app. left. eapply Hout; eauto.
      * apply H3. destruct Hadj as (ns' & Hns' & Hv). congruence.
    + apply Permutation_length in H2. rewrite !length_app in *.
      simpl in Hfuel. lia.
    + exists (new ++ rest), nv''. rewrite app_assoc. auto.
Qed.

End OneComponent.

Lemma fcc_loop_spec : forall fuel nv comps,
  NoDup (dict_keys (Graph.vertex_dict g)) ->
  Permutation (nv ++ concat comps) (dict_keys (Graph.vertex_dict g)) ->
  (forall u v, In u (concat comps) -> adjacent g u v ->
               In v (concat comps)) ->
  length nv <= fuel ->
  exists cs,
    Graph.fcc_loop fuel g nv comps = Ok cs
    /\ Permutation (concat cs) (dict_keys (Graph.vertex_dict g)).
Proof.
  induction fuel as [|fuel IH]; intros nv comps HK Hperm Hclosed Hfuel;
    pose proof (list_pop_spec nv) as Hpop;
    cbn [Graph.fcc_loop];
    destruct (list_pop nv) as [[start nv']|].
  - subst nv. rewrite length_app in Hfuel. simpl in Hfuel. lia.
  - subst nv. exists comps. auto.
  - subst nv.
    assert (HU : Permutation ((start :: nv') ++ concat comps)
                   (dict_keys (Graph.vertex_dict g))).
    { rewrite <- Hperm. apply Permutation_app_tail.
      apply Permutation_cons_append. }
    assert (Hnd : NoDup ((start :: nv') ++ concat comps)).
    { eapply Permutation_NoDup; [symmetry; exact HU|exact HK]. }
    destruct (fcc_bfs_spec (start :: nv') (concat comps))
      with (fuel := S (length nv')) (seen := [start]) (nv := nv')
           (queue := [start]) (out := @nil vid)
      as (rest & nv'' & R1 & R2 & R3).
    + eapply NoDup_app_remove_r; eauto.
    + intros x Hx. eapply Permutation_in; [exact HU|].
      apply in_or_app. now left.
    + intros n Hn. apply in_app_or.
      eapply Permutation_in; [symmetry; exact HU|exact Hn].
    + intros x Hx Hd. eapply NoDup_app_disjoint; eauto.
    + exact Hclosed.
    + reflexivity.
    + reflexivity.
    + intros u v [].
    + simpl. lia.
    + rewrite R1. remember ([start] ++ rest) as comp eqn:Ecomp.
      assert (Hcc : concat (comps ++ [comp]) = concat comps ++ comp).
      { rewrite concat_app. simpl. now rewrite app_nil_r. }
      cbn [bind]. apply IH; auto.
      * rewrite Hcc, <- HU, <- R2, app_assoc.
        etransitivity; [apply Permutation_app_comm|].
        now rewrite app_assoc.
      * intros u v Hu Hadj. rewrite Hcc in *. apply in_or_app.
        apply in_app_or in Hu. destruct Hu as [Hu|Hu]; [left|right]; eauto.
      * apply Permutation_length in R2. rewrite Ecomp in R2.
        rewrite !length_app in *. simpl in *. lia.
  - subst nv. exists comps. auto.
Qed.

End Components.

Lemma NoDup_concat_disjoint (cs : list (list vid)) :
  NoDup (concat cs) -> pairwise_disjoint cs.
Proof.
  induction cs as [|c cs IH]; simpl; intros Hnd; constructor.
  - apply Forall_forall. intros c2 Hc2 v Hv Hv2.
    apply (NoDup_app_disjoint c (concat cs) v Hnd Hv).
    apply in_concat. eauto.
  - apply IH. eapply NoDup_app_remove_l; eauto.
Qed.

(** C4, as the code has it: on an undirected graph whose stored neighbour
    ids are all vertices, [find_connected_components] returns a list of
    components; every vertex lies in one of them, they hold vertices only,
    and no vertex lies in two of them. *)
Theorem find_connected_components_partitions :
  forall g,
    Graph.is_directed g = false ->
    closed g ->
    NoDup (dict_keys (Graph.vertex_dict g)) ->
    exists cs,
      Graph.find_connected_components g = Ok cs
      /\ (forall v, In v (dict_keys (Graph.vertex_dict g)) <->
                    exists c, In c cs /\ In v c)
      /\ pairwise_disjoint cs
      /\ Permutation (concat cs) (dict_keys (Graph.vertex_dict g)).
Proof.
  intros g Hd Hc HK. unfold Graph.find_connected_components.
  destruct (fcc_loop_spec g Hd Hc
              (length (dict_keys (Graph.vertex_dict g)))
              (dict_keys (Graph.vertex_dict g)) [])
    as (cs & H1 & H2).
  - exact HK.
  - simpl. now rewrite app_nil_r.
  - intros u v [].
  - apply le_n.
  - exists cs. repeat split; auto.
    + intros Hv. apply in_concat.
      eapply Permutation_in; [symmetry; exact H2|exact Hv].
    + intros Hv. apply in_concat in Hv.
      eapply Permutation_in; [exact H2|exact Hv].
    + apply NoDup_concat_disjoint.
      eapply Permutation_NoDup; [symmetry; exact H2|exact HK].
Qed.

Lemma find_connected_components_partitions_witness :
  exists cs,
    Graph.find_connected_components (g_line false) = Ok cs
    /\ (forall v, In v (dict_keys (Graph.vertex_dict (g_line false))) <->
                  exists c, In c cs /\ In v c)
    /\ pairwise_disjoint cs
    /\ Permutation (concat cs) (dict_keys (Graph.vertex_dict (g_line false))).
Proof.
  apply (find_connected_components_partitions (g_line false)).
  - reflexivity.
  - apply closedb_sound. reflexivity.
  - simpl. repeat constructor; simpl; intuition discriminate.
Defined.

(** C4 as stated fails on a directed graph: with the single edge A -> B,
    B is taken first as a component of its own, and the search from A then
    tries to remove B from the list of unvisited vertices once more. *)
Lemma find_connected_components_directed_counterexample :
  build_graph true ["A"; "B"] [("A", "B")] = Ok g_arrow
  /\ Graph.find_connected_components g_arrow = Raise ValueError.
Proof. split; reflexivity. Qed.

(** ** Connectivity and spanning trees *)

Lemma link_sym T a b : link T a b -> link T b a.
Proof. intros [w [H|H]]; exists w; auto. Qed.

Lemma link_incl T T' a b : incl T T' -> link T a b -> link T' a b.
Proof. intros Hi [w [H|H]]; exists w; [left|right]; auto. Qed.

Lemma conn_trans T x y z : conn T x y -> conn T y z -> conn T x z.
Proof.
  intros Hxy Hyz. induction Hyz as [|z1 z2 H IH Hl]; auto.
  eapply conn_step; eauto.
Qed.

Lemma conn_link T a b : link T a b -> conn T a b.
Proof. intros H. eapply conn_step; [apply conn_refl|exact H]. Qed.

Lemma conn_sym T x y : conn T x y -> conn T y x.
Proof.
  induction 1 as [|y z H IH Hl]; [apply conn_refl|].
  eapply conn_trans; [|exact IH]. apply conn_link. now apply link_sym.
Qed.

(** Connectivity grows with whatever links the edges. *)
Lemma conn_sub T (R : vid -> vid -> Prop) x y :
  (forall a, R a a) ->
  (forall a b c, R a b -> R b c -> R a c) ->
  (forall a b, link T a b -> R a b) ->
  conn T x y -> R x y.
Proof.
  intros Hr Ht Hl. induction 1 as [|y z H IH Hyz]; eauto.
Qed.

Lemma conn_incl T T' x y : incl T T' -> conn T x y -> conn T' x y.
Proof.
  intros Hi. apply conn_sub.
  - intros a. apply conn_refl.
  - intros a b c. apply conn_trans.
  - intros a b H. apply conn_link. eapply link_incl; eauto.
Qed.

Lemma total_weight_app T1 T2 :
  total_weight (T1 ++ T2) = (total_weight T1 + total_weight T2)%Z.
Proof.
  induction T1 as [|e T1 IH]; simpl; [reflexivity|].
  unfold total_weight in *. simpl. rewrite IH. lia.
Qed.

Lemma last_cons_default {A} (p : list A) y x : last (y :: p) x = last p y.
Proof.
  revert y x. induction p as [|z p IH]; intros y x; [reflexivity|].
  change (last (z :: p) x = last (z :: p) y). now rewrite !IH.
Qed.

Lemma chainT_conn T p x :
  chainT T (x :: p) -> conn T x (last p x).
Proof.
  revert x. induction p as [|y p IH]; intros x Hc.
  - apply conn_refl.
  - destruct Hc as [Hl Hc]. eapply conn_trans; [apply conn_link; exact Hl|].
    specialize (IH y Hc). now rewrite last_cons_default.
Qed.

Lemma chainT_app_l T p q : chainT T (p ++ q) -> chainT T p.
Proof.
  induction p as [|x p IH]; [simpl; auto|].
  destruct p as [|y p]; [simpl; auto|].
  change (link T x y /\ chainT T ((y :: p) ++ q) ->
          link T x y /\ chainT T (y :: p)).
  intros [H1 H2]. auto.
Qed.

Lemma chainT_app_r T p q : chainT T (p ++ q) -> chainT T q.
Proof.
  induction p as [|x p IH]; [simpl; auto|].
  destruct p as [|y p].
  - simpl. destruct q; tauto.
  - change (link T x y /\ chainT T ((y :: p) ++ q) -> chainT T q).
    intros [_ H]. auto.
Qed.

(** A chain that stays away from a vertex [c] survives the loss of edges
    touching [c]. *)
Lemma chainT_avoid T T' c p :
  (forall a b w, In (a, b, w) T -> a <> c -> b <> c -> In (a, b, w) T') ->
  ~ In c p -> chainT T p -> chainT T' p.
Proof.
  intros Hkeep. induction p as [|x p IH]; [simpl; auto|].
  destruct p as [|y p]; [simpl; auto|].
  intros Hc [Hl Hch]. split.
  - destruct Hl as [w [H|H]]; exists w; [left|right]; apply Hkeep; auto;
      intros ->; apply Hc; simpl; auto.
  - apply IH; auto. intros H. apply Hc. now right.
Qed.

(** Two connected vertices are joined by a chain without repeated vertex. *)
Lemma conn_simple_chain T x y :
  conn T x y ->
  exists p, chainT T (p ++ [y]) /\ hd y p = x /\ NoDup (p ++ [y]).
Proof.
  induction 1 as [|y z H (p & Hc & Hh & Hnd) Hl].
  - exists []. simpl. repeat split. constructor; [intros []|constructor].
  - destruct (in_dec string_dec z (p ++ [y])) as [Hin|Hout].
    + (* [z] is met before: stop there *)
      apply in_split in Hin. destruct Hin as (l1 & l2 & E).
      match type of E with
      | _ = ?r => assert (E2 : r = (l1 ++ [z]) ++ l2)
                    by now rewrite <- app_assoc
      end.
      exists l1. repeat split.
      * rewrite E, E2 in Hc. eapply chainT_app_l; eauto.
      * destruct l1 as [|a l1]; simpl.
        -- destruct p as [|b p]; simpl in *.
           ++ injection E as <- _. exact Hh.
           ++ injection E as -> _. exact Hh.
        -- destruct p as [|b p]; simpl in *.
           ++ injection E as <- E'. now destruct l1.
           ++ injection E as -> _. exact Hh.
      * rewrite E, E2 in Hnd. eapply NoDup_app_remove_r; eauto.
    + exists (p ++ [y]). repeat split.
      * clear - Hc Hl. induction p as [|a p IH].
        -- simpl. auto.
        -- destruct p as [|b p].
           ++ simpl in *. tauto.
           ++ change (link T a b /\ chainT T (((b :: p) ++ [y]) ++ [z])).
              destruct Hc as [H1 H2]. split; auto.
      * destruct p; simpl in *; auto.
      * apply NoDup_app; auto.
        -- constructor; [intros []|constructor].
        -- intros a Ha [<-|[]]. contradiction.
Qed.

(** A chain from one side of a cut to the other has a step across it. *)
Lemma chainT_crossing (S : vid -> bool) p :
  forall x y,
    S x = true -> S y = false ->
    exists p1 a b p2,
      (x :: p) ++ [y] = p1 ++ a :: b :: p2 /\ S a = true /\ S b = false.
Proof.
  induction p as [|z p IH]; intros x y Hx Hy.
  - exists [], x, y, []. auto.
  - destruct (S z) eqn:Hz.
    + destruct (IH z y Hz Hy) as (p1 & a & b & p2 & E & Ha & Hb).
      exists (x :: p1), a, b, p2. simpl in *. rewrite E. auto.
    + exists [], x, z, (p ++ [y]). auto.
Qed.

Lemma chainT_conn_hd T p y : chainT T (p ++ [y]) -> conn T (hd y p) y.
Proof.
  induction p as [|x p IH]; [intros _; apply conn_refl|].
  destruct p as [|z p].
  - simpl. intros [H _]. now apply conn_link.
  - change (link T x z /\ chainT T ((z :: p) ++ [y]) -> conn T x y).
    intros [H1 H2]. eapply conn_trans; [apply conn_link; exact H1|].
    exact (IH H2).
Qed.

Lemma tail_of_split {A} (l p1 p2 : list A) v a b :
  l ++ [v] = p1 ++ a :: b :: p2 -> exists q, b :: p2 = q ++ [v].
Proof.
  intros E. destruct (exists_last (l := b :: p2)) as (q & z & Hq);
    [discriminate|].
  exists q. rewrite Hq in *.
  replace (p1 ++ a :: q ++ [z]) with ((p1 ++ a :: q) ++ [z]) in E
    by (rewrite <- app_assoc; reflexivity).
  apply app_inj_tail in E. destruct E as [_ ->]. reflexivity.
Qed.

Section Exchange.
Variable V : list vid.
Variable E : list WeightedGraph.edge.

(** The cut property, in the form the two algorithms use it: if the chosen
    edges [A] complete to a spanning tree [A ++ R] and do not cross a cut,
    a lightest edge [e] across the cut can join them at no cost. *)
Lemma exchange (S : vid -> bool) A R u v w :
  spanning V E (A ++ R) ->
  (forall a b w', In (a, b, w') A -> S a = S b) ->
  In (u, v, w) E -> In u V -> In v V ->
  S u = true -> S v = false ->
  (forall a b w', In (a, b, w') E -> S a <> S b -> (w <= w')%Z) ->
  exists R',
    spanning V E ((A ++ [(u, v, w)]) ++ R')
    /\ (total_weight ((A ++ [(u, v, w)]) ++ R') <= total_weight (A ++ R))%Z.
Proof.
  intros (Hincl & Hlen & Hconn) HA He Hu Hv HSu HSv Hlight.
  destruct (conn_simple_chain _ _ _ (Hconn u v Hu Hv))
    as (p & Hch & Hhd & Hnd).
  destruct p as [|u' p]; simpl in Hhd; [congruence|]. subst u'.
  destruct (chainT_crossing S p u v HSu HSv)
    as (p1 & a & b & p2 & Esplit & HSa & HSb).
  rewrite Esplit in Hch, Hnd.
  assert (Hab : link (A ++ R) a b).
  { apply chainT_app_r in Hch. destruct Hch as [H _]. exact H. }
  (* the element of the tree that realises the step across the cut *)
  assert (Hel : exists e', In e' R /\ In e' E
                 /\ (e' = (a, b, snd e') \/ e' = (b, a, snd e'))
                 /\ (w <= snd e')%Z).
  { destruct Hab as [w' [H|H]].
    - exists (a, b, w'). split; [|split; [auto|split; [now left|]]].
      + apply in_app_or in H. destruct H as [H|H]; auto.
        apply HA in H. congruence.
      + apply (Hlight a b w'); auto. congruence.
    - exists (b, a, w'). split; [|split; [auto|split; [now right|]]].
      + apply in_app_or in H. destruct H as [H|H]; auto.
        apply HA in H. congruence.
      + apply (Hlight b a w'); auto. congruence. }
  destruct Hel as (e' & HeR & HeE & Hends & Hw).
  apply in_split in HeR. destruct HeR as (R1 & R2 & ER).
  exists (R1 ++ R2).
  set (T' := (A ++ [(u, v, w)]) ++ R1 ++ R2).
  assert (Hkeep : forall c, (c = a \/ c = b) ->
            forall a0 b0 w0, In (a0, b0, w0) (A ++ R) ->
                             a0 <> c -> b0 <> c -> In (a0, b0, w0) T').
  { intros c Hc a0 b0 w0 Hin Ha0 Hb0. unfold T'. rewrite ER in Hin.
    apply in_app_or in Hin. destruct Hin as [Hin|Hin].
    - apply in_or_app. left. apply in_or_app. now left.
    - apply in_or_app. right. apply in_app_or in Hin.
      destruct Hin as [Hin|[Hin|Hin]].
      + apply in_or_app. now left.
      + exfalso. destruct Hends as [Hends|Hends]; rewrite Hends in Hin;
          injection Hin as <- <- _; destruct Hc; congruence.
      + apply in_or_app. now right. }
  assert (Hua : conn T' u a).
  { assert (Hpre : chainT (A ++ R) (p1 ++ [a])).
    { replace (p1 ++ a :: b :: p2) with ((p1 ++ [a]) ++ b :: p2) in Hch
        by (rewrite <- app_assoc; reflexivity).
      eapply chainT_app_l; eauto. }
    assert (Hb : ~ In b (p1 ++ [a])).
    { intros Hin.
      replace (p1 ++ a :: b :: p2) with ((p1 ++ [a]) ++ b :: p2) in Hnd
        by (rewrite <- app_assoc; reflexivity).
      eapply NoDup_app_disjoint; eauto. now left. }
    pose proof (chainT_conn_hd T' p1 a
                  (chainT_avoid _ T' b _ (Hkeep b (or_intror eq_refl)) Hb Hpre))
      as Hc.
    replace (hd a p1) with u in Hc; [exact Hc|].
    destruct p1 as [|c p1]; simpl in *; congruence. }
  assert (Hbv : conn T' b v).
  { destruct (tail_of_split _ _ _ _ _ _ Esplit) as (q & Eq).
    assert (Hsuf : chainT (A ++ R) (b :: p2)).
    { replace (p1 ++ a :: b :: p2) with ((p1 ++ [a]) ++ b :: p2) in Hch
        by (rewrite <- app_assoc; reflexivity).
      eapply chainT_app_r; eauto. }
    assert (Ha : ~ In a (b :: p2)).
    { intros Hin. apply NoDup_app_remove_l in Hnd.
      apply NoDup_cons_iff in Hnd. tauto. }
    rewrite Eq in Hsuf, Ha.
    pose proof (chainT_conn_hd T' q v
                  (chainT_avoid _ T' a _ (Hkeep a (or_introl eq_refl)) Ha Hsuf))
      as Hc.
    replace (hd v q) with b in Hc; [exact Hc|].
    destruct q as [|c q]; simpl in *; congruence. }
  assert (Huv : conn T' u v).
  { apply conn_link. exists w. left. unfold T'.
    apply in_or_app. left. apply in_or_app. right. now left. }
  assert (Hab' : conn T' a b).
  { eapply conn_trans; [apply conn_sym; exact Hua|].
    eapply conn_trans; [exact Huv|apply conn_sym; exact Hbv]. }
  repeat split.
  - intros f Hf. apply in_app_or in Hf. destruct Hf as [Hf|Hf].
    + apply in_app_or in Hf. destruct Hf as [Hf|[<-|[]]]; auto.
      apply Hincl. apply in_or_app. now left.
    + apply Hincl. apply in_or_app. right. rewrite ER.
      apply in_app_or in Hf. apply in_or_app.
      destruct Hf; [now left|right; now right].
  - unfold T'. rewrite <- Hlen, ER. repeat (rewrite length_app; simpl). lia.
  - intros x y Hx Hy. specialize (Hconn x y Hx Hy). revert Hconn.
    apply conn_sub.
    + intros c. apply conn_refl.
    + intros c d f. apply conn_trans.
    + intros c d Hl.
      assert (Hcase : forall c d w0, In (c, d, w0) (A ++ R) ->
                conn T' c d).
      { intros c0 d0 w0 Hin. rewrite ER in Hin.
        apply in_app_or in Hin. destruct Hin as [Hin|Hin].
        - apply conn_link. exists w0. left. unfold T'.
          apply in_or_app. left. apply in_or_app. now left.
        - apply in_app_or in Hin. destruct Hin as [Hin|[Hin|Hin]].
          + apply conn_link. exists w0. left. unfold T'.
            apply in_or_app. right. apply in_or_app. now left.
          + destruct Hends as [Hends|Hends]; rewrite Hends in Hin;
              injection Hin as <- <- _; [exact Hab'|now apply conn_sym].
          + apply conn_link. exists w0. left. unfold T'.
            apply in_or_app. right. apply in_or_app. now right. }
      destruct Hl as [w0 [H|H]];
        [eapply Hcase; eauto | apply conn_sym; eapply Hcase; eauto].
  - unfold T'. rewrite ER, !total_weight_app.
    assert (H1 : total_weight [(u, v, w)] = w)
      by (unfold total_weight, WeightedGraph.edge_weight; simpl; lia).
    assert (H2 : total_weight (e' :: R2) = (snd e' + total_weight R2)%Z)
      by reflexivity.
    rewrite H1, H2. lia.
Qed.

Lemma mst_inv_nil : mst_inv V E [].
Proof. intros T HT. exists T. simpl. split; [exact HT|lia]. Qed.

Lemma mst_inv_step (S : vid -> bool) A u v w :
  mst_inv V E A ->
  (forall a b w', In (a, b, w') A -> S a = S b) ->
  In (u, v, w) E -> In u V -> In v V ->
  S u = true -> S v = false ->
  (forall a b w', In (a, b, w') E -> S a <> S b -> (w <= w')%Z) ->
  mst_inv V E (A ++ [(u, v, w)]).
Proof.
  intros HI HA He Hu Hv HSu HSv Hlight T HT.
  destruct (HI T HT) as (R & HR & HwR).
  destruct (exchange S A R u v w HR HA He Hu Hv HSu HSv Hlight)
    as (R' & HR' & HwR').
  exists R'. split; [exact HR'|lia].
Qed.

(** Two edge lists with the invariant and the size of a spanning tree, one
    of them a spanning tree: they weigh the same. *)
Lemma mst_inv_same_weight A B :
  mst_inv V E A -> mst_inv V E B ->
  S (length A) = length V -> spanning V E B ->
  total_weight A = total_weight B.
Proof.
  intros HA HB HlenA HspB.
  destruct (HA B HspB) as (R & (Hi & Hl & Hc) & HwA).
  assert (R = []).
  { rewrite length_app in Hl. destruct R; [reflexivity|simpl in Hl; lia]. }
  subst R. rewrite app_nil_r in *.
  destruct (HB A (conj Hi (conj Hl Hc))) as (R & (Hi' & Hl' & Hc') & HwB).
  assert (R = []).
  { destruct HspB as (_ & HlB & _). rewrite length_app in Hl'.
    destruct R; [reflexivity|simpl in Hl'; lia]. }
  subst R. rewrite app_nil_r in *. lia.
Qed.

End Exchange.

(** ** Union-find *)

Lemma root_of_fun pm x r r' : root_of pm x r -> root_of pm x r' -> r = r'.
Proof.
  intros H. revert r'. induction H as [x Hx|x p r Hx Hne Hr IH]; intros r' H'.
  - inversion H'; subst; congruence.
  - inversion H'; subst; [congruence|].
    apply IH. congruence.
Qed.

Lemma root_of_is_root pm x r : root_of pm x r -> dict_get pm r = Some r.
Proof. induction 1; auto. Qed.

Lemma find_sound fuel pm x r :
  WeightedGraph.find fuel pm x = Ok r -> root_of pm x r.
Proof.
  revert x. induction fuel as [|fuel IH]; intros x; simpl; [discriminate|].
  unfold dict_at. destruct (dict_get pm x) as [p|] eqn:E; simpl;
    [|discriminate].
  destruct (String.eqb_spec p x) as [->|Hne].
  - intros [= <-]. now constructor.
  - intros H. eapply root_up; eauto.
Qed.

Lemma find_complete pm (h : vid -> nat) :
  (forall x p, dict_get pm x = Some p -> p = x \/ h p < h x) ->
  forall fuel x r, root_of pm x r -> h x < fuel ->
                   WeightedGraph.find fuel pm x = Ok r.
Proof.
  intros Hh fuel. induction fuel as [|fuel IH]; intros x r Hr Hfuel; [lia|].
  simpl. unfold dict_at. inversion Hr as [y Hy|y p r0 Hy Hne Hp]; subst.
  - rewrite Hy. simpl. now rewrite String.eqb_refl.
  - rewrite Hy. simpl. destruct (String.eqb_spec p x); [congruence|].
    apply IH; auto. destruct (Hh x p Hy); [congruence|lia].
Qed.

Lemma root_of_exists pm (h : vid -> nat) :
  (forall x p, dict_get pm x = Some p ->
               In p (dict_keys pm) /\ (p = x \/ h p < h x)) ->
  forall x, In x (dict_keys pm) -> exists r, root_of pm x r.
Proof.
  intros Hh x. remember (h x) as n eqn:En. revert x En.
  induction n as [n IH] using lt_wf_ind. intros x En Hx.
  apply dict_get_in_keys in Hx.
  destruct (dict_get pm x) as [p|] eqn:E; [|congruence].
  destruct (Hh x p E) as [Hp [->|Hlt]].
  - exists x. now constructor.
  - destruct (String.eqb_spec p x) as [->|Hne]; [exists x; now constructor|].
    destruct (IH (h p) ltac:(lia) p eq_refl Hp) as [r Hr].
    exists r. eapply root_up; eauto.
Qed.

Section UnionFind.
Variable V : list vid.
Variable pm : dict vid.
Variable A : list WeightedGraph.edge.
Hypothesis I : uf_inv V pm A.

Lemma uf_find x :
  In x V ->
  exists r, WeightedGraph.find (WeightedGraph.find_fuel pm) pm x = Ok r
            /\ root_of pm x r /\ In r V.
Proof.
  intros Hx. destruct (uf_rank _ _ _ I) as [h Hh].
  rewrite <- (uf_keys _ _ _ I) in Hx.
  destruct (root_of_exists pm h) with (x := x) as [r Hr]; auto.
  { intros y p Hy. destruct (Hh y p Hy) as (H1 & _ & H3).
    rewrite (uf_keys _ _ _ I). split; auto. tauto. }
  exists r. split; [|split; auto].
  - apply (find_complete pm h); auto.
    + intros y p Hy. destruct (Hh y p Hy) as (_ & _ & H3). tauto.
    + apply dict_get_in_keys in Hx.
      destruct (dict_get pm x) as [p|] eqn:E; [|congruence].
      destruct (Hh x p E) as (_ & H2 & _).
      pose proof (uf_count _ _ _ I) as Hc.
      unfold WeightedGraph.find_fuel.
      assert (length pm = length V).
      { rewrite <- (uf_keys _ _ _ I). unfold dict_keys.
        now rewrite length_map. }
      lia.
  - pose proof (root_of_is_root _ _ _ Hr) as Hrr.
    rewrite <- (uf_keys _ _ _ I). apply dict_get_in_keys. congruence.
Qed.

End UnionFind.

Lemma root_of_set pm r1 r2 x r :
  dict_get pm r1 = Some r1 -> dict_get pm r2 = Some r2 -> r1 <> r2 ->
  root_of pm x r ->
  root_of (dict_set pm r1 r2) x (if String.eqb r r1 then r2 else r).
Proof.
  intros H1 H2 Hne. induction 1 as [x Hx|x p r Hx Hp Hr IH].
  - destruct (String.eqb_spec x r1) as [->|Hxr].
    + apply root_up with r2.
      * apply dict_get_set_same.
      * congruence.
      * apply root_self. rewrite dict_get_set_other; auto.
    + apply root_self. rewrite dict_get_set_other; auto.
  - apply root_up with p; auto.
    rewrite dict_get_set_other; auto. congruence.
Qed.

Lemma nroots_set pm r1 r2 :
  dict_get pm r1 = Some r1 -> r1 <> r2 ->
  S (nroots (dict_set pm r1 r2)) = nroots pm.
Proof.
  unfold nroots. induction pm as [|[k p] pm IH]; simpl; [discriminate|].
  destruct (String.eqb_spec r1 k) as [->|Hne]; simpl.
  - intros [= ->] Hr. rewrite String.eqb_refl.
    destruct (String.eqb_spec r2 k); [congruence|]. reflexivity.
  - intros H Hr. destruct (String.eqb p k); simpl; rewrite <- IH; auto.
Qed.

Lemma root_of_in_keys pm x r : root_of pm x r -> In x (dict_keys pm).
Proof.
  intros H. apply dict_get_in_keys. inversion H; congruence.
Qed.

Lemma uf_union V pm A u v w r1 r2 :
  uf_inv V pm A ->
  root_of pm u r1 -> root_of pm v r2 -> r1 <> r2 ->
  uf_inv V (dict_set pm r1 r2) (A ++ [(u, v, w)]).
Proof.
  intros I Hu Hv Hne.
  pose proof (root_of_is_root _ _ _ Hu) as Hr1.
  pose proof (root_of_is_root _ _ _ Hv) as Hr2.
  assert (Hroot' : forall x r, root_of pm x r ->
            root_of (dict_set pm r1 r2) x (if String.eqb r r1 then r2 else r))
    by (intros; now apply root_of_set).
  assert (Hback : forall x r', root_of (dict_set pm r1 r2) x r' ->
            exists r, root_of pm x r
                      /\ r' = if String.eqb r r1 then r2 else r).
  { intros x r' Hx. pose proof (root_of_in_keys _ _ _ Hx) as Hk.
    rewrite (dict_keys_set_present pm r1 r2 r1 Hr1), (uf_keys _ _ _ I) in Hk.
    destruct (uf_find V pm A I x Hk) as (r & _ & Hr & _).
    exists r. split; auto. eapply root_of_fun; eauto. }
  constructor.
  - rewrite (dict_keys_set_present pm r1 r2 r1 Hr1). apply (uf_keys _ _ _ I).
  - destruct (uf_rank _ _ _ I) as [h Hh].
    exists (fun x =>
              match WeightedGraph.find (WeightedGraph.find_fuel pm) pm x with
              | Ok r => if String.eqb r r1 then S (h x) else h x
              | _ => h x
              end).
    intros x p Hx. rewrite dict_get_set in Hx.
    assert (HinV : forall y q, dict_get pm y = Some q -> In y V).
    { intros y q Hy. rewrite <- (uf_keys _ _ _ I).
      apply dict_get_in_keys. congruence. }
    assert (Hfind : forall y r, In y V -> root_of pm y r ->
              WeightedGraph.find (WeightedGraph.find_fuel pm) pm y = Ok r).
    { intros y r Hy Hr. destruct (uf_find V pm A I y Hy) as (r' & F & Hr' & _).
      rewrite F. f_equal. eapply root_of_fun; eauto. }
    rewrite length_app. cbn [length].
    destruct (String.eqb_spec x r1) as [->|Hx1].
    + injection Hx as <-.
      destruct (Hh r1 r1 Hr1) as (HV1 & Hb1 & Hc1).
      destruct (Hh r2 r2 Hr2) as (HV2 & Hb2 & Hc2).
      rewrite (Hfind r1 r1 HV1 (root_self _ _ Hr1)).
      rewrite (Hfind r2 r2 HV2 (root_self _ _ Hr2)).
      rewrite String.eqb_refl.
      destruct (String.eqb_spec r2 r1); [congruence|].
      split; [auto|]. split; [lia|]. right. split; [congruence|].
      destruct Hc2 as [[_ ->]|[? _]]; [lia|congruence].
    + destruct (Hh x p Hx) as (HVp & Hb & Hc).
      pose proof (HinV x p Hx) as HVx.
      destruct (uf_find V pm A I x HVx) as (r & F & Hr & _).
      rewrite F. split; [auto|].
      destruct Hc as [[-> Hz]|[Hpx Hlt]].
      * assert (r = x) by (eapply root_of_fun; eauto; now constructor).
        subst r. destruct (String.eqb_spec x r1); [congruence|].
        split; [lia|]. left. auto.
      * assert (Hrp : root_of pm p r).
        { inversion Hr; subst; [congruence|].
          assert (p = p0) by congruence. now subst. }
        rewrite (Hfind p r HVp Hrp).
        destruct (String.eqb r r1); split; try lia; right; split; auto; lia.
  - intros x y r' Hx Hy.
    destruct (Hback x r' Hx) as (rx & Hrx & Ex).
    destruct (Hback y r' Hy) as (ry & Hry & Ey).
    assert (Hmono : forall a b, conn A a b -> conn (A ++ [(u, v, w)]) a b).
    { intros a b. apply conn_incl. intros e He. apply in_or_app. now left. }
    assert (Huv : conn (A ++ [(u, v, w)]) u v).
    { apply conn_link. exists w. left. apply in_or_app. right. now left. }
    destruct (String.eqb_spec rx r1) as [->|Hx1];
      destruct (String.eqb_spec ry r1) as [->|Hy1]; subst r'.
    + apply Hmono. eapply (uf_sound _ _ _ I); eauto.
    + subst ry. eapply conn_trans; [|eapply conn_trans; [exact Huv|]].
      * apply Hmono. eapply (uf_sound _ _ _ I); eauto.
      * apply Hmono. eapply (uf_sound _ _ _ I); eauto.
    + subst rx. eapply conn_trans; [|eapply conn_trans;
                                       [apply conn_sym; exact Huv|]].
      * apply Hmono. eapply (uf_sound _ _ _ I); eauto.
      * apply Hmono. eapply (uf_sound _ _ _ I); eauto.
    + subst ry. apply Hmono. eapply (uf_sound _ _ _ I); eauto.
  - intros x y.
    apply (conn_sub _ (fun a b =>
             a = b \/ exists r, root_of (dict_set pm r1 r2) a r
                                /\ root_of (dict_set pm r1 r2) b r)).
    + intros a. now left.
    + intros a b c [->|(r & Ha & Hb)] [->|(r' & Hb' & Hc)]; auto.
      * right. eauto.
      * right. eauto.
      * right. exists r. split; auto.
        now rewrite (root_of_fun _ _ _ _ Hb Hb').
    + assert (Hold : forall a b, conn A a b ->
                a = b \/ exists r, root_of (dict_set pm r1 r2) a r
                                   /\ root_of (dict_set pm r1 r2) b r).
      { intros a b Hab. destruct (uf_complete _ _ _ I a b Hab)
          as [->|(r & Ha & Hb)]; [now left|right]. eauto. }
      assert (Hnew : exists r, root_of (dict_set pm r1 r2) u r
                               /\ root_of (dict_set pm r1 r2) v r).
      { exists r2. split.
        - pose proof (Hroot' u r1 Hu) as H. now rewrite String.eqb_refl in H.
        - pose proof (Hroot' v r2 Hv) as H.
          destruct (String.eqb_spec r2 r1); [congruence|exact H]. }
      intros a b [w0 [H|H]]; apply in_app_or in H;
        destruct H as [H|[H|[]]].
      * apply Hold, conn_link. exists w0. now left.
      * injection H as <- <- _. now right.
      * apply Hold, conn_link. exists w0. now right.
      * injection H as <- <- _. right.
        destruct Hnew as (r & ? & ?). eauto.
  - rewrite length_app. simpl.
    pose proof (nroots_set pm r1 r2 Hr1 Hne).
    pose proof (uf_count _ _ _ I). lia.
Qed.

(** ** Kruskal's algorithm *)

Lemma In_dict_get {V} (d : dict V) k v :
  NoDup (dict_keys d) -> In (k, v) d -> dict_get d k = Some v.
Proof.
  induction d as [|[k' v'] d IH]; simpl; [tauto|].
  intros Hnd [H|H].
  - injection H as -> ->. now rewrite String.eqb_refl.
  - apply NoDup_cons_iff in Hnd as [Hn Hnd].
    destruct (String.eqb_spec k k') as [->|]; auto.
    exfalso. apply Hn. change (In (fst (k', v)) (map fst d)).
    now apply in_map.
Qed.

Lemma insert_edge_perm e l :
  Permutation (WeightedGraph.insert_edge e l) (e :: l).
Proof.
  induction l as [|e' l IH]; simpl; [reflexivity|].
  destruct (WeightedGraph.edge_weight e <=? WeightedGraph.edge_weight e')%Z;
    [reflexivity|].
  rewrite IH. apply perm_swap.
Qed.

Lemma sort_edges_perm l : Permutation (WeightedGraph.sort_edges l) l.
Proof.
  induction l as [|e l IH]; simpl; [reflexivity|].
  rewrite insert_edge_perm. now constructor.
Qed.

Lemma insert_edge_sorted e l :
  by_weight l -> by_weight (WeightedGraph.insert_edge e l).
Proof.
  unfold by_weight. induction 1 as [|e' l Hs IH Hall]; simpl.
  - repeat constructor.
  - destruct (WeightedGraph.edge_weight e <=? WeightedGraph.edge_weight e')%Z
      eqn:Ew.
    + apply Z.leb_le in Ew. constructor.
      * now constructor.
      * constructor; [exact Ew|].
        eapply Forall_impl; [|exact Hall]. simpl. intros. lia.
    + apply Z.leb_gt in Ew. constructor; [exact IH|].
      eapply Permutation_Forall; [symmetry; apply insert_edge_perm|].
      constructor; [lia|exact Hall].
Qed.

Lemma sort_edges_sorted l : by_weight (WeightedGraph.sort_edges l).
Proof.
  induction l as [|e l IH]; simpl; [constructor|].
  now apply insert_edge_sorted.
Qed.

Lemma nroots_ge_1 pm r : dict_get pm r = Some r -> 1 <= nroots pm.
Proof.
  intros H. apply dict_get_In in H. unfold nroots.
  assert (Hin : In (r, r) (filter (fun kp => String.eqb (snd kp) (fst kp)) pm)).
  { apply filter_In. split; auto. simpl. apply String.eqb_refl. }
  destruct (filter (fun kp => String.eqb (snd kp) (fst kp)) pm);
    [destruct Hin|simpl; lia].
Qed.

Lemma nodup_constant_short {A} (l : list A) c :
  NoDup l -> (forall x, In x l -> x = c) -> length l <= 1.
Proof.
  intros Hnd Hc. destruct l as [|a [|b l]]; simpl; try lia.
  exfalso. apply NoDup_cons_iff in Hnd as [Hn _]. apply Hn.
  rewrite (Hc a), (Hc b); simpl; auto.
Qed.

Lemma nroots_le_1 pm r0 :
  NoDup (dict_keys pm) ->
  (forall k, dict_get pm k = Some k -> k = r0) ->
  nroots pm <= 1.
Proof.
  intros Hnd Hr. unfold nroots.
  apply nodup_constant_short with (c := (r0, r0)).
  - apply NoDup_filter. eapply NoDup_map_inv. exact Hnd.
  - intros [k p] Hin. apply filter_In in Hin. destruct Hin as [Hin Hkp].
    simpl in Hkp. apply String.eqb_eq in Hkp. subst p.
    rewrite (Hr k); auto. now apply In_dict_get.
Qed.

Lemma inhabited_list {A} (l : list A) : l <> [] -> exists x, In x l.
Proof. destruct l as [|x l]; [congruence|]. exists x. now left. Qed.

Section KruskalLoop.
Variable g : WeightedGraph.t.
Variable V : list vid.
Variable E : list WeightedGraph.edge.
Hypothesis V_len : length (WeightedGraph.vertex_dict g) = length V.
Hypothesis E_in_V : forall a b w, In (a, b, w) E -> In a V /\ In b V.
Hypothesis V_nodup : NoDup V.
Hypothesis G_conn : forall x y, In x V -> In y V -> conn E x y.
Hypothesis V_inhabited : V <> [].

Lemma kruskal_size pm A :
  uf_inv V pm A -> S (length A) <= length V.
Proof.
  intros I. destruct (inhabited_list V V_inhabited) as [x0 Hx0].
  destruct (uf_find _ pm A I x0 Hx0) as (r & _ & Hr & _).
  pose proof (nroots_ge_1 pm r (root_of_is_root _ _ _ Hr)).
  pose proof (uf_count _ _ _ I). lia.
Qed.

(** When every edge of a connected graph joins vertices already connected
    by [A], [A] has the size of a spanning tree. *)
Lemma kruskal_exhausted pm A :
  uf_inv V pm A ->
  (forall a b w, In (a, b, w) E -> conn A a b) ->
  length V <= S (length A).
Proof.
  intros I Hall.
  assert (HA : forall x y, In x V -> In y V -> conn A x y).
  { intros x y Hx Hy. specialize (G_conn x y Hx Hy). revert G_conn.
    apply (conn_sub _ (conn A)).
    - intros a. apply conn_refl.
    - intros a b c. apply conn_trans.
    - intros a b [w [H|H]]; [|apply conn_sym]; eapply Hall; eauto. }
  destruct (inhabited_list V V_inhabited) as [x0 Hx0].
  destruct (uf_find _ pm A I x0 Hx0) as (r0 & _ & Hr0 & _).
  assert (Hle : nroots pm <= 1).
  { apply (nroots_le_1 pm r0).
    - now rewrite (uf_keys _ _ _ I).
    - intros k Hk.
      assert (HkV : In k V).
      { rewrite <- (uf_keys _ _ _ I). apply dict_get_in_keys. congruence. }
      destruct (uf_complete _ _ _ I k x0 (HA k x0 HkV Hx0))
        as [->|(r & Hkr & Hxr)].
      + apply (root_of_fun pm x0); [apply root_self; exact Hk|exact Hr0].
      + rewrite <- (root_of_fun _ _ _ _ Hxr Hr0).
        apply (root_of_fun pm k); [apply root_self; exact Hk|exact Hkr]. }
  pose proof (uf_count _ _ _ I). lia.
Qed.

Lemma kruskal_loop_spec : forall remaining processed pm A,
  kruskal_inv V E processed remaining pm A ->
  exists T,
    WeightedGraph.kruskal_loop g remaining pm A = Ok T
    /\ mst_inv V E T /\ S (length T) = length V.
Proof.
  pose proof V_len as Hlen.
  induction remaining as [|e remaining IH]; intros processed pm A I;
    cbn [WeightedGraph.kruskal_loop]; rewrite Hlen;
    pose proof (kruskal_size pm A (kr_uf _ _ _ _ _ _ I)) as Hsz;
    destruct (Z.ltb_spec (Z.of_nat (length A)) (Z.of_nat (length V) - 1))
      as [Hlt|Hge];
    try (exists A; split; [reflexivity|split; [apply (kr_mst _ _ _ _ _ _ I)|lia]]).
  - exfalso.
    assert (length V <= S (length A)); [|lia].
    apply (kruskal_exhausted pm A (kr_uf _ _ _ _ _ _ I)).
    intros a b w Hin.
    destruct (kr_all _ _ _ _ _ _ I _ Hin) as [H|[]].
    eapply (kr_done _ _ _ _ _ _ I); eauto.
  - destruct e as [[u v] w].
    assert (HeE : In (u, v, w) E) by (apply (kr_rem _ _ _ _ _ _ I); now left).
    destruct (E_in_V u v w HeE) as [HuV HvV].
    pose proof (kr_uf _ _ _ _ _ _ I) as Iuf.
    destruct (uf_find V pm A Iuf u HuV) as (r1 & F1 & R1 & _).
    destruct (uf_find V pm A Iuf v HvV) as (r2 & F2 & R2 & _).
    rewrite F1, F2. cbn [bind].
    pose proof (kr_sorted _ _ _ _ _ _ I) as Hsorted.
    apply StronglySorted_inv in Hsorted. destruct Hsorted as [Hs' Hmin].
    destruct (String.eqb_spec r1 r2) as [->|Hne]; cbn [negb].
    + (* both ends in one component: the edge is skipped *)
      apply (IH (processed ++ [(u, v, w)])). constructor; auto.
      * intros f Hf. destruct (kr_all _ _ _ _ _ _ I f Hf) as [H|[<-|H]].
        -- left. apply in_or_app. now left.
        -- left. apply in_or_app. right. now left.
        -- now right.
      * intros f Hf. apply (kr_rem _ _ _ _ _ _ I). now right.
      * intros a b w0 Hin. apply in_app_or in Hin.
        destruct Hin as [Hin|[Hin|[]]].
        -- eapply (kr_done _ _ _ _ _ _ I); eauto.
        -- injection Hin as <- <- _. eapply (uf_sound _ _ _ Iuf); eauto.
      * apply (kr_mst _ _ _ _ _ _ I).
    + unfold WeightedGraph.union. rewrite F1, F2. cbn [bind].
      apply (IH (processed ++ [(u, v, w)])).
      set (S := fun x =>
                  match WeightedGraph.find (WeightedGraph.find_fuel pm) pm x
                  with Ok r => String.eqb r r1 | _ => false end).
      assert (HS : forall a b, conn A a b -> S a = S b).
      { intros a b Hab.
        destruct (uf_complete _ _ _ Iuf a b Hab) as [->|(r & Ha & Hb)]; auto.
        assert (Fa : WeightedGraph.find (WeightedGraph.find_fuel pm) pm a = Ok r).
        { destruct (uf_find V pm A Iuf a) as (r' & F & Hr' & _).
          - rewrite <- (uf_keys _ _ _ Iuf). eapply root_of_in_keys; eauto.
          - rewrite F. f_equal. eapply root_of_fun; eauto. }
        assert (Fb : WeightedGraph.find (WeightedGraph.find_fuel pm) pm b = Ok r).
        { destruct (uf_find V pm A Iuf b) as (r' & F & Hr' & _).
          - rewrite <- (uf_keys _ _ _ Iuf). eapply root_of_in_keys; eauto.
          - rewrite F. f_equal. eapply root_of_fun; eauto. }
        unfold S. now rewrite Fa, Fb. }
      constructor.
      * now apply uf_union.
      * intros f Hf. destruct (kr_all _ _ _ _ _ _ I f Hf) as [H|[<-|H]].
        -- left. apply in_or_app. now left.
        -- left. apply in_or_app. right. now left.
        -- now right.
      * intros f Hf. apply (kr_rem _ _ _ _ _ _ I). now right.
      * exact Hs'.
      * intros a b w0 Hin. apply in_app_or in Hin.
        destruct Hin as [Hin|[Hin|[]]].
        -- apply (conn_incl A); [intros f Hf; apply in_or_app; now left|].
           eapply (kr_done _ _ _ _ _ _ I); eauto.
        -- injection Hin as <- <- _. apply conn_link. exists w. left.
           apply in_or_app. right. now left.
      * apply (mst_inv_step V E S); auto.
        -- apply (kr_mst _ _ _ _ _ _ I).
        -- intros a b w' Hin. apply HS. apply conn_link. exists w'. now left.
        -- unfold S. rewrite F1. apply String.eqb_refl.
        -- unfold S. rewrite F2. destruct (String.eqb_spec r2 r1); congruence.
        -- intros a b w' Hin Hcross.
           destruct (kr_all _ _ _ _ _ _ I _ Hin) as [H|[H|H]].
           ++ exfalso. apply Hcross, HS. eapply (kr_done _ _ _ _ _ _ I); eauto.
           ++ injection H as _ _ <-. lia.
           ++ rewrite Forall_forall in Hmin. apply (Hmin _ H).
Qed.

End KruskalLoop.

(** ** Prim's algorithm *)

Lemma num_le_refl a : num_le a a.
Proof. unfold num_le. destruct a; simpl; auto. apply Z.ltb_irrefl. Qed.

Lemma num_le_trans a b c : num_le a b -> num_le b c -> num_le a c.
Proof.
  unfold num_le. destruct a, b, c; simpl; try congruence.
  rewrite !Z.ltb_ge. lia.
Qed.

Lemma num_ltb_le a b : num_ltb a b = true -> num_le a b.
Proof.
  unfold num_le. destruct a, b; simpl; try congruence.
  rewrite Z.ltb_lt, Z.ltb_ge. lia.
Qed.

Lemma smallest_scan_spec vtw : forall ks cur,
  incl ks (dict_keys vtw) -> In cur (dict_keys vtw) ->
  exists k,
    WeightedGraph.smallest_scan ks vtw cur = Ok k
    /\ In k (dict_keys vtw)
    /\ num_le (wt vtw k) (wt vtw cur)
    /\ forall k', In k' ks -> num_le (wt vtw k) (wt vtw k').
Proof.
  induction ks as [|k1 ks IH]; intros cur Hks Hcur; simpl.
  - exists cur. repeat split; auto. apply num_le_refl. intros k' [].
  - assert (H1 : In k1 (dict_keys vtw)) by (apply Hks; now left).
    pose proof H1 as G1. pose proof Hcur as Gc.
    apply dict_get_in_keys in G1. apply dict_get_in_keys in Gc.
    unfold dict_at.
    destruct (dict_get vtw k1) as [a|] eqn:Ea; [|congruence].
    destruct (dict_get vtw cur) as [b|] eqn:Eb; [|congruence].
    simpl.
    assert (Hwa : wt vtw k1 = a) by (unfold wt; now rewrite Ea).
    assert (Hwb : wt vtw cur = b) by (unfold wt; now rewrite Eb).
    destruct (num_ltb a b) eqn:Elt.
    + destruct (IH k1) as (k & F & Hk & Hle & Hall); auto.
      { intros x Hx. apply Hks. now right. }
      exists k. repeat split; auto.
      * eapply num_le_trans; [exact Hle|]. rewrite Hwa, Hwb.
        now apply num_ltb_le.
      * intros k' [<-|Hk']; auto.
    + destruct (IH cur) as (k & F & Hk & Hle & Hall); auto.
      { intros x Hx. apply Hks. now right. }
      exists k. repeat split; auto.
      intros k' [<-|Hk']; auto.
      eapply num_le_trans; [exact Hle|]. rewrite Hwa, Hwb. exact Elt.
Qed.

Lemma get_smallest_vetext_spec vtw :
  vtw <> [] ->
  exists k,
    WeightedGraph.get_smallest_vetext vtw = Ok k
    /\ In k (dict_keys vtw)
    /\ forall k', In k' (dict_keys vtw) -> num_le (wt vtw k) (wt vtw k').
Proof.
  intros Hne. unfold WeightedGraph.get_smallest_vetext.
  destruct (dict_keys vtw) as [|k0 ks] eqn:Ek.
  - destruct vtw; [congruence|discriminate].
  - rewrite <- Ek.
    destruct (smallest_scan_spec vtw (dict_keys vtw) k0)
      as (k & F & Hk & _ & Hall).
    + apply incl_refl.
    + rewrite Ek. now left.
    + exists k. auto.
Qed.

Lemma dict_del_keys_perm {V} (d : dict V) k :
  In k (dict_keys d) -> Permutation (k :: dict_keys (dict_del d k)) (dict_keys d).
Proof.
  induction d as [|[k' v'] d IH]; simpl; [tauto|].
  destruct (String.eqb_spec k k') as [->|Hne]; [reflexivity|].
  intros [?|Hin]; [congruence|]. simpl.
  rewrite perm_swap. constructor. now apply IH.
Qed.

Lemma dict_get_del {V} (d : dict V) k x :
  NoDup (dict_keys d) ->
  dict_get (dict_del d k) x = if String.eqb x k then None else dict_get d x.
Proof.
  induction d as [|[k' v'] d IH]; simpl; intros Hnd.
  - now destruct (String.eqb x k).
  - apply NoDup_cons_iff in Hnd as [Hn Hnd].
    destruct (String.eqb_spec k k') as [Hk|Hne].
    + subst k'. destruct (String.eqb x k) eqn:Ex; auto.
      apply String.eqb_eq in Ex. subst x. now apply dict_get_none.
    + simpl. destruct (String.eqb x k') eqn:Ex.
      * apply String.eqb_eq in Ex. subst x.
        destruct (String.eqb_spec k' k); congruence.
      * now apply IH.
Qed.

(** Relaxing the keys from the neighbour map of the vertex just taken. *)
Lemma prim_relax_spec : forall nbrs vtw,
  NoDup (dict_keys nbrs) ->
  dict_keys (WeightedGraph.prim_relax nbrs vtw) = dict_keys vtw
  /\ forall x,
       dict_get (WeightedGraph.prim_relax nbrs vtw) x =
       match dict_get vtw x with
       | Some old =>
           match dict_get nbrs x with
           | Some w => if num_ltb (Fin w) old then Some (Fin w) else Some old
           | None => Some old
           end
       | None => None
       end.
Proof.
  induction nbrs as [|[n w] nbrs IH]; intros vtw Hnd.
  - simpl. split; auto. intros x. now destruct (dict_get vtw x).
  - simpl in Hnd. apply NoDup_cons_iff in Hnd as [Hn Hnd].
    cbn [WeightedGraph.prim_relax].
    set (vtw1 := match dict_get vtw n with
                 | Some old =>
                     if num_ltb (Fin w) old then dict_set vtw n (Fin w)
                     else vtw
                 | None => vtw
                 end).
    destruct (IH vtw1 Hnd) as [Hk Hg].
    assert (Hk1 : dict_keys vtw1 = dict_keys vtw).
    { unfold vtw1. destruct (dict_get vtw n) as [old|] eqn:En; auto.
      destruct (num_ltb (Fin w) old); auto.
      eapply dict_keys_set_present; eauto. }
    assert (Hg1 : forall x, dict_get vtw1 x =
              if String.eqb x n then
                match dict_get vtw n with
                | Some old => if num_ltb (Fin w) old then Some (Fin w)
                              else Some old
                | None => None
                end
              else dict_get vtw x).
    { intros x. unfold vtw1.
      destruct (String.eqb_spec x n) as [->|Hxn].
      - destruct (dict_get vtw n) as [old|] eqn:En; auto.
        destruct (num_ltb (Fin w) old); auto. apply dict_get_set_same.
      - destruct (dict_get vtw n) as [old|] eqn:En; auto.
        destruct (num_ltb (Fin w) old); auto.
        now apply dict_get_set_other. }
    split; [congruence|].
    intros x. rewrite Hg, Hg1. cbn [dict_get].
    destruct (String.eqb x n) eqn:Exn.
    + apply String.eqb_eq in Exn. subst x.
      rewrite (dict_get_none nbrs n Hn).
      destruct (dict_get vtw n) as [old|]; auto.
      now destruct (num_ltb (Fin w) old).
    + reflexivity.
Qed.

(** Connected vertices on both sides of a cut are separated by an edge. *)
Lemma conn_crossing T (S : vid -> bool) x y :
  conn T x y -> S x = true -> S y = false ->
  exists a b, link T a b /\ S a = true /\ S b = false.
Proof.
  induction 1 as [|y z H IH Hl]; intros Hx Hz; [congruence|].
  destruct (S y) eqn:Hy; [|auto].
  exists y, z. auto.
Qed.

Section PrimLoop.
Variable g : WeightedGraph.t.
Variable V : list vid.
Variable E : list WeightedGraph.edge.
Hypothesis V_nodup : NoDup V.
Hypothesis E_in_V : forall a b w, In (a, b, w) E -> In a V /\ In b V.
Hypothesis E_sym : forall a b w, In (a, b, w) E -> In (b, a, w) E.
Hypothesis G_conn : forall x y, In x V -> In y V -> conn E x y.
Hypothesis nbrs_spec :
  forall k, In k V ->
    exists o,
      dict_get (WeightedGraph.vertex_dict g) k = Some o
      /\ NoDup (dict_keys (WeightedGraph.neighbors_dict o))
      /\ forall n w,
           dict_get (WeightedGraph.neighbors_dict o) n = Some w <->
           In (k, n, w) E.

(** Taking [k] out of the key map and relaxing from its neighbour map keeps
    the two facts that tie the keys to the edges leaving the visited
    vertices. *)
Lemma prim_visit visited vtw1 k o :
  dict_get (WeightedGraph.vertex_dict g) k = Some o ->
  NoDup (dict_keys (WeightedGraph.neighbors_dict o)) ->
  (forall n w, dict_get (WeightedGraph.neighbors_dict o) n = Some w <->
               In (k, n, w) E) ->
  (forall v w, dict_get vtw1 v = Some (Fin w) ->
               exists u, In u visited /\ In (u, v, w) E) ->
  (forall u v w, In u visited -> In v (dict_keys vtw1) -> In (u, v, w) E ->
                 exists w', dict_get vtw1 v = Some (Fin w') /\ (w' <= w)%Z) ->
  let vtw' := WeightedGraph.prim_relax (WeightedGraph.neighbors_dict o) vtw1 in
  dict_keys vtw' = dict_keys vtw1
  /\ (forall v w, dict_get vtw' v = Some (Fin w) ->
                  exists u, In u (visited ++ [k]) /\ In (u, v, w) E)
  /\ (forall u v w, In u (visited ++ [k]) -> In v (dict_keys vtw') ->
                    In (u, v, w) E ->
                    exists w', dict_get vtw' v = Some (Fin w') /\ (w' <= w)%Z).
Proof.
  intros Ho Hnd Hnb Hfin Hmin vtw'.
  destruct (prim_relax_spec (WeightedGraph.neighbors_dict o) vtw1 Hnd)
    as [Hk Hg].
  fold vtw' in Hk, Hg. split; [exact Hk|]. split.
  - intros v w Hv. rewrite Hg in Hv.
    destruct (dict_get vtw1 v) as [old|] eqn:Eold; [|discriminate].
    destruct (dict_get (WeightedGraph.neighbors_dict o) v) as [w1|] eqn:En.
    + destruct (num_ltb (Fin w1) old) eqn:Elt.
      * injection Hv as <-. exists k. split.
        -- apply in_or_app. right. now left.
        -- now apply Hnb.
      * injection Hv as ->. destruct (Hfin v w Eold) as (u & Hu & HE).
        exists u. split; auto. apply in_or_app. now left.
    + injection Hv as ->. destruct (Hfin v w Eold) as (u & Hu & HE).
      exists u. split; auto. apply in_or_app. now left.
  - intros u v w Hu Hv HE. rewrite Hk in Hv. rewrite Hg.
    apply in_app_or in Hu. destruct Hu as [Hu|[<-|[]]].
    + destruct (Hmin u v w Hu Hv HE) as (w0 & E0 & Hle). rewrite E0.
      destruct (dict_get (WeightedGraph.neighbors_dict o) v) as [w1|];
        [|eauto].
      destruct (num_ltb (Fin w1) (Fin w0)) eqn:Elt; [|eauto].
      simpl in Elt. apply Z.ltb_lt in Elt. exists w1. split; auto. lia.
    + apply Hnb in HE. rewrite HE.
      pose proof Hv as Hget. apply dict_get_in_keys in Hget.
      destruct (dict_get vtw1 v) as [old|] eqn:Eold; [|congruence].
      destruct (num_ltb (Fin w) old) eqn:Elt.
      * exists w. split; auto. lia.
      * destruct old as [w0|]; simpl in Elt; [|discriminate].
        apply Z.ltb_ge in Elt. exists w0. auto.
Qed.

Variable start : vid.

Lemma prim_loop_spec : forall fuel visited vtw total A,
  prim_inv V E start visited vtw total A ->
  length vtw <= fuel ->
  exists A',
    WeightedGraph.prim_loop fuel g vtw total = Ok (Fin (total_weight A'))
    /\ spanning V E A' /\ mst_inv V E A'.
Proof.
  induction fuel as [|fuel IH]; intros visited vtw total A I Hfuel;
    destruct vtw as [|kv vtw0] eqn:Evtw; try (simpl in Hfuel; lia).
  1, 2: (exists A; simpl; rewrite (pi_total _ _ _ _ _ _ _ I);
         split; [reflexivity|]; split; [|apply (pi_mst _ _ _ _ _ _ _ I)];
         pose proof (pi_split _ _ _ _ _ _ _ I) as Hp; simpl in Hp;
         rewrite app_nil_r in Hp;
         split; [apply (pi_sub _ _ _ _ _ _ _ I)|];
         split; [rewrite (pi_size _ _ _ _ _ _ _ I);
                 now apply Permutation_length|];
         intros x y Hx Hy;
         apply conn_trans with start;
         [apply conn_sym|]; apply (pi_conn _ _ _ _ _ _ _ I);
         eapply Permutation_in; try (symmetry; exact Hp); auto).
  cbn [WeightedGraph.prim_loop].
  remember (kv :: vtw0) as vtw1 eqn:E1. clear Evtw.
  assert (Hne : vtw1 <> []) by (subst vtw1; discriminate).
  pose proof (pi_split _ _ _ _ _ _ _ I) as Hsplit.
  assert (Hnd : NoDup (visited ++ dict_keys vtw1)).
  { eapply Permutation_NoDup; [symmetry; exact Hsplit|exact V_nodup]. }
  assert (HkeysV : forall x, In x (dict_keys vtw1) -> In x V).
  { intros x Hx. eapply Permutation_in; [exact Hsplit|].
    apply in_or_app. now right. }
  assert (HvisV : forall x, In x visited -> In x V).
  { intros x Hx. eapply Permutation_in; [exact Hsplit|].
    apply in_or_app. now left. }
  assert (Hvis : forall x, In x V -> ~ In x (dict_keys vtw1) -> In x visited).
  { intros x Hx Hn.
    assert (H : In x (visited ++ dict_keys vtw1))
      by (eapply Permutation_in; [symmetry; exact Hsplit|exact Hx]).
    apply in_app_or in H. tauto. }
  destruct (get_smallest_vetext_spec vtw1 Hne) as (k & Fk & Hk & Hmin).
  rewrite Fk. cbn [bind].
  pose proof Hk as Hget. apply dict_get_in_keys in Hget.
  destruct (dict_get vtw1 k) as [val|] eqn:Eval; [|congruence].
  unfold dict_at at 1. rewrite Eval. cbn [bind].
  destruct (nbrs_spec k (HkeysV k Hk)) as (o & Ho & Hndo & Hnb).
  unfold dict_at. rewrite Ho. cbn [bind].
  set (S := fun x => negb (dict_has vtw1 x)).
  assert (HSvis : forall x, In x visited -> S x = true).
  { intros x Hx. unfold S. destruct (dict_has vtw1 x) eqn:Eh; auto.
    apply dict_has_spec in Eh. exfalso.
    eapply NoDup_app_disjoint; eauto. }
  assert (HSkey : forall x, In x (dict_keys vtw1) -> S x = false).
  { intros x Hx. unfold S. now rewrite (proj2 (dict_has_spec vtw1 x) Hx). }
  assert (HSinv : forall x, In x V -> S x = true -> In x visited).
  { intros x Hx HS. apply Hvis; auto. intros Hin.
    rewrite (HSkey x Hin) in HS. discriminate. }
  assert (HSinv' : forall x, In x V -> S x = false -> In x (dict_keys vtw1)).
  { intros x Hx HS. unfold S in HS. apply dict_has_spec.
    now destruct (dict_has vtw1 x). }
  (* the smallest key is finite: some edge leaves the visited vertices *)
  assert (Hcross : forall a b w, In (a, b, w) E -> S a = true -> S b = false ->
             exists w', dict_get vtw1 b = Some (Fin w') /\ (w' <= w)%Z).
  { intros a b w HE Ha Hb. destruct (E_in_V a b w HE) as [HaV HbV].
    apply (pi_min _ _ _ _ _ _ _ I a b w); auto. }
  assert (Hfinite : exists w, val = Fin w).
  { destruct val as [w|]; [eauto|]. exfalso.
    pose proof (pi_start _ _ _ _ _ _ _ I) as Hst.
    destruct (conn_crossing E S start k
                (G_conn start k (HvisV _ Hst) (HkeysV _ Hk))
                (HSvis _ Hst) (HSkey _ Hk))
      as (a & b & [w [HE|HE]] & Ha & Hb).
    - destruct (Hcross a b w HE Ha Hb) as (w' & Eb & _).
      assert (HbK : In b (dict_keys vtw1))
        by (apply dict_get_in_keys; congruence).
      specialize (Hmin b HbK). unfold wt, num_le in Hmin.
      rewrite Eval, Eb in Hmin. discriminate.
    - apply E_sym in HE. destruct (Hcross a b w HE Ha Hb) as (w' & Eb & _).
      assert (HbK : In b (dict_keys vtw1))
        by (apply dict_get_in_keys; congruence).
      specialize (Hmin b HbK). unfold wt, num_le in Hmin.
      rewrite Eval, Eb in Hmin. discriminate. }
  destruct Hfinite as [w ->].
  destruct (pi_fin _ _ _ _ _ _ _ I k w Eval) as (u & Hu & HuE).
  assert (Hnd1 : NoDup (dict_keys vtw1)) by (eapply NoDup_app_remove_l; eauto).
  pose proof (dict_del_keys_perm vtw1 k Hk) as Hdel.
  assert (Hdelk : forall x, In x (dict_keys (dict_del vtw1 k)) ->
            In x (dict_keys vtw1) /\ x <> k).
  { intros x Hx. split.
    - eapply Permutation_in; [exact Hdel|]. now right.
    - intros ->. assert (Hnd2 : NoDup (k :: dict_keys (dict_del vtw1 k)))
        by (eapply Permutation_NoDup; [symmetry; exact Hdel|exact Hnd1]).
      apply NoDup_cons_iff in Hnd2. tauto. }
  destruct (prim_visit visited (dict_del vtw1 k) k o Ho Hndo Hnb)
    as (Hkeys' & Hfin' & Hmin').
  { intros v w0 Hv. rewrite (dict_get_del vtw1 k v Hnd1) in Hv.
    destruct (String.eqb v k); [discriminate|].
    apply (pi_fin _ _ _ _ _ _ _ I v w0 Hv). }
  { intros u0 v w0 Hu0 Hv HE. destruct (Hdelk v Hv) as [Hv1 Hvk].
    rewrite (dict_get_del vtw1 k v Hnd1).
    destruct (String.eqb_spec v k); [congruence|].
    apply (pi_min _ _ _ _ _ _ _ I u0 v w0); auto. }
  unfold WeightedGraph.get_neighbors_with_weights.
  apply (IH (visited ++ [k]) _ _ (A ++ [(u, k, w)])).
  - constructor.
    + rewrite Hkeys', <- app_assoc. simpl.
      rewrite <- Hsplit. apply Permutation_app_head. exact Hdel.
    + apply in_or_app. left. apply (pi_start _ _ _ _ _ _ _ I).
    + exact Hfin'.
    + exact Hmin'.
    + intros a b w0 Hin. apply in_app_or in Hin.
      destruct Hin as [Hin|[Hin|[]]].
      * destruct (pi_tree _ _ _ _ _ _ _ I a b w0 Hin).
        split; apply in_or_app; now left.
      * injection Hin as <- <- _. split; apply in_or_app;
          [now left | right; now left].
    + intros x Hx. apply in_app_or in Hx. destruct Hx as [Hx|[<-|[]]].
      * apply (conn_incl A); [intros f Hf; apply in_or_app; now left|].
        apply (pi_conn _ _ _ _ _ _ _ I x Hx).
      * eapply conn_step.
        -- apply (conn_incl A); [intros f Hf; apply in_or_app; now left|].
           apply (pi_conn _ _ _ _ _ _ _ I u Hu).
        -- exists w. left. apply in_or_app. right. now left.
    + rewrite !length_app. simpl. pose proof (pi_size _ _ _ _ _ _ _ I). lia.
    + rewrite (pi_total _ _ _ _ _ _ _ I). simpl. f_equal.
      rewrite total_weight_app.
      assert (H1 : total_weight [(u, k, w)] = w)
        by (unfold total_weight, WeightedGraph.edge_weight; simpl; lia).
      now rewrite H1.
    + intros f Hf. apply in_app_or in Hf. destruct Hf as [Hf|[<-|[]]]; auto.
      apply (pi_sub _ _ _ _ _ _ _ I f Hf).
    + apply (mst_inv_step V E S); auto.
      * apply (pi_mst _ _ _ _ _ _ _ I).
      * intros a b w' Hin. destruct (pi_tree _ _ _ _ _ _ _ I a b w' Hin).
        now rewrite !HSvis.
      * intros a b w' HE Hcr. destruct (E_in_V a b w' HE) as [HaV HbV].
        assert (Hkb : forall b0 w0, dict_get vtw1 b0 = Some (Fin w0) ->
                  (w <= w0)%Z).
        { intros b0 w0 Eb.
          assert (HbK : In b0 (dict_keys vtw1))
            by (apply dict_get_in_keys; congruence).
          specialize (Hmin b0 HbK). unfold wt, num_le in Hmin.
          rewrite Eval, Eb in Hmin. simpl in Hmin.
          apply Z.ltb_ge in Hmin. exact Hmin. }
        destruct (S a) eqn:Ha; destruct (S b) eqn:Hb; try congruence.
        -- destruct (Hcross a b w' HE Ha Hb) as (w0 & Eb & Hle).
           specialize (Hkb b w0 Eb). lia.
        -- apply E_sym in HE.
           destruct (Hcross b a w' HE Hb Ha) as (w0 & Eb & Hle).
           specialize (Hkb a w0 Eb). lia.
  - assert (Hl1 : length (WeightedGraph.prim_relax
                            (WeightedGraph.neighbors_dict o)
                            (dict_del vtw1 k))
                  = length (dict_keys (dict_del vtw1 k))).
    { rewrite <- Hkeys'. unfold dict_keys. now rewrite length_map. }
    apply Permutation_length in Hdel. cbn [length] in Hdel.
    assert (Hl2 : length (dict_keys vtw1) = length vtw1)
      by (unfold dict_keys; now rewrite length_map).
    lia.
Qed.

End PrimLoop.

(** ** Weighted graphs as the insertion operations leave them *)

Lemma dict_keys_set {V} (d : dict V) k v :
  dict_keys (dict_set d k v) =
  if dict_has d k then dict_keys d else dict_keys d ++ [k].
Proof.
  unfold dict_has. destruct (dict_get d k) as [v0|] eqn:E.
  - eapply dict_keys_set_present; eauto.
  - rewrite dict_set_fresh.
    + now rewrite dict_keys_app.
    + intros H. apply dict_get_in_keys in H. congruence.
Qed.

Lemma NoDup_snoc {A} (l : list A) x : NoDup l -> ~ In x l -> NoDup (l ++ [x]).
Proof.
  intros Hnd Hx. apply NoDup_app; auto.
  - constructor; [intros []|constructor].
  - intros a Ha [<-|[]]. contradiction.
Qed.

Section WellFormed.
Import WeightedGraph.

Lemma add_neighbor_keys o x w :
  NoDup (dict_keys (neighbors_dict o)) ->
  NoDup (dict_keys (neighbors_dict (add_neighbor o x w)))
  /\ forall n, In n (dict_keys (neighbors_dict (add_neighbor o x w))) ->
               In n (dict_keys (neighbors_dict o)) \/ n = x.
Proof.
  intros Hnd. unfold add_neighbor.
  destruct (dict_has (neighbors_dict o) x) eqn:Eh; [auto|].
  simpl. rewrite dict_keys_set, Eh. split.
  - apply NoDup_snoc; auto. intros H. apply dict_has_spec in H. congruence.
  - intros n Hn. apply in_app_or in Hn. destruct Hn as [|[<-|[]]]; auto.
Qed.

Lemma call_on_keys_ok g k x w :
  keys_ok g -> In x (dict_keys (vertex_dict g)) ->
  keys_ok (call_on g k (fun o => add_neighbor o x w))
  /\ dict_keys (vertex_dict (call_on g k (fun o => add_neighbor o x w)))
     = dict_keys (vertex_dict g).
Proof.
  intros (H1 & H2 & H3) Hx. unfold call_on.
  destruct (dict_get (vertex_dict g) k) as [o|] eqn:Ek;
    [|split; [repeat split; auto|reflexivity]].
  simpl.
  assert (Hkeys : dict_keys (dict_set (vertex_dict g) k (add_neighbor o x w))
                  = dict_keys (vertex_dict g))
    by (eapply dict_keys_set_present; eauto).
  split; [|exact Hkeys]. unfold keys_ok. simpl. rewrite Hkeys.
  destruct (add_neighbor_keys o x w (H2 k o Ek)) as [Ha Hb].
  repeat split; auto.
  - intros k' o'. rewrite dict_get_set.
    destruct (String.eqb_spec k' k) as [->|]; [intros [= <-]; auto|apply H2].
  - intros k' o' n. rewrite dict_get_set.
    destruct (String.eqb_spec k' k) as [->|]; [|apply H3].
    intros [= <-] Hn. destruct (Hb n Hn) as [Hn' | ->]; eauto.
Qed.

Lemma built_undirected_keys_ok g : built_undirected g -> keys_ok g.
Proof.
  induction 1 as [|g x Hb IH|g u v w Hb IH].
  - repeat split; simpl; try constructor; intros; discriminate.
  - destruct IH as (H1 & H2 & H3). unfold add_vertex.
    destruct (dict_has (vertex_dict g) x) eqn:Eh; simpl;
      [repeat split; auto|].
    assert (Hx : ~ In x (dict_keys (vertex_dict g))).
    { intros H. apply dict_has_spec in H. congruence. }
    unfold keys_ok. simpl. rewrite dict_keys_set, Eh. repeat split.
    + now apply NoDup_snoc.
    + intros k o. rewrite dict_get_set.
      destruct (String.eqb_spec k x) as [->|]; [|apply H2].
      intros [= <-]. constructor.
    + intros k o n. rewrite dict_get_set.
      destruct (String.eqb_spec k x) as [->|].
      * intros [= <-] [].
      * intros Hk Hn. apply in_or_app. left. eauto.
  - destruct (built_undirected_invariant g Hb) as [Hd Hs].
    unfold add_edge, get_vertex.
    destruct (dict_has (vertex_dict g) u) eqn:Eu; simpl; auto.
    destruct (dict_has (vertex_dict g) v) eqn:Ev; simpl; auto.
    apply dict_has_spec in Eu, Ev.
    destruct (dict_get (vertex_dict g) u) as [o1|] eqn:E1; simpl; auto.
    destruct (dict_get (vertex_dict g) v) as [o2|] eqn:E2; simpl; auto.
    rewrite Hd. simpl. rewrite (Hs _ _ E1), (Hs _ _ E2).
    destruct (call_on_keys_ok g u v w IH Ev) as [Hok1 Hk1].
    apply call_on_keys_ok; auto. now rewrite Hk1.
Qed.

Lemma built_undirected_wf g : built_undirected g -> wg_wf g.
Proof.
  intros Hb. destruct (built_undirected_keys_ok g Hb) as (H1 & H2 & H3).
  constructor; auto.
  - apply (built_undirected_invariant g Hb).
  - now apply built_undirected_symmetric.
Qed.

Lemma all_edges_spec g u v w :
  wg_wf g ->
  (In (u, v, w) (all_edges g) <-> neighbor_weight g u v = Some w).
Proof.
  intros Hwf. unfold all_edges, get_vertices, get_neighbors_with_weights,
    neighbor_weight. rewrite in_flat_map. split.
  - intros (o & Ho & Hin). apply in_map_iff in Ho.
    destruct Ho as ([k o'] & Eo & Hko). simpl in Eo. subst o'.
    apply (In_dict_get _ _ _ (wf_keys _ Hwf)) in Hko.
    apply in_map_iff in Hin. destruct Hin as ([n w'] & E & Hnw).
    injection E as <- <- <-.
    rewrite (wf_self _ Hwf _ _ Hko), Hko.
    apply In_dict_get; auto. eapply (wf_nbr_keys _ Hwf); eauto.
  - destruct (dict_get (vertex_dict g) u) as [o|] eqn:Eo; [|discriminate].
    intros Hv. exists o. split.
    + apply in_map_iff. exists (u, o). split; auto. now apply dict_get_In.
    + apply in_map_iff. exists (v, w). split.
      * now rewrite (wf_self _ Hwf _ _ Eo).
      * now apply dict_get_In.
Qed.

Lemma all_edges_sym g a b w :
  wg_wf g -> In (a, b, w) (all_edges g) -> In (b, a, w) (all_edges g).
Proof.
  intros Hwf H. apply (all_edges_spec g _ _ _ Hwf).
  rewrite <- (wf_sym _ Hwf). now apply (all_edges_spec g _ _ _ Hwf).
Qed.

Lemma all_edges_in_V g a b w :
  wg_wf g -> In (a, b, w) (all_edges g) ->
  In a (dict_keys (vertex_dict g)) /\ In b (dict_keys (vertex_dict g)).
Proof.
  intros Hwf H. apply (all_edges_spec g _ _ _ Hwf) in H.
  unfold neighbor_weight in H.
  destruct (dict_get (vertex_dict g) a) as [o|] eqn:Eo; [|discriminate].
  split.
  - apply dict_get_in_keys. congruence.
  - eapply (wf_known _ Hwf); eauto. apply dict_get_in_keys. congruence.
Qed.

Lemma neighbors_spec g k :
  wg_wf g -> In k (dict_keys (vertex_dict g)) ->
  exists o,
    dict_get (vertex_dict g) k = Some o
    /\ NoDup (dict_keys (neighbors_dict o))
    /\ forall n w, dict_get (neighbors_dict o) n = Some w <->
                   In (k, n, w) (all_edges g).
Proof.
  intros Hwf Hk. apply dict_get_in_keys in Hk.
  destruct (dict_get (vertex_dict g) k) as [o|] eqn:Eo; [|congruence].
  exists o. split; auto. split; [eapply (wf_nbr_keys _ Hwf); eauto|].
  intros n w. rewrite (all_edges_spec g k n w Hwf).
  unfold neighbor_weight. now rewrite Eo.
Qed.

End WellFormed.

(** ** The two algorithms from their initial states *)

Lemma fold_dict_set_fresh {A V} (f : A -> vid) (c : A -> V) l : forall acc,
  NoDup (dict_keys acc ++ map f l) ->
  fold_left (fun d x => dict_set d (f x) (c x)) l acc
  = acc ++ map (fun x => (f x, c x)) l.
Proof.
  induction l as [|x l IH]; intros acc Hnd; simpl.
  - now rewrite app_nil_r.
  - simpl in Hnd. rewrite dict_set_fresh.
    + rewrite IH; [now rewrite <- app_assoc|].
      rewrite dict_keys_app, <- app_assoc. exact Hnd.
    + intros H. eapply NoDup_app_disjoint; eauto. now left.
Qed.

Lemma values_ids g :
  wg_wf g ->
  map WeightedGraph.id (dict_values (WeightedGraph.vertex_dict g))
  = dict_keys (WeightedGraph.vertex_dict g).
Proof.
  intros Hwf. unfold dict_values, dict_keys. rewrite map_map.
  apply map_ext_in. intros [k o] Hin. simpl.
  apply (wf_self _ Hwf). apply In_dict_get; auto. apply (wf_keys _ Hwf).
Qed.

Lemma initial_parent_map_spec g :
  wg_wf g ->
  WeightedGraph.initial_parent_map g
  = map (fun k => (k, k)) (dict_keys (WeightedGraph.vertex_dict g)).
Proof.
  intros Hwf. unfold WeightedGraph.initial_parent_map,
    WeightedGraph.get_vertices.
  rewrite (fold_dict_set_fresh WeightedGraph.id WeightedGraph.id).
  - simpl. rewrite <- (values_ids g Hwf), map_map. reflexivity.
  - simpl. rewrite (values_ids g Hwf). apply (wf_keys _ Hwf).
Qed.

Lemma nroots_identity l : nroots (map (fun k => (k, k)) l) = length l.
Proof.
  unfold nroots. induction l as [|k l IH]; simpl; auto.
  rewrite String.eqb_refl. simpl. now rewrite IH.
Qed.

Lemma uf_inv_initial V :
  uf_inv V (map (fun k => (k, k)) V) [].
Proof.
  assert (Hget : forall x p, dict_get (map (fun k => (k, k)) V) x = Some p ->
            p = x /\ In x V).
  { intros x p Hx.
    assert (Hin : In x V).
    { rewrite <- (dict_keys_map_self (fun k => k) V).
      apply dict_get_in_keys. congruence. }
    rewrite (dict_get_map_self (fun k => k) V x Hin) in Hx.
    injection Hx as <-. auto. }
  assert (Hroot : forall x r, root_of (map (fun k => (k, k)) V) x r -> r = x).
  { intros x r Hr. inversion Hr as [y Hy|y p r0 Hy Hne Hp]; subst; auto.
    destruct (Hget _ _ Hy). congruence. }
  constructor.
  - apply (dict_keys_map_self (fun k => k)).
  - exists (fun _ => 0). intros x p Hx. destruct (Hget x p Hx) as [-> Hin].
    simpl. auto.
  - intros x y r Hx Hy. rewrite <- (Hroot _ _ Hx), <- (Hroot _ _ Hy).
    apply conn_refl.
  - intros x y Hc. left. induction Hc as [|y z H IH Hl]; auto.
    destruct Hl as [w [[]|[]]].
  - rewrite nroots_identity. simpl. lia.
Qed.

Lemma kruskal_correct g :
  wg_wf g -> WeightedGraph.vertex_dict g <> [] -> joined g ->
  exists T,
    WeightedGraph.minimum_spanning_tree_kruskal g = Ok T
    /\ mst_inv (dict_keys (WeightedGraph.vertex_dict g))
         (WeightedGraph.all_edges g) T
    /\ S (length T) = length (dict_keys (WeightedGraph.vertex_dict g)).
Proof.
  intros Hwf Hne Hconn. unfold WeightedGraph.minimum_spanning_tree_kruskal.
  rewrite (initial_parent_map_spec g Hwf).
  apply (kruskal_loop_spec g) with (processed := []).
  - unfold dict_keys. now rewrite length_map.
  - intros a b w. now apply all_edges_in_V.
  - apply (wf_keys _ Hwf).
  - exact Hconn.
  - intros H. apply Hne. destruct (WeightedGraph.vertex_dict g);
      [reflexivity|discriminate].
  - constructor.
    + apply uf_inv_initial.
    + intros f Hf. right.
      eapply Permutation_in; [symmetry; apply sort_edges_perm|exact Hf].
    + intros f Hf.
      eapply Permutation_in; [apply sort_edges_perm|exact Hf].
    + apply sort_edges_sorted.
    + intros a b w [].
    + apply mst_inv_nil.
Qed.

Lemma prim_correct g :
  wg_wf g -> WeightedGraph.vertex_dict g <> [] -> joined g ->
  exists A,
    WeightedGraph.minimum_spanning_tree_prim g = Ok (Fin (total_weight A))
    /\ spanning (dict_keys (WeightedGraph.vertex_dict g))
         (WeightedGraph.all_edges g) A
    /\ mst_inv (dict_keys (WeightedGraph.vertex_dict g))
         (WeightedGraph.all_edges g) A.
Proof.
  intros Hwf Hne Hconn. unfold WeightedGraph.minimum_spanning_tree_prim.
  pose proof (values_ids g Hwf) as Hids.
  pose proof (wf_keys _ Hwf) as Hnd.
  rewrite (fold_dict_set_fresh WeightedGraph.id (fun _ => Inf))
    by (simpl; unfold WeightedGraph.get_vertices; now rewrite Hids).
  unfold WeightedGraph.get_vertices. simpl app.
  assert (Hmap : map (fun x => (WeightedGraph.id x, Inf))
                   (dict_values (WeightedGraph.vertex_dict g))
                 = map (fun k => (k, Inf))
                     (dict_keys (WeightedGraph.vertex_dict g))).
  { rewrite <- Hids, map_map. reflexivity. }
  rewrite Hmap. clear Hmap.
  destruct (WeightedGraph.vertex_dict g) as [|[k0 o0] vd] eqn:Evd;
    [congruence|].
  assert (Hid0 : WeightedGraph.id o0 = k0).
  { apply (wf_self _ Hwf). rewrite Evd. simpl. now rewrite String.eqb_refl. }
  cbn [dict_values dict_keys map fst snd]. rewrite Hid0.
  cbn [dict_set]. rewrite String.eqb_refl.
  cbn [length WeightedGraph.prim_loop].
  set (V' := map fst vd) in *.
  set (vtw0 := (k0, Fin 0) :: map (fun k => (k, Inf)) V').
  assert (Hk0 : dict_keys vtw0 = k0 :: V').
  { unfold vtw0. simpl. f_equal. apply (dict_keys_map_self (fun _ => Inf)). }
  assert (Hwt : forall x, In x V' -> wt vtw0 x = Inf).
  { intros x Hx. unfold wt, vtw0. simpl.
    destruct (String.eqb_spec x k0) as [->|].
    - simpl in Hnd. apply NoDup_cons_iff in Hnd. tauto.
    - now rewrite (dict_get_map_self (fun _ => Inf) V' x Hx). }
  destruct (get_smallest_vetext_spec vtw0) as (k & Fk & Hk & Hmin);
    [discriminate|].
  assert (k = k0).
  { rewrite Hk0 in Hk. destruct Hk as [<-|Hk]; auto.
    specialize (Hmin k0). rewrite Hk0 in Hmin.
    specialize (Hmin (or_introl eq_refl)).
    rewrite (Hwt k Hk) in Hmin. unfold wt, vtw0, num_le in Hmin.
    simpl in Hmin. rewrite String.eqb_refl in Hmin. discriminate. }
  subst k. rewrite Fk. cbn [bind].
  unfold dict_at at 1. unfold vtw0 at 1. cbn [dict_get].
  rewrite String.eqb_refl. cbn [bind].
  unfold dict_at.
  destruct (neighbors_spec g k0 Hwf) as (o & Ho & Hndo & Hnb).
  { rewrite Evd. simpl. now left. }
  rewrite Ho. cbn [bind].
  assert (Hdel : dict_del vtw0 k0 = map (fun k => (k, Inf)) V').
  { unfold vtw0. simpl. now rewrite String.eqb_refl. }
  rewrite Hdel. unfold WeightedGraph.get_neighbors_with_weights.
  destruct (prim_visit g (WeightedGraph.all_edges g) []
              (map (fun k => (k, Inf)) V') k0 o Ho Hndo Hnb)
    as (Hkeys' & Hfin' & Hmin').
  { intros v w Hv.
    destruct (dict_get (map (fun k => (k, Inf)) V') v) eqn:E; [|discriminate].
    assert (Hin : In v V').
    { rewrite <- (dict_keys_map_self (fun _ => Inf) V').
      apply dict_get_in_keys. congruence. }
    rewrite (dict_get_map_self (fun _ => Inf) V' v Hin) in E. congruence. }
  { intros u v w []. }
  simpl app in Hfin', Hmin'.
  rewrite (dict_keys_map_self (fun _ => Inf)) in Hkeys'.
  assert (HV : dict_keys (WeightedGraph.vertex_dict g) = k0 :: V')
    by (rewrite Evd; reflexivity).
  rewrite <- Evd in Hnd.
  replace (num_add (Fin 0) (Fin 0)) with (Fin 0) by reflexivity.
  rewrite length_map.
  destruct (prim_loop_spec g (dict_keys (WeightedGraph.vertex_dict g))
              (WeightedGraph.all_edges g) Hnd)
    with (start := k0) (fuel := length V')
    (visited := [k0])
    (vtw := WeightedGraph.prim_relax (WeightedGraph.neighbors_dict o)
              (map (fun k => (k, Inf)) V'))
    (total := Fin 0) (A := @nil WeightedGraph.edge) as (A & HA).
  - intros a b w. now apply all_edges_in_V.
  - intros a b w. now apply all_edges_sym.
  - exact Hconn.
  - intros k Hk'. now apply neighbors_spec.
  - constructor; auto.
    + rewrite Hkeys', HV. reflexivity.
    + now left.
    + intros a b w [].
    + intros x [<-|[]]. apply conn_refl.
    + intros f [].
    + apply mst_inv_nil.
  - assert (Hl : length (WeightedGraph.prim_relax
                           (WeightedGraph.neighbors_dict o)
                           (map (fun k => (k, Inf)) V'))
                 = length V').
    { rewrite <- Hkeys' at 2. unfold dict_keys. now rewrite length_map. }
    lia.
  - exists A. rewrite <- HV. exact HA.
Qed.

(** C3: on every connected undirected weighted graph built with
    [add_vertex] and [add_edge], [minimum_spanning_tree_kruskal] returns a
    list of edges and [minimum_spanning_tree_prim] a finite total, and the
    weights of the edges of the first add up to the second; on the square
    A-B 1, B-C 2, C-D 3, A-D 4 both give 6. *)
Theorem kruskal_prim_same_weight :
  (forall g,
     built_undirected g ->
     connected g ->
     exists T w,
       WeightedGraph.minimum_spanning_tree_kruskal g = Ok T
       /\ WeightedGraph.minimum_spanning_tree_prim g = Ok (Fin w)
       /\ total_weight T = w)
  /\ (exists T,
        WeightedGraph.minimum_spanning_tree_kruskal wg_square = Ok T
        /\ total_weight T = 6%Z
        /\ WeightedGraph.minimum_spanning_tree_prim wg_square = Ok (Fin 6)).
Proof.
  split.
  - intros g Hb [Hne Hj]. pose proof (built_undirected_wf g Hb) as Hwf.
    destruct (kruskal_correct g Hwf Hne Hj) as (T & HT & HmT & HlT).
    destruct (prim_correct g Hwf Hne Hj) as (A & HA & HsA & HmA).
    exists T, (total_weight A). repeat split; auto.
    eapply mst_inv_same_weight; eauto.
  - eexists. repeat split; vm_compute; reflexivity.
Qed.

Lemma kruskal_prim_same_weight_witness :
  exists T w,
    WeightedGraph.minimum_spanning_tree_kruskal wg_square = Ok T
    /\ WeightedGraph.minimum_spanning_tree_prim wg_square = Ok (Fin w)
    /\ total_weight T = w.
Proof.
  apply (proj1 kruskal_prim_same_weight wg_square).
  - unfold wg_square, build_weighted. cbn [fold_left].
    repeat apply built_add_edge. repeat apply built_add_vertex.
    apply built_init.
  - split; [vm_compute; discriminate|].
    assert (HA : forall x,
              In x (dict_keys (WeightedGraph.vertex_dict wg_square)) ->
              conn (WeightedGraph.all_edges wg_square) "A" x).
    { assert (L1 : link (WeightedGraph.all_edges wg_square) "A" "B")
        by (exists 1%Z; left; vm_compute; tauto).
      assert (L2 : link (WeightedGraph.all_edges wg_square) "B" "C")
        by (exists 2%Z; left; vm_compute; tauto).
      assert (L3 : link (WeightedGraph.all_edges wg_square) "A" "D")
        by (exists 4%Z; left; vm_compute; tauto).
      intros x Hx. vm_compute in Hx.
      destruct Hx as [<-|[<-|[<-|[<-|[]]]]].
      - apply conn_refl.
      - now apply conn_link.
      - eapply conn_step; [apply conn_link; exact L1|exact L2].
      - now apply conn_link. }
    intros x y Hx Hy. eapply conn_trans; [apply conn_sym|]; apply HA; auto.
Defined.

(** Without any vertex Kruskal's loop is not entered and Prim's choice of a
    first vertex fails: the two do not meet there. *)
Lemma mst_on_no_vertex directed :
  WeightedGraph.minimum_spanning_tree_kruskal (WeightedGraph.init directed)
  = Ok []
  /\ WeightedGraph.minimum_spanning_tree_prim (WeightedGraph.init directed)
     = Raise IndexError.
Proof. split; reflexivity. Qed.

(** * Further properties of the two classes *)

(** ** Insertion into [Graph] *)

(** X1: [add_vertex] makes the vertex present with an empty neighbour
    list, also when it was there before (its stored edges are lost); every
    other vertex keeps its list, and the iteration order only grows at the
    end, by a vertex that is new. *)
Theorem graph_add_vertex_resets :
  forall g v,
    Graph.contains_vertex (Graph.add_vertex g v) v = true
    /\ (forall u,
          dict_get (Graph.vertex_dict (Graph.add_vertex g v)) u =
          if String.eqb u v then Some []
          else dict_get (Graph.vertex_dict g) u)
    /\ Graph.get_vertices (Graph.add_vertex g v) =
       (if Graph.contains_vertex g v then Graph.get_vertices g
        else Graph.get_vertices g ++ [v])
    /\ Graph.is_directed (Graph.add_vertex g v) = Graph.is_directed g.
Proof.
  intros g v. unfold Graph.contains_vertex, Graph.get_vertices,
    Graph.add_vertex. simpl. repeat split.
  - unfold dict_has. now rewrite dict_get_set_same.
  - intros u. apply dict_get_set.
  - apply dict_keys_set.
Qed.

(** X2: [add_edge] and [contains_edge] raise [KeyError] exactly when the
    start vertex is missing; otherwise [add_edge] appends the end id to the
    start's list, whether or not that id is a vertex, the edge is then
    reported by [contains_edge], and no other list (in particular not the
    end's, directed or not) and no key changes. *)
Theorem graph_add_edge_appends :
  forall g s e,
    match dict_get (Graph.vertex_dict g) s with
    | None =>
        Graph.add_edge g s e = Raise KeyError
        /\ Graph.contains_edge g s e = Raise KeyError
    | Some l =>
        exists g',
          Graph.add_edge g s e = Ok g'
          /\ Graph.contains_edge g' s e = Ok true
          /\ (forall u,
                dict_get (Graph.vertex_dict g') u =
                if String.eqb u s then Some (l ++ [e])
                else dict_get (Graph.vertex_dict g) u)
          /\ Graph.get_vertices g' = Graph.get_vertices g
          /\ Graph.is_directed g' = Graph.is_directed g
    end.
Proof.
  intros g s e. unfold Graph.add_edge, Graph.contains_edge, dict_at.
  destruct (dict_get (Graph.vertex_dict g) s) as [l|] eqn:E; [|auto].
  eexists. split; [reflexivity|]. simpl. repeat split.
  - rewrite dict_get_set_same. simpl. f_equal. apply py_in_spec.
    apply in_or_app. right. now left.
  - intros u. apply dict_get_set.
  - unfold Graph.get_vertices. simpl. eapply dict_keys_set_present; eauto.
Qed.

(** X3: in an undirected graph, once [add_edge(u, v)] is done for two
    vertices of the graph, each of them is among the neighbours
    [get_neighbors] reports for the other, although only the list of [u]
    was written. *)
Theorem undirected_edge_seen_from_both_ends :
  forall g u v,
    Graph.is_directed g = false ->
    Graph.contains_vertex g u = true ->
    Graph.contains_vertex g v = true ->
    exists g' nu nv,
      Graph.add_edge g u v = Ok g'
      /\ Graph.get_neighbors g' u = Ok nu /\ In v nu
      /\ Graph.get_neighbors g' v = Ok nv /\ In u nv.
Proof.
  intros g u v Hd Hu Hv. unfold Graph.contains_vertex in *.
  apply dict_has_spec in Hu, Hv. apply dict_get_in_keys in Hu.
  destruct (dict_get (Graph.vertex_dict g) u) as [lu|] eqn:Eu; [|congruence].
  set (g' := Graph.mk (dict_set (Graph.vertex_dict g) u (lu ++ [v]))
               (Graph.is_directed g)).
  assert (Hgu : dict_get (Graph.vertex_dict g') u = Some (lu ++ [v]))
    by apply dict_get_set_same.
  assert (Hkeys : dict_keys (Graph.vertex_dict g')
                  = dict_keys (Graph.vertex_dict g))
    by (eapply dict_keys_set_present; eauto).
  assert (Hv' : In v (dict_keys (Graph.vertex_dict g')))
    by now rewrite Hkeys.
  apply dict_get_in_keys in Hv'.
  destruct (dict_get (Graph.vertex_dict g') v) as [lv|] eqn:Ev; [|congruence].
  exists g'. eexists. eexists. split.
  { unfold Graph.add_edge, dict_at. rewrite Eu. reflexivity. }
  rewrite (get_neighbors_present g' u _ Hgu).
  rewrite (get_neighbors_present g' v _ Ev).
  change (Graph.is_directed g') with (Graph.is_directed g). rewrite Hd.
  repeat split.
  - apply in_or_app. right. apply in_or_app. right. now left.
  - apply in_or_app. left. apply filter_In. split.
    + apply dict_get_in_keys. congruence.
    + rewrite Hgu. apply py_in_spec. apply in_or_app. right. now left.
Qed.

Lemma undirected_edge_seen_from_both_ends_witness :
  exists g' nu nv,
    Graph.add_edge (Graph.mk [("A", []); ("B", [])] false) "A" "B" = Ok g'
    /\ Graph.get_neighbors g' "A" = Ok nu /\ In "B" nu
    /\ Graph.get_neighbors g' "B" = Ok nv /\ In "A" nv.
Proof.
  apply (undirected_edge_seen_from_both_ends
           (Graph.mk [("A", []); ("B", [])] false) "A" "B");
    reflexivity.
Defined.

(** ** Insertion into [WeightedGraph] *)

Lemma get_vertex_get g k :
  WeightedGraph.get_vertex g k = dict_get (WeightedGraph.vertex_dict g) k.
Proof.
  unfold WeightedGraph.get_vertex, dict_has.
  now destruct (dict_get (WeightedGraph.vertex_dict g) k).
Qed.

(** X4: [add_vertex] answers [True] exactly for a new id; an existing
    vertex keeps its object with all its neighbours, a new one starts
    without neighbours; no other vertex is touched, and adding the same id
    again is refused and changes nothing. *)
Theorem weighted_add_vertex_keeps_existing :
  forall g v,
    fst (WeightedGraph.add_vertex g v)
    = negb (dict_has (WeightedGraph.vertex_dict g) v)
    /\ (forall u,
          WeightedGraph.get_vertex (snd (WeightedGraph.add_vertex g v)) u
          = if String.eqb u v then
              match WeightedGraph.get_vertex g v with
              | Some o => Some o
              | None => Some (WeightedGraph.mkV v [])
              end
            else WeightedGraph.get_vertex g u)
    /\ WeightedGraph.add_vertex (snd (WeightedGraph.add_vertex g v)) v
       = (false, snd (WeightedGraph.add_vertex g v)).
Proof.
  intros g v. unfold WeightedGraph.add_vertex.
  destruct (dict_has (WeightedGraph.vertex_dict g) v) eqn:Eh; simpl.
  - unfold dict_has in Eh.
    destruct (dict_get (WeightedGraph.vertex_dict g) v) eqn:Eg;
      [|discriminate].
    split; [reflexivity|]. split.
    + intros u. rewrite !get_vertex_get, Eg.
      destruct (String.eqb_spec u v) as [->|]; auto.
    + unfold dict_has. now rewrite Eg.
  - unfold dict_has in Eh.
    destruct (dict_get (WeightedGraph.vertex_dict g) v) eqn:Eg;
      [discriminate|].
    split; [reflexivity|]. split.
    + intros u. rewrite !get_vertex_get, Eg. simpl. apply dict_get_set.
    + unfold dict_has. simpl. now rewrite dict_get_set_same.
Qed.

Lemma dict_set_same_value {V} (d : dict V) k v :
  dict_get d k = Some v -> dict_set d k v = d.
Proof.
  induction d as [|[k' v'] d IH]; simpl; [discriminate|].
  destruct (String.eqb_spec k k') as [->|]; [now intros [= ->]|].
  intros H. now rewrite IH.
Qed.

Section WeightedEdges.
Import WeightedGraph.

Lemma call_on_has g k f x :
  dict_has (vertex_dict (call_on g k f)) x = dict_has (vertex_dict g) x.
Proof.
  unfold call_on. destruct (dict_get (vertex_dict g) k) as [o|] eqn:E; auto.
  simpl. unfold dict_has. rewrite dict_get_set.
  destruct (String.eqb_spec x k) as [->|]; auto. now rewrite E.
Qed.

Lemma call_on_noop g k x w :
  neighbor_weight g k x <> None ->
  call_on g k (fun o => add_neighbor o x w) = g.
Proof.
  unfold neighbor_weight, call_on.
  destruct (dict_get (vertex_dict g) k) as [o|] eqn:E; [|congruence].
  intros H. unfold add_neighbor, dict_has.
  destruct (dict_get (neighbors_dict o) x); [|congruence].
  rewrite (dict_set_same_value _ _ _ E). now destruct g.
Qed.

Lemma neighbor_weight_call_on_any g k x w a b :
  neighbor_weight (call_on g k (fun o => add_neighbor o x w)) a b =
  if String.eqb a k && String.eqb b x
     && match neighbor_weight g k x with None => true | Some _ => false end
     && dict_has (vertex_dict g) k
  then Some w else neighbor_weight g a b.
Proof.
  unfold dict_has.
  destruct (dict_get (vertex_dict g) k) as [o|] eqn:E.
  - rewrite (neighbor_weight_call_on g k o x w a b E).
    now rewrite andb_true_r.
  - rewrite andb_false_r. unfold call_on. now rewrite E.
Qed.

Lemma add_edge_present g u v w :
  self_keyed g ->
  dict_has (vertex_dict g) u = true -> dict_has (vertex_dict g) v = true ->
  add_edge g u v w =
  (None,
   if is_directed g then call_on g u (fun o => add_neighbor o v w)
   else call_on (call_on g u (fun o => add_neighbor o v w)) v
          (fun o => add_neighbor o u w)).
Proof.
  intros Hs Hu Hv. unfold add_edge. rewrite Hu, Hv. simpl.
  rewrite !get_vertex_get. unfold dict_has in Hu, Hv.
  destruct (dict_get (vertex_dict g) u) as [o1|] eqn:E1; [|discriminate].
  destruct (dict_get (vertex_dict g) v) as [o2|] eqn:E2; [|discriminate].
  rewrite (Hs _ _ E1), (Hs _ _ E2). now destruct (is_directed g).
Qed.

Lemma add_edge_self_keyed g u v w :
  self_keyed g -> self_keyed (snd (add_edge g u v w)).
Proof.
  intros Hs.
  destruct (dict_has (vertex_dict g) u) eqn:Hu;
    [destruct (dict_has (vertex_dict g) v) eqn:Hv|].
  - rewrite (add_edge_present g u v w Hs Hu Hv). simpl.
    destruct (is_directed g); repeat apply call_on_self_keyed; auto.
  - unfold add_edge. rewrite Hu, Hv. exact Hs.
  - unfold add_edge. rewrite Hu. exact Hs.
Qed.

End WeightedEdges.

Lemma self_keyedb_sound g : self_keyedb g = true -> self_keyed g.
Proof.
  unfold self_keyedb, self_keyed. destruct g as [vd dir]. simpl.
  induction vd as [|[k' o'] vd IH]; simpl; [discriminate|].
  intros H k o. apply andb_true_iff in H as [H1 H2].
  destruct (String.eqb_spec k k') as [->|].
  - intros [= <-]. now apply String.eqb_eq.
  - now apply IH.
Qed.

Lemma add_edge_entries g u v w a b :
  self_keyed g ->
  dict_has (WeightedGraph.vertex_dict g) u = true ->
  dict_has (WeightedGraph.vertex_dict g) v = true ->
  neighbor_weight (snd (WeightedGraph.add_edge g u v w)) a b =
  match neighbor_weight g a b with
  | Some z => Some z
  | None =>
      if (String.eqb a u && String.eqb b v)
         || (negb (WeightedGraph.is_directed g)
             && (String.eqb a v && String.eqb b u))
      then Some w else None
  end.
Proof.
  intros Hs Hu Hv.
  rewrite (add_edge_present g u v w Hs Hu Hv). cbn [snd].
  assert (Hv' : dict_has
            (WeightedGraph.vertex_dict
               (WeightedGraph.call_on g u
                  (fun o => WeightedGraph.add_neighbor o v w))) v = true)
    by now rewrite call_on_has.
  destruct (WeightedGraph.is_directed g); cbn [negb andb orb].
  - rewrite neighbor_weight_call_on_any, Hu, andb_true_r, orb_false_r.
    destruct (String.eqb_spec a u) as [->|]; cbn [andb];
      [|now destruct (neighbor_weight g a b)].
    destruct (String.eqb_spec b v) as [->|]; cbn [andb];
      now destruct (neighbor_weight g u _).
  - rewrite neighbor_weight_call_on_any, Hv', andb_true_r.
    rewrite !neighbor_weight_call_on_any, Hu, !andb_true_r.
    destruct (String.eqb_spec a u) as [->|];
      destruct (String.eqb_spec b v) as [->|];
      destruct (String.eqb_spec v u) as [->|];
      try (destruct (String.eqb_spec a v) as [->|]);
      try (destruct (String.eqb_spec b u) as [->|]);
      rewrite ?String.eqb_refl; cbn [andb orb];
      repeat match goal with
        | H : ?x <> ?y |- context [String.eqb ?x ?y] =>
            rewrite (proj2 (String.eqb_neq x y) H)
        | H : ?x <> ?y |- context [String.eqb ?y ?x] =>
            rewrite (proj2 (String.eqb_neq y x) (not_eq_sym H))
        end; cbn [andb orb];
      repeat match goal with
        | |- context [neighbor_weight g ?x ?y] =>
            destruct (neighbor_weight g x y); cbn [andb orb]
        end; try reflexivity; try congruence.
Qed.

(** X5: [WeightedGraph.add_edge] between two stored vertices, entry by
    entry: a weight already recorded is never overwritten; the only
    entries created are [(u, v)] and, in an undirected graph, [(v, u)],
    both with the new weight. *)
Theorem weighted_add_edge_entries : forall g u v w a b,
  self_keyed g ->
  dict_has (WeightedGraph.vertex_dict g) u = true ->
  dict_has (WeightedGraph.vertex_dict g) v = true ->
  neighbor_weight (snd (WeightedGraph.add_edge g u v w)) a b =
  match neighbor_weight g a b with
  | Some z => Some z
  | None =>
      if (String.eqb a u && String.eqb b v)
         || (negb (WeightedGraph.is_directed g)
             && (String.eqb a v && String.eqb b u))
      then Some w else None
  end.
Proof. exact add_edge_entries. Qed.

Lemma weighted_add_edge_entries_witness :
  neighbor_weight (snd (WeightedGraph.add_edge wg_triangle "C" "B" 9%Z))
    "B" "C" = Some 2%Z
  /\ neighbor_weight (snd (WeightedGraph.add_edge wg_triangle "C" "B" 9%Z))
       "C" "B" = Some 9%Z
  /\ neighbor_weight (snd (WeightedGraph.add_edge wg_pair "B" "B" 9%Z))
       "B" "A" = Some 7%Z.
Proof.
  split; [|split].
  - apply (weighted_add_edge_entries wg_triangle "C" "B" 9%Z "B" "C");
      [apply self_keyedb_sound|..]; reflexivity.
  - apply (weighted_add_edge_entries wg_triangle "C" "B" 9%Z "C" "B");
      [apply self_keyedb_sound|..]; reflexivity.
  - apply (weighted_add_edge_entries wg_pair "B" "B" 9%Z "B" "A");
      [apply self_keyedb_sound|..]; reflexivity.
Defined.

(** X6: a call of [WeightedGraph.add_edge] that names an id which is not
    stored returns False and leaves the graph as it was; any other call
    returns None; and repeating a call with another weight returns the
    same value and changes nothing more, so the weight given first
    stays. *)
Theorem weighted_add_edge_repeat : forall g u v w1 w2,
  self_keyed g ->
  fst (WeightedGraph.add_edge g u v w1) =
    (if dict_has (WeightedGraph.vertex_dict g) u
        && dict_has (WeightedGraph.vertex_dict g) v
     then None else Some false)
  /\ (dict_has (WeightedGraph.vertex_dict g) u
      && dict_has (WeightedGraph.vertex_dict g) v = false ->
      snd (WeightedGraph.add_edge g u v w1) = g)
  /\ WeightedGraph.add_edge (snd (WeightedGraph.add_edge g u v w1)) u v w2 =
     WeightedGraph.add_edge g u v w1.
Proof.
  intros g u v w1 w2 Hs.
  destruct (dict_has (WeightedGraph.vertex_dict g) u) eqn:Hu;
    [destruct (dict_has (WeightedGraph.vertex_dict g) v) eqn:Hv|];
    cbn [andb].
  2,3: unfold WeightedGraph.add_edge; rewrite Hu, ?Hv; cbn [negb orb fst snd];
       rewrite Hu, ?Hv; cbn [negb orb]; auto.
  split; [now rewrite (add_edge_present g u v w1 Hs Hu Hv)|].
  split; [discriminate|].
  pose proof (add_edge_self_keyed g u v w1 Hs) as Hs1.
  assert (Hnw :
    neighbor_weight (snd (WeightedGraph.add_edge g u v w1)) u v <> None
    /\ (WeightedGraph.is_directed g = false ->
        neighbor_weight (snd (WeightedGraph.add_edge g u v w1)) v u <> None)).
  { split; [|intros Hdir];
      rewrite (add_edge_entries g u v w1 _ _ Hs Hu Hv), ?Hdir,
        !String.eqb_refl; cbn [negb andb orb];
      [destruct (neighbor_weight g u v)|destruct (neighbor_weight g v u)];
      try discriminate; now rewrite ?orb_true_r. }
  rewrite (add_edge_present g u v w1 Hs Hu Hv) in *. cbn [snd] in *.
  set (g1 := if WeightedGraph.is_directed g then _ else _) in *.
  assert (Hd : WeightedGraph.is_directed g1 = WeightedGraph.is_directed g).
  { unfold g1. destruct (WeightedGraph.is_directed g) eqn:Hdir;
      now rewrite ?call_on_directed. }
  assert (Hu1 : dict_has (WeightedGraph.vertex_dict g1) u = true).
  { unfold g1. destruct (WeightedGraph.is_directed g);
      now rewrite ?call_on_has. }
  assert (Hv1 : dict_has (WeightedGraph.vertex_dict g1) v = true).
  { unfold g1. destruct (WeightedGraph.is_directed g);
      now rewrite ?call_on_has. }
  rewrite (add_edge_present g1 u v w2 Hs1 Hu1 Hv1). f_equal.
  destruct Hnw as [Huv Hvu].
  rewrite (call_on_noop g1 u v w2 Huv).
  rewrite Hd. destruct (WeightedGraph.is_directed g) eqn:Hdir; auto.
  apply call_on_noop. now apply Hvu.
Qed.

Lemma weighted_add_edge_repeat_witness :
  fst (WeightedGraph.add_edge wg_triangle "C" "B" 9%Z) =
    (if dict_has (WeightedGraph.vertex_dict wg_triangle) "C"
        && dict_has (WeightedGraph.vertex_dict wg_triangle) "B"
     then None else Some false)
  /\ (dict_has (WeightedGraph.vertex_dict wg_triangle) "C"
      && dict_has (WeightedGraph.vertex_dict wg_triangle) "B" = false ->
      snd (WeightedGraph.add_edge wg_triangle "C" "B" 9%Z) = wg_triangle)
  /\ WeightedGraph.add_edge
       (snd (WeightedGraph.add_edge wg_triangle "C" "B" 9%Z)) "C" "B" 4%Z =
     WeightedGraph.add_edge wg_triangle "C" "B" 9%Z.
Proof.
  apply (weighted_add_edge_repeat wg_triangle "C" "B" 9%Z 4%Z).
  apply self_keyedb_sound. reflexivity.
Defined.

(** ** The minimum of a weight map *)

Lemma num_lt_le_trans a b c :
  num_ltb a b = true -> num_le b c -> num_ltb a c = true.
Proof.
  unfold num_le. destruct a, b, c; simpl; try congruence.
  rewrite !Z.ltb_lt, Z.ltb_ge. lia.
Qed.

Lemma smallest_scan_first vtw : forall ks p1 cur p2,
  incl (cur :: ks) (dict_keys vtw) ->
  (forall x, In x p1 -> num_ltb (wt vtw cur) (wt vtw x) = true) ->
  (forall x, In x p2 -> num_le (wt vtw cur) (wt vtw x)) ->
  exists k q1 q2,
    WeightedGraph.smallest_scan ks vtw cur = Ok k
    /\ (p1 ++ cur :: p2) ++ ks = q1 ++ k :: q2
    /\ (forall x, In x q1 -> num_ltb (wt vtw k) (wt vtw x) = true)
    /\ (forall x, In x q2 -> num_le (wt vtw k) (wt vtw x)).
Proof.
  induction ks as [|k1 ks IH]; intros p1 cur p2 Hin H1 H2.
  - exists cur, p1, p2. rewrite app_nil_r. auto.
  - cbn [WeightedGraph.smallest_scan]. unfold dict_at.
    assert (G1 : In k1 (dict_keys vtw)) by (apply Hin; simpl; auto).
    assert (Gc : In cur (dict_keys vtw)) by (apply Hin; simpl; auto).
    apply dict_get_in_keys in G1. apply dict_get_in_keys in Gc.
    destruct (dict_get vtw k1) as [a|] eqn:Ea; [|congruence].
    destruct (dict_get vtw cur) as [b|] eqn:Eb; [|congruence].
    cbn [bind].
    assert (Hwa : wt vtw k1 = a) by (unfold wt; now rewrite Ea).
    assert (Hwb : wt vtw cur = b) by (unfold wt; now rewrite Eb).
    subst a b.
    destruct (num_ltb (wt vtw k1) (wt vtw cur)) eqn:Elt.
    + destruct (IH (p1 ++ cur :: p2) k1 []) as (k & q1 & q2 & F & E & Q1 & Q2).
      * intros x Hx. apply Hin. now right.
      * intros x Hx. apply in_app_or in Hx as [Hx|[<-|Hx]].
        -- eapply num_lt_le_trans; [exact Elt|].
           apply num_ltb_le. now apply H1.
        -- exact Elt.
        -- eapply num_lt_le_trans; [exact Elt|].
           now apply H2.
      * intros x [].
      * exists k, q1, q2. split; [exact F|]. split; auto.
        rewrite <- E. cbn [app]. now rewrite <- !app_assoc.
    + destruct (IH p1 cur (p2 ++ [k1])) as (k & q1 & q2 & F & E & Q1 & Q2).
      * intros x [<-|Hx]; apply Hin; simpl; auto.
      * exact H1.
      * intros x Hx. apply in_app_or in Hx as [Hx|[<-|[]]]; auto.
      * exists k, q1, q2. split; [exact F|]. split; auto.
        rewrite <- E. rewrite <- !app_assoc. cbn [app].
        now rewrite <- app_assoc.
Qed.

(** X7: [get_smallest_vetext] raises IndexError on an empty map and on no
    other; otherwise it returns a key of the least weight, and of the keys
    of that weight the one that comes first in the map's order. *)
Theorem get_smallest_vetext_first_minimum : forall vtw,
  match WeightedGraph.get_smallest_vetext vtw with
  | Ok k =>
      exists l1 l2,
        dict_keys vtw = l1 ++ k :: l2
        /\ (forall x, In x l1 -> num_ltb (wt vtw k) (wt vtw x) = true)
        /\ (forall x, In x l2 -> num_ltb (wt vtw x) (wt vtw k) = false)
  | Raise e => e = IndexError /\ vtw = []
  | OutOfFuel => False
  end.
Proof.
  intros vtw. unfold WeightedGraph.get_smallest_vetext.
  destruct (dict_keys vtw) as [|k0 ks] eqn:Ek.
  - split; auto. destruct vtw; [reflexivity|discriminate].
  - cbn [WeightedGraph.smallest_scan]. unfold dict_at.
    assert (G0 : In k0 (dict_keys vtw)) by (rewrite Ek; now left).
    apply dict_get_in_keys in G0.
    destruct (dict_get vtw k0) as [a|] eqn:Ea; [|congruence].
    cbn [bind].
    replace (if num_ltb a a then k0 else k0) with k0
      by now destruct (num_ltb a a).
    destruct (smallest_scan_first vtw ks [] k0 [])
      as (k & q1 & q2 & F & E & Q1 & Q2).
    + rewrite <- Ek. apply incl_refl.
    + intros x [].
    + intros x [].
    + rewrite F. exists q1, q2. split; [exact E|]. split; auto.
Qed.

(** ** Minimum spanning trees *)

Lemma wg_square_built : built_undirected wg_square.
Proof.
  unfold wg_square, build_weighted. cbn [fold_left].
  repeat apply built_add_edge. repeat apply built_add_vertex.
  apply built_init.
Qed.

Lemma wg_square_connected : connected wg_square.
Proof.
  split; [vm_compute; discriminate|].
  assert (HA : forall x,
            In x (dict_keys (WeightedGraph.vertex_dict wg_square)) ->
            conn (WeightedGraph.all_edges wg_square) "A" x).
  { assert (L1 : link (WeightedGraph.all_edges wg_square) "A" "B")
      by (exists 1%Z; left; vm_compute; tauto).
    assert (L2 : link (WeightedGraph.all_edges wg_square) "B" "C")
      by (exists 2%Z; left; vm_compute; tauto).
    assert (L3 : link (WeightedGraph.all_edges wg_square) "A" "D")
      by (exists 4%Z; left; vm_compute; tauto).
    intros x Hx. vm_compute in Hx.
    destruct Hx as [<-|[<-|[<-|[<-|[]]]]].
    - apply conn_refl.
    - now apply conn_link.
    - eapply conn_step; [apply conn_link; exact L1|exact L2].
    - now apply conn_link. }
  intros x y Hx Hy. eapply conn_trans; [apply conn_sym|]; apply HA; auto.
Qed.

(** An edge list that can be completed to a spanning tree below any given
    one, and already has the size of a spanning tree, is a lightest
    spanning tree as soon as one spanning tree exists. *)
Lemma mst_inv_full V E A B :
  mst_inv V E A -> S (length A) = length V -> spanning V E B ->
  spanning V E A
  /\ forall T, spanning V E T -> (total_weight A <= total_weight T)%Z.
Proof.
  intros HA Hlen HB.
  assert (Hc : forall T, spanning V E T ->
             spanning V E A /\ (total_weight A <= total_weight T)%Z).
  { intros T HT. destruct (HA T HT) as (R & HR & Hw).
    assert (R = []).
    { destruct HR as (_ & HlR & _). rewrite length_app in HlR.
      destruct R; [reflexivity|simpl in HlR; lia]. }
    subst R. rewrite app_nil_r in *. auto. }
  split; [apply (Hc B HB)|intros T HT; apply (Hc T HT)].
Qed.

(** X8: on a connected undirected graph built with [add_vertex] and
    [add_edge], [minimum_spanning_tree_kruskal] returns a spanning tree of
    the graph (edges of the graph, one less than there are vertices,
    joining all of them), and no spanning tree weighs less. *)
Theorem kruskal_returns_minimum_spanning_tree : forall g,
  built_undirected g -> connected g ->
  exists T,
    WeightedGraph.minimum_spanning_tree_kruskal g = Ok T
    /\ spanning (dict_keys (WeightedGraph.vertex_dict g))
         (WeightedGraph.all_edges g) T
    /\ forall T',
         spanning (dict_keys (WeightedGraph.vertex_dict g))
           (WeightedGraph.all_edges g) T' ->
         (total_weight T <= total_weight T')%Z.
Proof.
  intros g Hb [Hne Hj]. pose proof (built_undirected_wf g Hb) as Hwf.
  destruct (kruskal_correct g Hwf Hne Hj) as (T & HT & HmT & HlT).
  destruct (prim_correct g Hwf Hne Hj) as (A & _ & HsA & _).
  exists T. split; [exact HT|].
  exact (mst_inv_full _ _ T A HmT HlT HsA).
Qed.

Lemma kruskal_returns_minimum_spanning_tree_witness :
  exists T,
    WeightedGraph.minimum_spanning_tree_kruskal wg_square = Ok T
    /\ spanning (dict_keys (WeightedGraph.vertex_dict wg_square))
         (WeightedGraph.all_edges wg_square) T
    /\ forall T',
         spanning (dict_keys (WeightedGraph.vertex_dict wg_square))
           (WeightedGraph.all_edges wg_square) T' ->
         (total_weight T <= total_weight T')%Z.
Proof.
  apply (kruskal_returns_minimum_spanning_tree wg_square).
  - exact wg_square_built.
  - exact wg_square_connected.
Defined.

(** X9: on the same graphs [minimum_spanning_tree_prim] returns a finite
    number, the total weight of a spanning tree of the graph that no
    spanning tree undercuts. *)
Theorem prim_returns_minimum_weight : forall g,
  built_undirected g -> connected g ->
  exists A,
    WeightedGraph.minimum_spanning_tree_prim g = Ok (Fin (total_weight A))
    /\ spanning (dict_keys (WeightedGraph.vertex_dict g))
         (WeightedGraph.all_edges g) A
    /\ forall T',
         spanning (dict_keys (WeightedGraph.vertex_dict g))
           (WeightedGraph.all_edges g) T' ->
         (total_weight A <= total_weight T')%Z.
Proof.
  intros g Hb [Hne Hj]. pose proof (built_undirected_wf g Hb) as Hwf.
  destruct (prim_correct g Hwf Hne Hj) as (A & HA & HsA & HmA).
  exists A. split; [exact HA|].
  destruct HsA as (Hi & Hl & Hc).
  exact (mst_inv_full _ _ A A HmA Hl (conj Hi (conj Hl Hc))).
Qed.

Lemma prim_returns_minimum_weight_witness :
  exists A,
    WeightedGraph.minimum_spanning_tree_prim wg_square
      = Ok (Fin (total_weight A))
    /\ spanning (dict_keys (WeightedGraph.vertex_dict wg_square))
         (WeightedGraph.all_edges wg_square) A
    /\ forall T',
         spanning (dict_keys (WeightedGraph.vertex_dict wg_square))
           (WeightedGraph.all_edges wg_square) T' ->
         (total_weight A <= total_weight T')%Z.
Proof.
  apply (prim_returns_minimum_weight wg_square).
  - exact wg_square_built.
  - exact wg_square_connected.
Defined.

(** ** [find_shortest_path] without a path *)

Lemma walk_reachable g s t p : walk g s t p -> reachable g s t.
Proof.
  induction 1 as [|u v p Hw IH Hadj]; [constructor|].
  eapply reach_step; eauto.
Qed.

Lemma sp_inv_initial g s :
  In s (dict_keys (Graph.vertex_dict g)) -> sp_inv g s [(s, [s])] [s] [].
Proof.
  intros Hs. constructor.
  - reflexivity.
  - constructor; [intros []|constructor].
  - intros x [<-|[]]. exact Hs.
  - now left.
  - intros v p. simpl.
    destruct (String.eqb_spec v s) as [->|]; [|discriminate].
    intros [= <-]. constructor.
  - exists [s], [], 1. repeat split.
    + intros x [<-|[]]. unfold plen. simpl. now rewrite String.eqb_refl.
    + intros x [].
  - intros u v [].
  - intros v p q. simpl.
    destruct (String.eqb_spec v s) as [->|]; [|discriminate].
    intros [= <-] Hw. apply walk_nonempty in Hw. destruct q; simpl.
    + congruence.
    + lia.
Qed.

Section ShortestPathTotal.
Variable g : Graph.t.
Hypothesis g_closed : closed g.
Variable s : vid.

(** The search always comes to an end, with paths from the start only. *)
Lemma sp_loop_total target : forall fuel pd queue out,
  sp_inv g s pd queue out ->
  length queue + length (dict_keys (Graph.vertex_dict g))
    <= fuel + length (dict_keys pd) ->
  exists pd' queue' out',
    Graph.sp_loop fuel g target pd queue = Ok pd'
    /\ sp_inv g s pd' queue' out'.
Proof.
  induction fuel as [|fuel IH]; intros pd queue out I Hfuel;
    destruct queue as [|cur queue].
  - exists pd, [], out. auto.
  - simpl. destruct (String.eqb_spec cur target) as [->|Hne].
    + exists pd, (target :: queue), out. auto.
    + exfalso.
      pose proof (NoDup_incl_length (sp_nodup _ _ _ _ _ I)
                    (sp_known _ _ _ _ _ I)).
      simpl in Hfuel. lia.
  - exists pd, [], out. auto.
  - cbn [Graph.sp_loop]. destruct (String.eqb_spec cur target) as [->|Hne].
    + exists pd, (target :: queue), out. auto.
    + assert (Hcur : In cur (dict_keys pd)).
      { rewrite (sp_keys _ _ _ _ _ I). apply in_or_app. right. now left. }
      destruct (get_neighbors_closed g g_closed cur
                  (sp_known _ _ _ _ _ I cur Hcur)) as (ns & Hns & Hnsk).
      rewrite Hns. simpl.
      pose proof Hcur as Hget. apply dict_get_in_keys in Hget.
      destruct (dict_get pd cur) as [pc|] eqn:Epc; [|congruence].
      destruct (sp_scan_spec cur pc ns pd queue Epc (sp_nodup _ _ _ _ _ I))
        as (new & H1 & H2 & H3 & H4).
      rewrite H1. simpl.
      apply (IH _ _ (out ++ [cur])); auto.
      * eapply sp_inv_step; eauto.
      * rewrite dict_keys_app, dict_keys_map_self, !length_app.
        simpl in Hfuel. lia.
Qed.

End ShortestPathTotal.

(** X10: on a graph whose stored neighbour ids are all vertices,
    [find_shortest_path] raises nothing but KeyError, and raises it exactly
    when the start is not a vertex or the target cannot be reached from
    it; in every other case it returns a path from start to target. *)
Theorem find_shortest_path_key_error : forall g start_id target_id,
  closed g ->
  match Graph.find_shortest_path g start_id target_id with
  | Ok p =>
      In start_id (dict_keys (Graph.vertex_dict g))
      /\ reachable g start_id target_id
      /\ path_between g start_id target_id p
  | Raise e =>
      e = KeyError
      /\ ~ (In start_id (dict_keys (Graph.vertex_dict g))
            /\ reachable g start_id target_id)
  | OutOfFuel => False
  end.
Proof.
  intros g s t Hc. unfold Graph.find_shortest_path.
  destruct (dict_has (Graph.vertex_dict g) s) eqn:Hs; cbn [negb].
  2:{ split; [reflexivity|]. intros [Hin _].
      apply dict_has_spec in Hin. congruence. }
  apply dict_has_spec in Hs.
  destruct (sp_loop_total g Hc s t (Graph.fuel_of g) [(s, [s])] [s] [])
    as (pd' & queue' & out' & H1 & I).
  - now apply sp_inv_initial.
  - unfold Graph.fuel_of, Graph.mentioned. rewrite length_app. simpl. lia.
  - rewrite H1. cbn [bind]. unfold dict_at.
    destruct (dict_get pd' t) as [p|] eqn:Ep.
    + pose proof (sp_walk _ _ _ _ _ I t p Ep) as Hw.
      split; [exact Hs|]. split; [eapply walk_reachable; eauto|].
      now apply walk_path_between.
    + split; [reflexivity|]. intros [_ Hr].
      destruct (sp_loop_spec g Hc s t (Graph.fuel_of g) [(s, [s])] [s] [])
        as (pd2 & p & G1 & G2 & _); auto.
      * now apply sp_inv_initial.
      * unfold Graph.fuel_of, Graph.mentioned. rewrite length_app. simpl. lia.
      * congruence.
Qed.

Lemma find_shortest_path_key_error_witness :
  match Graph.find_shortest_path g_arrow "B" "A" with
  | Ok p =>
      In "B" (dict_keys (Graph.vertex_dict g_arrow))
      /\ reachable g_arrow "B" "A"
      /\ path_between g_arrow "B" "A" p
  | Raise e =>
      e = KeyError
      /\ ~ (In "B" (dict_keys (Graph.vertex_dict g_arrow))
            /\ reachable g_arrow "B" "A")
  | OutOfFuel => False
  end.
Proof.
  apply (find_shortest_path_key_error g_arrow "B" "A").
  apply closedb_sound. reflexivity.
Defined.

(** ** Two-colouring *)

Lemma bip_scan_spec vertex cv ns : forall vc queue,
  dict_get vc vertex = Some cv ->
  NoDup (dict_keys vc) ->
  (exists n, In n ns /\ dict_get vc n = Some cv
             /\ Graph.bip_scan ns vertex vc queue = Ok (inl false))
  \/ (exists new,
        Graph.bip_scan ns vertex vc queue =
          Ok (inr (vc ++ map (fun n => (n, negb cv)) new, queue ++ new))
        /\ NoDup (dict_keys vc ++ new)
        /\ incl new ns
        /\ forall n, In n ns ->
             exists b,
               dict_get (vc ++ map (fun n => (n, negb cv)) new) n = Some b
               /\ b <> cv).
Proof.
  induction ns as [|n ns IH]; intros vc queue Hcur Hnd.
  - right. exists []. simpl. rewrite !app_nil_r. repeat split; auto.
    + apply incl_refl.
    + intros n [].
  - cbn [Graph.bip_scan]. destruct (dict_has vc n) eqn:E; cbn [negb].
    + unfold dict_at. rewrite Hcur. unfold dict_has in E.
      destruct (dict_get vc n) as [cn|] eqn:En; [|discriminate].
      cbn [bind]. destruct (Bool.eqb cn cv) eqn:Ec.
      * left. exists n. apply Bool.eqb_prop in Ec. subst cn.
        split; [now left|]. auto.
      * destruct (IH vc queue Hcur Hnd)
          as [(m & Hm & Hcm & F)|(new & H1 & H2 & H3 & H4)].
        -- left. exists m. split; [now right|]. auto.
        -- right. exists new. repeat split; auto.
           ++ now apply incl_tl.
           ++ intros m [<-|Hm]; auto.
              exists cn. rewrite dict_get_app, En. split; auto.
              intros ->. now rewrite Bool.eqb_reflx in Ec.
    + assert (Hn : ~ In n (dict_keys vc)).
      { intros H. apply dict_has_spec in H. congruence. }
      unfold dict_at. rewrite Hcur. cbn [bind].
      rewrite (dict_set_fresh vc n _ Hn).
      destruct (IH (vc ++ [(n, negb cv)]) (queue ++ [n]))
        as [(m & Hm & Hcm & F)|(new & H1 & H2 & H3 & H4)].
      * rewrite dict_get_app, Hcur. reflexivity.
      * rewrite dict_keys_app. simpl. now apply NoDup_snoc.
      * left. exists m. split; [now right|]. split; [|exact F].
        rewrite dict_get_app in Hcm.
        destruct (dict_get vc m); [exact Hcm|].
        simpl in Hcm. destruct (String.eqb m n); [|discriminate].
        injection Hcm as Hcm. now destruct cv.
      * right. rewrite dict_keys_app in H2. simpl in H2.
        exists (n :: new). rewrite H1. cbn [map].
        rewrite <- !app_assoc in *. cbn [app] in *.
        repeat split; auto.
        -- intros x [<-|Hx]; [now left | right; auto].
        -- intros m [<-|Hm]; auto.
           exists (negb cv). rewrite dict_get_app, (dict_get_none vc n Hn).
           simpl. rewrite String.eqb_refl. split; auto. now destruct cv.
Qed.

Lemma color_of_app_old vc ext x :
  In x (dict_keys vc) -> color_of (vc ++ ext) x = color_of vc x.
Proof.
  intros H. unfold color_of. rewrite dict_get_app.
  apply dict_get_in_keys in H. now destruct (dict_get vc x).
Qed.

Section Bipartite.
Variable g : Graph.t.
Hypothesis g_closed : closed g.
Variable s : vid.

Lemma bip_inv_initial :
  In s (dict_keys (Graph.vertex_dict g)) -> bip_inv g s [(s, true)] [s] [].
Proof.
  intros Hs. constructor.
  - reflexivity.
  - constructor; [intros []|constructor].
  - intros x [<-|[]]. exact Hs.
  - now left.
  - intros c Hc v b. simpl.
    destruct (String.eqb_spec v s) as [->|]; [|discriminate].
    intros [= <-]. now destruct (c s).
  - intros u v [].
Qed.

Lemma bip_inv_step vc cur queue out ns cv new :
  bip_inv g s vc (cur :: queue) out ->
  Graph.get_neighbors g cur = Ok ns ->
  incl ns (dict_keys (Graph.vertex_dict g)) ->
  dict_get vc cur = Some cv ->
  NoDup (dict_keys vc ++ new) ->
  incl new ns ->
  (forall n, In n ns ->
     exists b, dict_get (vc ++ map (fun n => (n, negb cv)) new) n = Some b
               /\ b <> cv) ->
  bip_inv g s (vc ++ map (fun n => (n, negb cv)) new)
    (queue ++ new) (out ++ [cur]).
Proof.
  intros I Hns Hnsk Hcur Hnd Hnew Hall.
  assert (Hout : forall x, In x out -> In x (dict_keys vc)).
  { intros x Hx. rewrite (bip_keys _ _ _ _ _ I). apply in_or_app. now left. }
  constructor.
  - rewrite dict_keys_app, dict_keys_map_self, (bip_keys _ _ _ _ _ I).
    rewrite <- !app_assoc. reflexivity.
  - now rewrite dict_keys_app, dict_keys_map_self.
  - rewrite dict_keys_app, dict_keys_map_self. apply incl_app.
    + apply (bip_known _ _ _ _ _ I).
    + intros x Hx. auto.
  - rewrite dict_keys_app. apply in_or_app. left.
    apply (bip_start _ _ _ _ _ I).
  - intros c Hc v b. rewrite dict_get_app.
    destruct (dict_get vc v) as [b0|] eqn:Ev.
    + intros [= <-]. eapply (bip_forced _ _ _ _ _ I); eauto.
    + intros Hv.
      assert (Hin : In v new).
      { assert (H : In v (dict_keys (map (fun n => (n, negb cv)) new)))
          by (apply dict_get_in_keys; congruence).
        now rewrite dict_keys_map_self in H. }
      rewrite (dict_get_map_self (fun _ => negb cv) new v Hin) in Hv.
      injection Hv as <-.
      pose proof (bip_forced _ _ _ _ _ I c Hc cur cv Hcur) as Hcc.
      assert (Hadj : adjacent g cur v) by (exists ns; auto).
      apply Hc in Hadj. rewrite Hcc in Hadj.
      destruct cv, (c s), (c v); simpl in *; congruence.
  - intros u v Hu Hadj. apply in_app_or in Hu. destruct Hu as [Hu|[<-|[]]].
    + destruct (bip_checked _ _ _ _ _ I u v Hu Hadj) as [Hv Hne].
      split; [rewrite dict_keys_app; apply in_or_app; now left|].
      rewrite !color_of_app_old; auto.
    + destruct Hadj as (ns' & Hns' & Hv).
      assert (ns' = ns) by congruence. subst ns'.
      destruct (Hall v Hv) as (b & Hb & Hne).
      split; [apply dict_get_in_keys; congruence|].
      unfold color_of. rewrite Hb, dict_get_app, Hcur. congruence.
Qed.

Lemma bip_loop_spec : forall fuel vc queue out,
  bip_inv g s vc queue out ->
  length queue + length (dict_keys (Graph.vertex_dict g))
    <= fuel + length (dict_keys vc) ->
  (Graph.bip_loop fuel g vc queue = Ok false /\ forall c, ~ proper g c)
  \/ (exists vc' out',
        Graph.bip_loop fuel g vc queue = Ok true /\ bip_inv g s vc' [] out').
Proof.
  induction fuel as [|fuel IH]; intros vc queue out I Hfuel;
    destruct queue as [|cur queue].
  - right. exists vc, out. auto.
  - exfalso.
    pose proof (NoDup_incl_length (bip_nodup _ _ _ _ _ I)
                  (bip_known _ _ _ _ _ I)).
    simpl in Hfuel. lia.
  - right. exists vc, out. auto.
  - cbn [Graph.bip_loop].
    assert (Hcur : In cur (dict_keys vc)).
    { rewrite (bip_keys _ _ _ _ _ I). apply in_or_app. right. now left. }
    destruct (get_neighbors_closed g g_closed cur
                (bip_known _ _ _ _ _ I cur Hcur)) as (ns & Hns & Hnsk).
    rewrite Hns. cbn [bind].
    pose proof Hcur as Hget. apply dict_get_in_keys in Hget.
    destruct (dict_get vc cur) as [cv|] eqn:Ecv; [|congruence].
    destruct (bip_scan_spec cur cv ns vc queue Ecv (bip_nodup _ _ _ _ _ I))
      as [(n & Hn & Hcn & F)|(new & H1 & H2 & H3 & H4)].
    + rewrite F. cbn [bind]. left. split; [reflexivity|].
      intros c Hc.
      pose proof (bip_forced _ _ _ _ _ I c Hc cur cv Ecv) as E1.
      pose proof (bip_forced _ _ _ _ _ I c Hc n cv Hcn) as E2.
      apply (Hc cur n); [exists ns; auto|congruence].
    + rewrite H1. cbn [bind].
      apply (IH _ _ (out ++ [cur])).
      * eapply bip_inv_step; eauto.
      * rewrite dict_keys_app, dict_keys_map_self, !length_app.
        simpl in Hfuel. lia.
Qed.

Lemma bip_inv_final vc out u :
  bip_inv g s vc [] out -> reachable g s u -> In u out.
Proof.
  intros I. pose proof (bip_keys _ _ _ _ _ I) as Hk.
  rewrite app_nil_r in Hk.
  induction 1 as [|u v Hr IH Hadj].
  - rewrite <- Hk. apply (bip_start _ _ _ _ _ I).
  - rewrite <- Hk. apply (bip_checked _ _ _ _ _ I u v IH Hadj).
Qed.

End Bipartite.

(** X11: on a graph whose stored neighbour ids are all vertices,
    [is_bipartite] raises only on the graph without vertices; the answer
    False is given only when no colouring with two colours separates the
    ends of every edge; the answer True comes with such a colouring of the
    vertices that can be reached from the first vertex (the others are not
    looked at). *)
Theorem is_bipartite_sound : forall g,
  closed g ->
  match Graph.is_bipartite g with
  | Ok b =>
      if b then
        exists (s : vid) (c : vid -> bool),
          hd_error (dict_keys (Graph.vertex_dict g)) = Some s
          /\ forall u v, reachable g s u -> adjacent g u v -> c u <> c v
      else forall c, ~ proper g c
  | Raise e => e = IndexError /\ Graph.vertex_dict g = []
  | OutOfFuel => False
  end.
Proof.
  intros g Hc. unfold Graph.is_bipartite.
  destruct (dict_keys (Graph.vertex_dict g)) as [|s ks] eqn:Ek.
  - split; [reflexivity|].
    destruct (Graph.vertex_dict g); [reflexivity|discriminate].
  - assert (Hs : In s (dict_keys (Graph.vertex_dict g)))
      by (rewrite Ek; now left).
    destruct (bip_loop_spec g Hc s (Graph.fuel_of g) [(s, true)] [s] [])
      as [[F Hno]|(vc' & out' & F & I)].
    + now apply bip_inv_initial.
    + unfold Graph.fuel_of, Graph.mentioned. rewrite length_app. simpl. lia.
    + rewrite F. exact Hno.
    + rewrite F. exists s, (color_of vc'). split; [reflexivity|].
      intros u v Hr Hadj.
      apply (bip_checked _ _ _ _ _ I u v); auto.
      eapply bip_inv_final; eauto.
Qed.

Lemma is_bipartite_sound_witness :
  match Graph.is_bipartite g_cycle3 with
  | Ok b =>
      if b then
        exists (s : vid) (c : vid -> bool),
          hd_error (dict_keys (Graph.vertex_dict g_cycle3)) = Some s
          /\ forall u v, reachable g_cycle3 s u -> adjacent g_cycle3 u v ->
                         c u <> c v
      else forall c, ~ proper g_cycle3 c
  | Raise e => e = IndexError /\ Graph.vertex_dict g_cycle3 = []
  | OutOfFuel => False
  end.
Proof.
  apply (is_bipartite_sound g_cycle3).
  apply closedb_sound. reflexivity.
Defined.

(** ** What a component holds *)

Lemma reachable_trans g a b c :
  reachable g a b -> reachable g b c -> reachable g a c.
Proof.
  intros Hab Hbc. induction Hbc as [|u v Hu IH Hadj]; auto.
  eapply reach_step; eauto.
Qed.

Lemma reachable_sym g a b :
  Graph.is_directed g = false -> closed g ->
  reachable g a b -> reachable g b a.
Proof.
  intros Hd Hc. induction 1 as [|u v Hu IH Hadj]; [constructor|].
  eapply reachable_trans; [|exact IH].
  eapply reach_step; [constructor|]. now apply adjacent_sym.
Qed.

Lemma fcc_scan_post : forall ns seen nv queue seen' nv' queue',
  Graph.fcc_scan ns seen nv queue = Ok (seen', nv', queue') ->
  exists new,
    seen' = seen ++ new /\ queue' = queue ++ new /\ incl new ns
    /\ forall n, In n ns -> In n seen'.
Proof.
  induction ns as [|n ns IH]; intros seen nv queue seen' nv' queue' H;
    cbn [Graph.fcc_scan] in H.
  - injection H as <- <- <-. exists []. rewrite !app_nil_r.
    repeat split; auto. apply incl_refl. intros n [].
  - destruct (py_in n seen) eqn:Es.
    + destruct (IH _ _ _ _ _ _ H) as (new & -> & -> & Hi & Hall).
      exists new. repeat split; auto.
      * now apply incl_tl.
      * intros m [<-|Hm]; auto. apply in_or_app. left.
        now apply py_in_spec.
    + destruct (py_in n nv); [|discriminate].
      destruct (IH _ _ _ _ _ _ H) as (new & -> & -> & Hi & Hall).
      exists (n :: new). rewrite <- !app_assoc. cbn [app].
      repeat split; auto.
      * intros x [<-|Hx]; [now left|right; auto].
      * intros m [<-|Hm].
        -- apply in_or_app. right. now left.
        -- specialize (Hall m Hm). now rewrite <- app_assoc in Hall.
Qed.

Lemma fcc_bfs_post g start : forall fuel seen nv queue seen' nv',
  Graph.fcc_bfs fuel g seen nv queue = Ok (seen', nv') ->
  incl queue seen ->
  (forall u, In u seen -> reachable g start u) ->
  (forall u, In u seen ->
     In u queue \/ forall v, adjacent g u v -> In v seen) ->
  incl seen seen'
  /\ (forall u, In u seen' -> reachable g start u)
  /\ (forall u v, In u seen' -> adjacent g u v -> In v seen').
Proof.
  induction fuel as [|fuel IH]; intros seen nv queue seen' nv' H Hq Hr Hinv;
    destruct queue as [|cur queue]; cbn [Graph.fcc_bfs] in H;
    try discriminate.
  - injection H as <- <-. split; [apply incl_refl|]. split; auto.
    intros u v Hu. destruct (Hinv u Hu) as [[]|Hc]. apply Hc.
  - injection H as <- <-. split; [apply incl_refl|]. split; auto.
    intros u v Hu. destruct (Hinv u Hu) as [[]|Hc]. apply Hc.
  - destruct (Graph.get_neighbors g cur) as [ns|e|] eqn:Hns;
      cbn [bind] in H; try discriminate.
    destruct (Graph.fcc_scan ns seen nv queue) as [[[seen1 nv1] q1]|e|] eqn:Hs;
      cbn [bind] in H; try discriminate.
    destruct (fcc_scan_post _ _ _ _ _ _ _ Hs) as (new & -> & -> & Hi & Hall).
    assert (Hcur : reachable g start cur) by (apply Hr, Hq; now left).
    destruct (IH _ _ _ _ _ H) as (G1 & G2 & G3).
    + intros x Hx. apply in_app_or in Hx. apply in_or_app.
      destruct Hx as [Hx|Hx]; auto. left. apply Hq. now right.
    + intros u Hu. apply in_app_or in Hu. destruct Hu as [Hu|Hu]; auto.
      eapply reach_step; [exact Hcur|]. exists ns. auto.
    + intros u Hu. apply in_app_or in Hu. destruct Hu as [Hu|Hu].
      * destruct (Hinv u Hu) as [[<-|Hin]|Hc].
        -- right. intros v (ns' & Hns' & Hv).
           assert (ns' = ns) by congruence. subst ns'. auto.
        -- left. apply in_or_app. now left.
        -- right. intros v Hv. apply in_or_app. left. now apply Hc.
      * left. apply in_or_app. now right.
    + split; [|split; auto].
      intros x Hx. apply G1. apply in_or_app. now left.
Qed.

Lemma fcc_loop_post g (P : list vid -> Prop) :
  (forall start seen,
     In start seen ->
     (forall u, In u seen -> reachable g start u) ->
     (forall u v, In u seen -> adjacent g u v -> In v seen) ->
     P seen) ->
  forall fuel nv comps cs,
    Graph.fcc_loop fuel g nv comps = Ok cs ->
    (forall c, In c comps -> P c) ->
    forall c, In c cs -> P c.
Proof.
  intros HP. induction fuel as [|fuel IH]; intros nv comps cs H Hc;
    cbn [Graph.fcc_loop] in H;
    destruct (list_pop nv) as [[start nv']|]; try discriminate.
  - injection H as <-. exact Hc.
  - destruct (Graph.fcc_bfs (S (length nv')) g [start] nv' [start])
      as [[seen nv'']|e|] eqn:Hb; cbn [bind] in H; try discriminate.
    destruct (fcc_bfs_post g start _ _ _ _ _ _ Hb) as (G1 & G2 & G3).
    + apply incl_refl.
    + intros u [<-|[]]. constructor.
    + intros u [<-|[]]. left. now left.
    + apply (IH _ _ _ H). intros c Hin. apply in_app_or in Hin.
      destruct Hin as [Hin|[<-|[]]]; auto.
      apply (HP start); auto. apply G1. now left.
  - injection H as <-. exact Hc.
Qed.

(** X12: on an undirected graph whose stored neighbour ids are all
    vertices, every list returned by [find_connected_components] is a whole
    connected component: it is not empty, and from any of its members the
    vertices that can be reached are exactly its members. *)
Theorem components_are_reachability_classes : forall g,
  Graph.is_directed g = false ->
  closed g ->
  NoDup (dict_keys (Graph.vertex_dict g)) ->
  exists cs,
    Graph.find_connected_components g = Ok cs
    /\ forall c, In c cs ->
         c <> [] /\ forall u, In u c -> forall v, In v c <-> reachable g u v.
Proof.
  intros g Hd Hc HK. unfold Graph.find_connected_components.
  destruct (fcc_loop_spec g Hd Hc
              (length (dict_keys (Graph.vertex_dict g)))
              (dict_keys (Graph.vertex_dict g)) [])
    as (cs & H1 & _).
  - exact HK.
  - simpl. now rewrite app_nil_r.
  - intros u v [].
  - apply le_n.
  - exists cs. split; [exact H1|].
    apply (fcc_loop_post g
             (fun c => c <> [] /\
                forall u, In u c -> forall v, In v c <-> reachable g u v))
      with (fuel := length (dict_keys (Graph.vertex_dict g)))
           (nv := dict_keys (Graph.vertex_dict g)) (comps := []);
      [|exact H1|intros c []].
    intros start seen Hs Hr Hcl. split; [now destruct seen|].
    intros u Hu v. split.
    + intros Hv. eapply reachable_trans; [|apply Hr; exact Hv].
      apply reachable_sym; auto.
    + induction 1 as [|x y Hx IH Hadj]; auto.
      eapply Hcl; eauto.
Qed.

Lemma components_are_reachability_classes_witness :
  exists cs,
    Graph.find_connected_components (g_line false) = Ok cs
    /\ forall c, In c cs ->
         c <> [] /\ forall u, In u c ->
                    forall v, In v c <-> reachable (g_line false) u v.
Proof.
  apply (components_are_reachability_classes (g_line false)).
  - reflexivity.
  - apply closedb_sound. reflexivity.
  - simpl. repeat constructor; simpl; intuition discriminate.
Defined.

(** ** The weighted [find_shortest_path] *)

Lemma dict_del_length {V} (d : dict V) k :
  In k (dict_keys d) -> S (length (dict_del d k)) = length d.
Proof.
  induction d as [|[k' v'] d IH]; simpl; [tauto|].
  destruct (String.eqb_spec k k') as [->|Hne]; [reflexivity|].
  intros [?|Hin]; [congruence|]. simpl. now rewrite IH.
Qed.

Lemma dict_del_in {V} (d : dict V) k x :
  NoDup (dict_keys d) ->
  (In x (dict_keys (dict_del d k)) <-> In x (dict_keys d) /\ x <> k).
Proof.
  intros Hnd. rewrite !dict_get_in_keys, (dict_get_del d k x Hnd).
  destruct (String.eqb_spec x k); split; intros H; try tauto; try congruence.
Qed.

Lemma dict_del_nodup {V} (d : dict V) k :
  NoDup (dict_keys d) -> NoDup (dict_keys (dict_del d k)).
Proof.
  induction d as [|[k' v'] d IH]; simpl; auto.
  intros Hnd. apply NoDup_cons_iff in Hnd as [Hn Hnd].
  destruct (String.eqb_spec k k') as [->|Hne]; auto.
  simpl. constructor; auto.
  intros H. apply Hn. apply (dict_del_in d k k' Hnd) in H. tauto.
Qed.

Lemma dict_set_nodup {V} (d : dict V) k v :
  NoDup (dict_keys d) -> NoDup (dict_keys (dict_set d k v)).
Proof.
  intros Hnd. rewrite dict_keys_set. destruct (dict_has d k) eqn:E; auto.
  apply NoDup_snoc; auto. intros H. apply dict_has_spec in H. congruence.
Qed.

Lemma dict_set_in {V} (d : dict V) k v x :
  In x (dict_keys (dict_set d k v)) <-> In x (dict_keys d) \/ x = k.
Proof.
  rewrite !dict_get_in_keys, dict_get_set.
  destruct (String.eqb_spec x k) as [->|Hne]; split; intros H;
    try tauto; try congruence.
Qed.

(** The dictionary the search starts from, before the start is set. *)
Lemma initial_distances ks : forall acc,
  NoDup (dict_keys acc) ->
  (forall k v, dict_get acc k = Some v -> v = Inf) ->
  NoDup (dict_keys (fold_left (fun d k => dict_set d k Inf) ks acc))
  /\ (forall k, In k (dict_keys
                      (fold_left (fun d k => dict_set d k Inf) ks acc))
                <-> In k (dict_keys acc) \/ In k ks)
  /\ (forall k v,
        dict_get (fold_left (fun d k => dict_set d k Inf) ks acc) k = Some v ->
        v = Inf).
Proof.
  induction ks as [|k0 ks IH]; intros acc Hnd Hinf; cbn [fold_left].
  - repeat split; auto. intros [?|[]]; auto.
  - destruct (IH (dict_set acc k0 Inf)) as (G1 & G2 & G3).
    + now apply dict_set_nodup.
    + intros k v. rewrite dict_get_set.
      destruct (String.eqb k k0); [congruence|apply Hinf].
    + split; [exact G1|]. split; [|exact G3].
      intros k. rewrite G2, dict_set_in. simpl. intuition auto.
Qed.

Lemma not_lt_fin w old : num_ltb (Fin w) old = false -> exists z, old = Fin z.
Proof. destruct old as [z|]; [eauto|discriminate]. Qed.

Section Dijkstra.
Variable g : WeightedGraph.t.
Variable s : vid.

Lemma dijkstra_relax_spec k o :
  dict_get (WeightedGraph.vertex_dict g) k = Some o ->
  forall nbrs vtd,
    incl nbrs (WeightedGraph.get_neighbors_with_weights o) ->
    In k (dict_keys vtd) ->
    (forall x d, dict_get vtd x = Some (Fin d) -> wwalk g s x d) ->
    exists vtd',
      WeightedGraph.dijkstra_relax nbrs k vtd = Ok vtd'
      /\ dict_keys vtd' = dict_keys vtd
      /\ (forall x d, dict_get vtd' x = Some (Fin d) -> wwalk g s x d)
      /\ (finite_at vtd k ->
          finite_at vtd' k
          /\ (forall x, finite_at vtd x -> finite_at vtd' x)
          /\ (forall v x, In (v, x) nbrs -> In v (dict_keys vtd) ->
                          finite_at vtd' v))
      /\ ((forall x, ~ finite_at vtd x) -> forall x, ~ finite_at vtd' x).
Proof.
  intros Ho. induction nbrs as [|[n w] nbrs IH]; intros vtd Hi Hk Hs.
  - exists vtd. cbn. repeat split; auto. intros v x [].
  - cbn [WeightedGraph.dijkstra_relax].
    assert (Hi' : incl nbrs (WeightedGraph.get_neighbors_with_weights o))
      by (intros e He; apply Hi; now right).
    assert (Hnw : In (n, w) (WeightedGraph.get_neighbors_with_weights o))
      by (apply Hi; now left).
    destruct (dict_get vtd n) as [old|] eqn:En.
    + destruct (num_ltb (Fin w) old) eqn:L.
      * pose proof Hk as Hgk. apply dict_get_in_keys in Hgk.
        unfold dict_at. destruct (dict_get vtd k) as [dk|] eqn:Ek;
          [|congruence]. cbn [bind].
        set (vtd1 := dict_set vtd n (num_add (Fin w) dk)).
        assert (K1 : dict_keys vtd1 = dict_keys vtd)
          by (eapply dict_keys_set_present; eauto).
        assert (F1 : finite_at vtd k -> forall x, finite_at vtd x ->
                       finite_at vtd1 x).
        { intros [zk Hzk] x [z Hz]. unfold finite_at, vtd1.
          rewrite dict_get_set. destruct (String.eqb x n); [|eauto].
          assert (dk = Fin zk) by congruence. subst dk. simpl. eauto. }
        destruct (IH vtd1 Hi') as (vtd' & R1 & R2 & R3 & R4 & R5).
        { now rewrite K1. }
        { intros x d. unfold vtd1. rewrite dict_get_set.
          destruct (String.eqb_spec x n) as [->|]; [|apply Hs].
          destruct dk as [d0|]; simpl; [|discriminate].
          intros [= <-]. eapply wwalk_edge; eauto. }
        exists vtd'. split; [exact R1|]. split; [congruence|].
        split; [exact R3|]. split.
        -- intros Hfk. destruct (R4 (F1 Hfk k Hfk)) as (Q1 & Q2 & Q3).
           split; [exact Q1|]. split.
           ++ intros x Hx. apply Q2. now apply F1.
           ++ intros v x [E|Hin] Hv.
              ** injection E as <- <-. apply Q2.
                 destruct Hfk as [zk Hzk]. unfold finite_at, vtd1.
                 rewrite dict_get_set_same.
                 assert (dk = Fin zk) by congruence. subst dk. simpl. eauto.
              ** eapply Q3; eauto. now rewrite K1.
        -- intros Hno. apply R5. intros x [z Hz]. unfold vtd1 in Hz.
           rewrite dict_get_set in Hz.
           destruct (String.eqb x n).
           ++ destruct dk as [d0|]; [|discriminate].
              apply (Hno k). now exists d0.
           ++ apply (Hno x). now exists z.
      * destruct (IH vtd Hi' Hk Hs) as (vtd' & R1 & R2 & R3 & R4 & R5).
        exists vtd'. split; [exact R1|]. split; [exact R2|].
        split; [exact R3|]. split; [|exact R5].
        intros Hfk. destruct (R4 Hfk) as (Q1 & Q2 & Q3).
        split; [exact Q1|]. split; [exact Q2|].
        intros v x [E|Hin] Hv; [|eauto].
        injection E as <- <-. apply Q2.
        destruct (not_lt_fin _ _ L) as [z ->]. now exists z.
    + destruct (IH vtd Hi' Hk Hs) as (vtd' & R1 & R2 & R3 & R4 & R5).
      exists vtd'. split; [exact R1|]. split; [exact R2|].
      split; [exact R3|]. split; [|exact R5].
      intros Hfk. destruct (R4 Hfk) as (Q1 & Q2 & Q3).
      split; [exact Q1|]. split; [exact Q2|].
      intros v x [E|Hin] Hv; [|eauto].
      injection E as <- <-. apply dict_get_in_keys in Hv. congruence.
Qed.

End Dijkstra.

Lemma min_inf_all_inf vtd k :
  dict_get vtd k = Some Inf ->
  (forall k', In k' (dict_keys vtd) -> num_le (wt vtd k) (wt vtd k')) ->
  forall x, ~ finite_at vtd x.
Proof.
  intros Hk Hmin x [z Hz].
  assert (Hx : In x (dict_keys vtd)) by (apply dict_get_in_keys; congruence).
  specialize (Hmin x Hx). unfold num_le, wt in Hmin.
  rewrite Hk, Hz in Hmin. discriminate.
Qed.

Lemma finite_del vtd k x :
  NoDup (dict_keys vtd) -> x <> k ->
  finite_at vtd x -> finite_at (dict_del vtd k) x.
Proof.
  intros Hnd Hne [z Hz]. exists z. rewrite dict_get_del by exact Hnd.
  destruct (String.eqb_spec x k); [contradiction|exact Hz].
Qed.

Lemma finite_del_inv vtd k x :
  NoDup (dict_keys vtd) ->
  finite_at (dict_del vtd k) x -> finite_at vtd x.
Proof.
  intros Hnd [z Hz]. exists z. rewrite dict_get_del in Hz by exact Hnd.
  destruct (String.eqb x k); [discriminate|exact Hz].
Qed.

Lemma dict_keys_length {V} (d : dict V) : length (dict_keys d) = length d.
Proof. apply length_map. Qed.

Section DijkstraLoop.
Variable g : WeightedGraph.t.
Variable s : vid.
Variable target_id : vid.

(** With no finite distance left, what is done is closed under the edges
    of the graph, so no walk leads from the start to a vertex still
    waiting. *)
Lemma dij_unreachable vtd done t :
  dij_inv g s vtd done ->
  (forall x, ~ finite_at vtd x) ->
  In t (dict_keys vtd) ->
  forall d, ~ wwalk g s t d.
Proof.
  intros I Hno Ht d Hw.
  assert (Hs : In s done).
  { destruct (dij_start _ _ _ _ I) as [H|H]; [exact H|]. now apply Hno in H. }
  assert (Hall : forall v d, wwalk g s v d ->
            In v (dict_keys (WeightedGraph.vertex_dict g)) -> In v done).
  { clear d Hw. intros v d Hw. induction Hw as [|u o v x d Hw IH Ho Hin];
      intros Hv; [exact Hs|].
    assert (Hu : In u (dict_keys (WeightedGraph.vertex_dict g)))
      by (apply dict_get_in_keys; congruence).
    destruct (dij_closed _ _ _ _ I u o v x (IH Hu) Ho Hin Hv) as [H|H];
      [exact H|]. now apply Hno in H. }
  apply (dij_apart _ _ _ _ I t); [|exact Ht].
  apply (Hall t d Hw). now apply (dij_known _ _ _ _ I).
Qed.

(** Taking out a vertex with a finite distance, after its relaxation. *)
Lemma dij_inv_finite vtd done k o vtd' :
  dij_inv g s vtd done ->
  In k (dict_keys vtd) ->
  dict_get (WeightedGraph.vertex_dict g) k = Some o ->
  dict_keys vtd' = dict_keys vtd ->
  (forall x d, dict_get vtd' x = Some (Fin d) -> wwalk g s x d) ->
  (forall x, finite_at vtd x -> finite_at vtd' x) ->
  (forall v x, In (v, x) (WeightedGraph.get_neighbors_with_weights o) ->
               In v (dict_keys vtd) -> finite_at vtd' v) ->
  finite_at vtd k ->
  dij_inv g s (dict_del vtd' k) (k :: done).
Proof.
  intros I Hk Ho K Hs Hmono Hnb Hfk.
  assert (Hnd : NoDup (dict_keys vtd'))
    by (rewrite K; apply (dij_nodup _ _ _ _ I)).
  assert (Hkeep : forall v, finite_at vtd v ->
            In v (k :: done) \/ finite_at (dict_del vtd' k) v).
  { intros v Hv. destruct (String.eqb_spec v k) as [->|Hne];
      [left; now left|].
    right. apply finite_del; auto. }
  assert (Hphase : forall x,
            In x (dict_keys (WeightedGraph.vertex_dict g)) ->
            In x (dict_keys vtd) \/ In x done).
  { destruct (dij_phase _ _ _ _ I) as [P|P]; [exact P|].
    now apply P in Hfk. }
  constructor.
  - now apply dict_del_nodup.
  - intros x Hx. apply dict_del_in in Hx; [|exact Hnd].
    apply (dij_known _ _ _ _ I). rewrite <- K. tauto.
  - intros x d Hx. rewrite dict_get_del in Hx by exact Hnd.
    destruct (String.eqb x k); [discriminate|]. now apply Hs.
  - destruct (dij_start _ _ _ _ I) as [H|H]; [left; now right|].
    now apply Hkeep.
  - intros u o' v x [<-|Hu] Ho' Hin Hv.
    + assert (o' = o) by congruence. subst o'.
      destruct (Hphase v Hv) as [Hp|Hd]; [|left; now right].
      destruct (String.eqb_spec v k) as [->|Hne]; [left; now left|].
      right. apply finite_del; auto. eapply Hnb; eauto.
    + destruct (dij_closed _ _ _ _ I u o' v x Hu Ho' Hin Hv) as [H|H];
        [left; now right|now apply Hkeep].
  - intros u [<-|Hu] Hin; apply dict_del_in in Hin; try exact Hnd.
    + tauto.
    + apply (dij_apart _ _ _ _ I u Hu). rewrite <- K. tauto.
  - left. intros x Hx. destruct (Hphase x Hx) as [Hp|Hd];
      [|right; now right].
    destruct (String.eqb_spec x k) as [->|Hne]; [right; now left|].
    left. apply dict_del_in; [exact Hnd|]. rewrite K. tauto.
Qed.

(** Taking out a vertex when only infinite distances are left. *)
Lemma dij_inv_infinite vtd done k vtd' :
  dij_inv g s vtd done ->
  dict_keys vtd' = dict_keys vtd ->
  (forall x d, dict_get vtd' x = Some (Fin d) -> wwalk g s x d) ->
  (forall x, ~ finite_at vtd x) ->
  (forall x, ~ finite_at vtd' x) ->
  dij_inv g s (dict_del vtd' k) done.
Proof.
  intros I K Hs Hno Hno'.
  assert (Hnd : NoDup (dict_keys vtd'))
    by (rewrite K; apply (dij_nodup _ _ _ _ I)).
  constructor.
  - now apply dict_del_nodup.
  - intros x Hx. apply dict_del_in in Hx; [|exact Hnd].
    apply (dij_known _ _ _ _ I). rewrite <- K. tauto.
  - intros x d Hx. rewrite dict_get_del in Hx by exact Hnd.
    destruct (String.eqb x k); [discriminate|]. now apply Hs.
  - destruct (dij_start _ _ _ _ I) as [H|H]; [now left|].
    now apply Hno in H.
  - intros u o' v x Hu Ho' Hin Hv.
    destruct (dij_closed _ _ _ _ I u o' v x Hu Ho' Hin Hv) as [H|H];
      [now left|now apply Hno in H].
  - intros u Hu Hin. apply dict_del_in in Hin; [|exact Hnd].
    apply (dij_apart _ _ _ _ I u Hu). rewrite <- K. tauto.
  - right. intros x Hx. apply (Hno' x). eapply finite_del_inv; eauto.
Qed.

Lemma dijkstra_loop_spec : forall fuel vtd done,
  dij_inv g s vtd done ->
  length vtd <= fuel ->
  match WeightedGraph.dijkstra_loop fuel g target_id vtd with
  | Ok r =>
      match r with
      | None => ~ In target_id (dict_keys vtd)
      | Some n =>
          In target_id (dict_keys vtd)
          /\ match n with
             | Fin d => wwalk g s target_id d
             | Inf => forall d, ~ wwalk g s target_id d
             end
      end
  | Raise _ => False
  | OutOfFuel => False
  end.
Proof.
  induction fuel as [|fuel IH]; intros vtd done I Hfuel;
    destruct vtd as [|p vtd0]; try (simpl in Hfuel; lia);
    try (simpl; tauto).
  cbn [WeightedGraph.dijkstra_loop].
  set (vtd := p :: vtd0) in *.
  destruct (get_smallest_vetext_spec vtd) as (k & Hk & Hkin & Hmin);
    [discriminate|].
  rewrite Hk. cbn [bind].
  pose proof Hkin as Hgk. apply dict_get_in_keys in Hgk.
  destruct (dict_get vtd k) as [dk|] eqn:Edk; [|congruence].
  destruct (String.eqb_spec k target_id) as [->|Hne].
  - unfold dict_at. rewrite Edk. cbn [bind]. split; [exact Hkin|].
    destruct dk as [d|].
    + now apply (dij_sound _ _ _ _ I).
    + apply (dij_unreachable vtd done target_id I); auto.
      now apply (min_inf_all_inf vtd target_id).
  - assert (Hkg : In k (dict_keys (WeightedGraph.vertex_dict g)))
      by now apply (dij_known _ _ _ _ I).
    apply dict_get_in_keys in Hkg. unfold dict_at at 1.
    destruct (dict_get (WeightedGraph.vertex_dict g) k) as [o|] eqn:Eo;
      [|congruence].
    cbn [bind].
    destruct (dijkstra_relax_spec g s k o Eo
                (WeightedGraph.get_neighbors_with_weights o) vtd
                (incl_refl _) Hkin (dij_sound _ _ _ _ I))
      as (vtd' & R1 & R2 & R3 & R4 & R5).
    rewrite R1. cbn [bind].
    assert (Hnd' : NoDup (dict_keys vtd'))
      by (rewrite R2; apply (dij_nodup _ _ _ _ I)).
    assert (Hlen : length (dict_del vtd' k) <= fuel).
    { assert (In k (dict_keys vtd')) by now rewrite R2.
      pose proof (dict_del_length vtd' k H).
      pose proof (dict_keys_length vtd'). pose proof (dict_keys_length vtd).
      rewrite R2 in *. lia. }
    assert (Hback : forall done',
              dij_inv g s (dict_del vtd' k) done' ->
              match WeightedGraph.dijkstra_loop fuel g target_id
                      (dict_del vtd' k) with
              | Ok r =>
                  match r with
                  | None => ~ In target_id (dict_keys vtd)
                  | Some n =>
                      In target_id (dict_keys vtd)
                      /\ match n with
                         | Fin d => wwalk g s target_id d
                         | Inf => forall d, ~ wwalk g s target_id d
                         end
                  end
              | Raise _ => False
              | OutOfFuel => False
              end).
    { intros done' I'. specialize (IH _ _ I' Hlen).
      destruct (WeightedGraph.dijkstra_loop fuel g target_id
                  (dict_del vtd' k)) as [[n|]|e|]; auto.
      - destruct IH as [Hin Hn]. split; [|exact Hn].
        apply dict_del_in in Hin; [|exact Hnd']. rewrite <- R2. tauto.
      - intros Hin. apply IH. apply dict_del_in; [exact Hnd'|].
        rewrite R2. split; [exact Hin|congruence]. }
    destruct dk as [zk|].
    + assert (Hfk : finite_at vtd k) by now exists zk.
      destruct (R4 Hfk) as (Q1 & Q2 & Q3).
      apply (Hback (k :: done)).
      eapply dij_inv_finite; eauto.
    + pose proof (min_inf_all_inf vtd k Edk Hmin) as Hno.
      apply (Hback done).
      eapply dij_inv_infinite; eauto.
Qed.

End DijkstraLoop.

Lemma first_distances g s :
  let vtd :=
    dict_set (fold_left (fun d k => dict_set d k Inf)
                (dict_keys (WeightedGraph.vertex_dict g)) []) s (Fin 0) in
  NoDup (dict_keys vtd)
  /\ (forall k, In k (dict_keys vtd) <->
                In k (dict_keys (WeightedGraph.vertex_dict g)) \/ k = s)
  /\ (forall k, dict_get vtd k =
                if String.eqb k s then Some (Fin 0)
                else if dict_has vtd k then Some Inf else None).
Proof.
  intros vtd.
  destruct (initial_distances (dict_keys (WeightedGraph.vertex_dict g)) [])
    as (G1 & G2 & G3); [constructor|intros k v; discriminate|].
  split; [now apply dict_set_nodup|]. split.
  - intros k. unfold vtd. rewrite dict_set_in, G2. simpl. tauto.
  - intros k. unfold dict_has, vtd. rewrite dict_get_set.
    destruct (String.eqb k s); [reflexivity|].
    destruct (dict_get _ k) as [v|] eqn:E; [|reflexivity].
    now rewrite (G3 k v E).
Qed.



(** X14: asked for the way from an id to itself, the weighted
    [find_shortest_path] returns 0, also for an id that is not a vertex;
    for a start that is not a vertex and any other target it raises
    KeyError, at the lookup of the start in the vertex dictionary. *)
Theorem dijkstra_from_start : forall g start_id target_id,
  WeightedGraph.find_shortest_path g start_id start_id = Ok (Some (Fin 0))
  /\ (dict_has (WeightedGraph.vertex_dict g) start_id = false ->
      start_id <> target_id ->
      WeightedGraph.find_shortest_path g start_id target_id = Raise KeyError).
Proof.
  intros g s t.
  destruct (first_distances g s) as (G1 & G2 & G3).
  assert (Hfirst : forall vtd,
            vtd = dict_set (fold_left (fun d k => dict_set d k Inf)
                      (dict_keys (WeightedGraph.vertex_dict g)) []) s (Fin 0) ->
            exists p vtd0, vtd = p :: vtd0
              /\ WeightedGraph.get_smallest_vetext vtd = Ok s
              /\ dict_get vtd s = Some (Fin 0)).
  { intros vtd E. rewrite <- E in *.
    assert (Hin : In s (dict_keys vtd)) by (apply G2; now right).
    destruct vtd as [|p vtd0]; [destruct Hin|].
    exists p, vtd0. split; [reflexivity|].
    assert (Hs0 : dict_get (p :: vtd0) s = Some (Fin 0))
      by (rewrite G3; now rewrite String.eqb_refl).
    split; [|exact Hs0].
    destruct (get_smallest_vetext_spec (p :: vtd0)) as (k & Hk & Hkin & Hmin);
      [discriminate|].
    rewrite Hk. f_equal.
    destruct (String.eqb_spec k s) as [->|Hne]; [reflexivity|exfalso].
    specialize (Hmin s Hin). unfold num_le, wt in Hmin.
    rewrite Hs0, (G3 k) in Hmin.
    apply dict_has_spec in Hkin. rewrite Hkin in Hmin.
    apply String.eqb_neq in Hne. rewrite Hne in Hmin. discriminate. }
  unfold WeightedGraph.find_shortest_path.
  destruct (Hfirst _ eq_refl) as (p & vtd0 & E & Hsm & Hs0).
  rewrite E in *. split.
  - cbn [length WeightedGraph.dijkstra_loop]. rewrite Hsm. cbn [bind].
    rewrite String.eqb_refl. unfold dict_at. rewrite Hs0. reflexivity.
  - intros Hno Hne.
    cbn [length WeightedGraph.dijkstra_loop]. rewrite Hsm. cbn [bind].
    apply String.eqb_neq in Hne. rewrite Hne.
    unfold dict_at at 1. unfold dict_has in Hno.
    destruct (dict_get (WeightedGraph.vertex_dict g) s); [discriminate|].
    reflexivity.
Qed.

Lemma dijkstra_from_start_witness :
  WeightedGraph.find_shortest_path wg_pair "Z" "Z" = Ok (Some (Fin 0))
  /\ WeightedGraph.find_shortest_path wg_pair "Z" "A" = Raise KeyError.
Proof.
  destruct (dijkstra_from_start wg_pair "Z" "A") as [H1 H2].
  split; [exact H1|]. apply H2; [reflexivity|discriminate].
Defined.

(** ** Depth-first search: cycles and orderings *)

Lemma cyc_dfs_eq fuel g v st :
  Graph.cyc_dfs (S fuel) g v st =
  bind (Graph.get_neighbors g v)
    (fun ns => cyc_scan (Graph.cyc_dfs fuel g) v ns false st).
Proof. reflexivity. Qed.

Lemma ts_dfs_eq fuel g v st :
  Graph.ts_dfs (S fuel) g v st =
  bind (Graph.get_neighbors g v)
    (fun ns =>
       bind (ts_scan (Graph.ts_dfs fuel g) ns st)
         (fun st' => let '(not_visited, stack) := st' in
                     Ok (not_visited, stack ++ [v]))).
Proof. reflexivity. Qed.

Lemma list_remove_snoc n l : ~ In n l -> list_remove n (l ++ [n]) = l.
Proof.
  induction l as [|y l IH]; simpl; intros H.
  - now rewrite String.eqb_refl.
  - destruct (String.eqb_spec n y) as [->|]; [tauto|].
    f_equal. apply IH. tauto.
Qed.

Lemma list_remove_length n l :
  In n l -> S (length (list_remove n l)) = length l.
Proof.
  intros H. apply list_remove_perm in H. apply Permutation_length in H.
  exact H.
Qed.

Lemma acyclic_by_rank g (rank : vid -> nat) :
  (forall u v, adjacent g u v -> rank u < rank v) -> acyclic g.
Proof.
  intros H u v Ha Hr.
  assert (Hle : forall a b, reachable g a b -> rank a <= rank b).
  { induction 1 as [|x y Hx IH Hxy]; [lia|]. specialize (H _ _ Hxy). lia. }
  specialize (H _ _ Ha). specialize (Hle _ _ Hr). lia.
Qed.

Lemma g_line_acyclic : acyclic (g_line true).
Proof.
  apply (acyclic_by_rank _
           (fun x => if String.eqb x "A" then 0
                     else if String.eqb x "B" then 1
                     else if String.eqb x "C" then 2 else 3)).
  intros u v (ns & Hns & Hin). unfold Graph.get_neighbors, dict_at in Hns.
  simpl in Hns.
  destruct (String.eqb u "A") eqn:EA; [|destruct (String.eqb u "B") eqn:EB;
    [|destruct (String.eqb u "C") eqn:EC;
      [|destruct (String.eqb u "D") eqn:ED; [|discriminate]]]];
    injection Hns as <-; simpl in Hin;
    repeat match goal with H : _ \/ _ |- _ => destruct H end;
    try contradiction; subst v; simpl; lia.
Qed.

Section Acyclic.
Variable g : Graph.t.
Hypothesis g_closed : closed g.
Hypothesis g_acyclic : acyclic g.

Lemma cyc_dfs_acyclic : forall fuel v nv cp,
  length nv < fuel ->
  In v (dict_keys (Graph.vertex_dict g)) ->
  In v cp ->
  (forall a, In a cp -> reachable g a v) ->
  exists nv',
    Graph.cyc_dfs fuel g v (nv, cp) = Ok (false, (nv', list_remove v cp))
    /\ length nv' <= length nv.
Proof.
  induction fuel as [|fuel IH]; intros v nv cp Hfuel Hv Hcp Hr; [lia|].
  rewrite cyc_dfs_eq.
  destruct (get_neighbors_closed g g_closed v Hv) as (ns & Hns & Hnsk).
  rewrite Hns. cbn [bind].
  assert (Hadj : forall n, In n ns -> adjacent g v n)
    by (intros n Hn; exists ns; auto).
  assert (Hlen : length nv <= fuel) by lia.
  clear Hns Hfuel. revert nv Hlen.
  induction ns as [|n ns IHns]; intros nv Hlen.
  - cbn. unfold Graph.set_remove.
    rewrite (proj2 (py_in_spec v cp) Hcp). cbn. eauto.
  - cbn [cyc_scan].
    assert (Hvn : adjacent g v n) by (apply Hadj; now left).
    assert (Hncp : ~ In n cp).
    { intros H. apply (g_acyclic v n Hvn). now apply Hr. }
    destruct (py_in n nv) eqn:En.
    + apply py_in_spec in En.
      unfold Graph.set_add. rewrite (proj2 (py_in_false n cp) Hncp).
      destruct (IH n (list_remove n nv) (cp ++ [n])) as (nv2 & F & Hl2).
      * pose proof (list_remove_length n nv En). lia.
      * apply Hnsk. now left.
      * apply in_or_app. right. now left.
      * intros a Ha. apply in_app_or in Ha. destruct Ha as [Ha|[<-|[]]].
        -- eapply reach_step; [apply Hr; exact Ha|exact Hvn].
        -- constructor.
      * rewrite F. cbn [bind]. rewrite (list_remove_snoc n cp Hncp).
        destruct (IHns) with (nv := nv2) as (nv' & F' & Hl').
        -- intros x Hx. apply Hnsk. now right.
        -- intros x Hx. apply Hadj. now right.
        -- pose proof (list_remove_length n nv En). lia.
        -- exists nv'. split; [exact F'|].
           pose proof (list_remove_length n nv En). lia.
    + rewrite (proj2 (py_in_false n cp) Hncp).
      apply IHns; auto.
      * intros x Hx. apply Hnsk. now right.
      * intros x Hx. apply Hadj. now right.
Qed.

End Acyclic.

Lemma contains_cycle_acyclic : forall g,
  closed g -> acyclic g ->
  Graph.contains_cycle g =
  Ok (match dict_keys (Graph.vertex_dict g) with
      | [] => None
      | _ :: _ => Some false
      end).
Proof.
  intros g Hc Ha. unfold Graph.contains_cycle.
  pose proof (list_pop_spec (dict_keys (Graph.vertex_dict g))) as Hp.
  destruct (list_pop (dict_keys (Graph.vertex_dict g))) as [[s nv]|].
  - destruct (cyc_dfs_acyclic g Hc Ha (S (length nv)) s nv
                (Graph.set_add s [])) as (nv' & F & _).
    + lia.
    + rewrite Hp. apply in_or_app. right. now left.
    + now left.
    + intros a [<-|[]]. constructor.
    + rewrite F. cbn [bind]. rewrite Hp. now destruct nv.
  - now rewrite Hp.
Qed.


